(** * nadocast-srv: a shallow embedding of the monitor and its properties

    The monitor polls a directory listing for the newest forecast run,
    compares it with the run recorded in a state file, and posts the run's
    tornado images to Bluesky.  The TypeScript sources embedded here are

    - [scraper.ts]          (module [Scraper]),
    - [image_fetcher.ts]    (module [ImageFetcher]),
    - [state_manager.ts]    (module [StateManager]),
    - [bluesky_notifier.ts] (module [BlueskyNotifier]),
    - [index.ts]            (modules [Index] and [Logging]),
    - [config.ts]           (module [Config]).

    Strings are sequences of code units, as in JavaScript; the embedding
    uses [string], so it covers strings whose code units are below 256
    (everything the listings, run identifiers and post texts are made of).
    On that range UTF-8 file I/O is the identity on text, [length] counts
    code units and the relational operators compare code units.

    The outside world enters as follows.

    - The site is a function from a URL to the anchors of the page served
      there, the same during one cycle; a request that fails has no page.
      [new URL(href, base)] is a parameter, [None] where it throws.
    - The platform answers each endpoint by the number of the call: the
      message of the error the call fails with, or no error.  Every run of
      the program against any platform is of this form.
    - The disk is the state directory and file, with the I/O errors other
      than [ENOENT] as flags of the environment.
    - The environment variables are a function from a name to the value
      set, if any.
    - Waiting between attempts is recorded, not timed.  [RichText] with
      [detectFacets] leaves the text of a post as it is and is left out;
      console output is left out, the calls of [log] in [index.ts] are
      kept.

    Asynchronous functions are run to completion one after the other, as
    [await] does; a thrown [Error] is its message. *)

From Stdlib Require Import String Ascii List ZArith Arith Bool Lia.
From Stdlib Require Import DecimalString DecimalNat.
Import ListNotations.
Open Scope string_scope.
Open Scope nat_scope.

(* ================================================================== *)
(** * JavaScript strings *)
(* ================================================================== *)

Module JsString.

(** The code unit of a character. *)
Definition code (c : ascii) : nat := nat_of_ascii c.

(** [a < b] on strings (ECMAScript IsLessThan): the first differing code
    unit decides, and a proper prefix is smaller. *)
Fixpoint ltb (a b : string) : bool :=
  match a, b with
  | _, EmptyString => false
  | EmptyString, String _ _ => true
  | String x a', String y b' =>
      if code x <? code y then true
      else if code x =? code y then ltb a' b'
      else false
  end.

(** [a > b]. *)
Definition gtb (a b : string) : bool := ltb b a.

(** [a <= b] as the order the walker's maximum is taken in. *)
Definition leb (a b : string) : bool := negb (ltb b a).

(** [s.startsWith(p)]. *)
Fixpoint startsWith (p s : string) : bool :=
  match p, s with
  | EmptyString, _ => true
  | String _ _, EmptyString => false
  | String x p', String y s' => Ascii.eqb x y && startsWith p' s'
  end.

(** [s.includes(needle)]. *)
Fixpoint includes (needle s : string) : bool :=
  startsWith needle s
  || match s with
     | EmptyString => false
     | String _ s' => includes needle s'
     end.

(** [s.slice(0, n)] for [0 <= n]. *)
Fixpoint slice0 (n : nat) (s : string) : string :=
  match n, s with
  | O, _ => EmptyString
  | S _, EmptyString => EmptyString
  | S n', String c s' => String c (slice0 n' s')
  end.

(** [s.endsWith(p)]. *)
Definition endsWith (p s : string) : bool :=
  (String.length p <=? String.length s)
  && String.eqb
       (substring (String.length s - String.length p) (String.length p) s) p.

(** [s.lastIndexOf("/") + 1]: the index just after the last slash, [0]
    when there is none ([lastIndexOf] is then [-1]). *)
Fixpoint afterLastSlash (s : string) : nat :=
  match s with
  | EmptyString => 0
  | String c s' =>
      let k := afterLastSlash s' in
      if includes "/" s' then S k
      else if Ascii.eqb c "/" then 1 else 0
  end.

(** [s.substring(k)]. *)
Fixpoint substringFrom (k : nat) (s : string) : string :=
  match k, s with
  | O, _ => s
  | S _, EmptyString => EmptyString
  | S k', String _ s' => substringFrom k' s'
  end.

(** White space and line terminators of ECMAScript below 256: TAB, LF,
    VT, FF, CR, SP and NBSP. *)
Definition isWhiteSpace (c : ascii) : bool :=
  let n := code c in
  ((9 <=? n) && (n <=? 13)) || (n =? 32) || (n =? 160).

Fixpoint trimStart (s : string) : string :=
  match s with
  | EmptyString => EmptyString
  | String c s' => if isWhiteSpace c then trimStart s' else s
  end.

Fixpoint trimEnd (s : string) : string :=
  match s with
  | EmptyString => EmptyString
  | String c s' =>
      match trimEnd s' with
      | EmptyString => if isWhiteSpace c then EmptyString else String c EmptyString
      | t => String c t
      end
  end.

(** [s.trim()]. *)
Definition trim (s : string) : string := trimEnd (trimStart s).

(** A string in a condition: the empty string is falsy. *)
Definition truthy (s : string) : bool := negb (String.eqb s EmptyString).

End JsString.

(* ================================================================== *)
(** * Regular expressions *)
(* ================================================================== *)

(** The fragment of ECMAScript regular expressions the scraper's patterns
    are written in, with the backtracking matcher of the language: greedy
    quantifiers, leftmost match, one capture group. *)
Module Regex.

(** One-character atoms. *)
Inductive atom : Type :=
| AChar (c : ascii)   (* a literal character *)
| ADigit              (* \d *)
| ADot.               (* .  : anything but a line terminator *)

Inductive re : Type :=
| Eps                 (* the empty pattern *)
| Lit (a : atom)
| Cat (r1 r2 : re)
| Opt (r : re)        (* r?  *)
| Star (a : atom)     (* a*  *)
| Group (r : re)      (* (r) : capture group 1 *)
| Bol                 (* ^ *)
| Eol.                (* $ *)

(** [r{n}]. *)
Fixpoint Rep (n : nat) (r : re) : re :=
  match n with
  | O => Eps
  | S n' => Cat r (Rep n' r)
  end.

(** The literal [s]. *)
Fixpoint Str (s : string) : re :=
  match s with
  | EmptyString => Eps
  | String c s' => Cat (Lit (AChar c)) (Str s')
  end.

(** The patterns are written as sequences. *)
Fixpoint Seq (rs : list re) : re :=
  match rs with
  | [] => Eps
  | r :: rs' => Cat r (Seq rs')
  end.

Definition isDigit (c : ascii) : bool :=
  (48 <=? JsString.code c) && (JsString.code c <=? 57).

Definition isLineTerminator (c : ascii) : bool :=
  (JsString.code c =? 10) || (JsString.code c =? 13).

(** Canonicalize of the [i] flag.  The patterns' characters are ASCII, so
    only the folding of the ASCII letters matters: code units from 128 on
    never fold onto an ASCII character. *)
Definition canonicalize (c : ascii) : ascii :=
  let n := JsString.code c in
  if (97 <=? n) && (n <=? 122) then ascii_of_nat (n - 32) else c.

Definition atomMatches (ignoreCase : bool) (a : atom) (c : ascii) : bool :=
  match a with
  | AChar x =>
      if ignoreCase then Ascii.eqb (canonicalize x) (canonicalize c)
      else Ascii.eqb x c
  | ADigit => isDigit c
  | ADot => negb (isLineTerminator c)
  end.

Section Matcher.
Variable ignoreCase : bool.
Variable R : Type.

(** A continuation receives the position reached, the rest of the input
    and the capture so far. *)
Definition cont := nat -> string -> option string -> option R.

(** Greedy [a*]: as many characters as possible first. *)
Fixpoint star (a : atom) (pos : nat) (s : string) (cap : option string)
         (k : cont) : option R :=
  match s with
  | String c s' =>
      if atomMatches ignoreCase a c then
        match star a (S pos) s' cap k with
        | Some r => Some r
        | None => k pos s cap
        end
      else k pos s cap
  | EmptyString => k pos s cap
  end.

Fixpoint run (r : re) (pos : nat) (s : string) (cap : option string)
         (k : cont) : option R :=
  match r with
  | Eps => k pos s cap
  | Lit a =>
      match s with
      | String c s' =>
          if atomMatches ignoreCase a c then k (S pos) s' cap else None
      | EmptyString => None
      end
  | Cat r1 r2 => run r1 pos s cap (fun pos' s' cap' => run r2 pos' s' cap' k)
  | Opt r1 =>
      match run r1 pos s cap k with
      | Some x => Some x
      | None => k pos s cap
      end
  | Star a => star a pos s cap k
  | Group r1 =>
      run r1 pos s cap
          (fun pos' s' _ => k pos' s' (Some (JsString.slice0 (pos' - pos) s)))
  | Bol => if pos =? 0 then k pos s cap else None
  | Eol => match s with EmptyString => k pos s cap | _ => None end
  end.
End Matcher.

(** A compiled pattern: the expression and its [i] flag. *)
Record RegExp : Type := mkRegExp { source : re; ignoreCaseFlag : bool }.

(** The match at the leftmost start position: [Some cap] when there is one,
    [cap] being [match[1]] ([None] for an unset group). *)
Fixpoint execFrom (p : RegExp) (pos : nat) (s : string) : option (option string) :=
  match run (ignoreCaseFlag p) (option string) (source p) pos s None
            (fun _ _ cap => Some cap) with
  | Some cap => Some cap
  | None =>
      match s with
      | EmptyString => None
      | String _ s' => execFrom p (S pos) s'
      end
  end.

(** [s.match(p)]. *)
Definition exec (p : RegExp) (s : string) : option (option string) :=
  execFrom p 0 s.

(** [p.test(s)]. *)
Definition test (p : RegExp) (s : string) : bool :=
  match exec p s with Some _ => true | None => false end.

(** [m && m[1]] followed by [m[1]]: the captured token when the pattern
    matches and the capture is a non-empty string. *)
Definition capture1 (p : RegExp) (s : string) : option string :=
  match exec p s with
  | Some (Some c) => if JsString.truthy c then Some c else None
  | _ => None
  end.

End Regex.

(* ================================================================== *)
(** * Exceptions and state *)
(* ================================================================== *)

(** The outcome of a call: a value, or a thrown [Error] with its message. *)
Inductive result (A : Type) : Type :=
| Ok (a : A)
| Throw (message : string).
Arguments Ok {A} a.
Arguments Throw {A} message.

(** Computations over a mutable state [S] that may throw; the state
    reached when the exception is thrown is kept, as in the source. *)
Definition M (S A : Type) : Type := S -> result A * S.

Module Monad.
Section Ops.
Context {S : Type}.

Definition ret {A} (a : A) : M S A := fun s => (Ok a, s).

Definition bind {A B} (m : M S A) (f : A -> M S B) : M S B :=
  fun s =>
    match m s with
    | (Ok a, s') => f a s'
    | (Throw e, s') => (Throw e, s')
    end.

Definition throw {A} (e : string) : M S A := fun s => (Throw e, s).

(** [try { m } catch (error) { h error.message }]. *)
Definition tryCatch {A} (m : M S A) (h : string -> M S A) : M S A :=
  fun s =>
    match m s with
    | (Ok a, s') => (Ok a, s')
    | (Throw e, s') => h e s'
    end.

(** [try { m } finally { f }], for a [finally] block that does not
    throw. *)
Definition tryFinally {A} (m : M S A) (f : S -> S) : M S A :=
  fun s => let (r, s') := m s in (r, f s').

Definition get : M S S := fun s => (Ok s, s).
Definition modify (f : S -> S) : M S unit := fun s => (Ok tt, f s).

(** A pure call that may throw. *)
Definition liftResult {A} (r : result A) : M S A := fun s => (r, s).
End Ops.

(** Running a computation on a component of a larger state. *)
Definition zoom {S T A} (proj : T -> S) (upd : S -> T -> T) (m : M S A) : M T A :=
  fun t => let (r, s') := m (proj t) in (r, upd s' t).

(** [for (const x of xs) { body x }]. *)
Fixpoint forEach {S A} (xs : list A) (body : A -> M S unit) : M S unit :=
  match xs with
  | [] => ret tt
  | x :: xs' => bind (body x) (fun _ => forEach xs' body)
  end.
End Monad.

Declare Scope js_scope.
Delimit Scope js_scope with js.
Notation "x <- m ;; k" := (Monad.bind m (fun x => k))
  (at level 61, m at next level, right associativity) : js_scope.
Notation "m ;; k" := (Monad.bind m (fun _ => k))
  (at level 61, right associativity) : js_scope.

(* ================================================================== *)
(** * config.ts *)
(* ================================================================== *)

Record AppConfig : Type := mkAppConfig {
  monitorUrl : string;
  pdsUrl : string;
  blueskyHandle : string;
  blueskyAppPassword : string;
  checkIntervalMinutes : Z;
  stateFilePath : string;
  logLevel : string
}.

(* ================================================================== *)
(** * scraper.ts *)
(* ================================================================== *)

Module Scraper.
Import Regex.

(** An [<a>] element of a listing, as cheerio gives it: the [href]
    attribute when present, and the element's classes. *)
Record anchor : Type := mkAnchor {
  href : option string;
  classes : list string
}.

(** A fetched page, reduced to its anchors in document order. *)
Definition page : Type := list anchor.

Definition digit : re := Lit ADigit.

(** [/^\/(\d{6})\/$/] *)
Definition YEAR_MONTH_REGEX : RegExp :=
  mkRegExp (Seq [Bol; Str "/"; Group (Rep 6 digit); Str "/"; Eol]) false.

(** [/\/(\d{8})\/$/] *)
Definition DAY_REGEX : RegExp :=
  mkRegExp (Seq [Str "/"; Group (Rep 8 digit); Str "/"; Eol]) false.

(** [/\/(t\d{2}z)\/$/] *)
Definition RUN_REGEX : RegExp :=
  mkRegExp (Seq [Str "/"; Group (Seq [Str "t"; Rep 2 digit; Str "z"]);
                 Str "/"; Eol]) false.

(** [/_(sig_)?tornado_.*\.png$/i] *)
Definition TORNADO_IMG_REGEX : RegExp :=
  mkRegExp (Seq [Str "_"; Opt (Group (Str "sig_")); Str "tornado_";
                 Star ADot; Str ".png"; Eol]) true.

(** The pattern [/\/(\d{6})\/$/] written inline in [findLatestRunInfo]. *)
Definition YEAR_MONTH_TAIL_REGEX : RegExp :=
  mkRegExp (Seq [Str "/"; Group (Rep 6 digit); Str "/"; Eol]) false.

Record RunInfo : Type := mkRunInfo {
  runId : string;
  runUrl : string
}.

Section Web.
(** [new URL(href, base).toString()], [None] when the constructor
    throws. *)
Variable resolveUrl : string -> string -> option string.
(** The site: the page served with status 200 at a URL, [None] when the
    request fails. *)
Variable pages : string -> option page.
Variable config : AppConfig.

Definition MONITOR_URL : string := monitorUrl config.

Definition fetchHtml (url : string) : result page :=
  match pages url with
  | Some html => Ok html
  | None => Throw ("Failed to fetch HTML from " ++ url)
  end.

(** [$('a.directory')]. *)
Definition isDirectoryLink (a : anchor) : bool :=
  existsb (String.eqb "directory") (classes a).

(** The body of the [each] callback of [findLatestDirectoryUrl], on the
    pair [(latestDirValue, latestDirUrl)]. *)
Definition directoryStep (pageUrl : string) (patternRegex : RegExp)
           (acc : option string * option string) (element : anchor)
  : option string * option string :=
  let (latestDirValue, latestDirUrl) := acc in
  match href element with
  | Some h =>
      if JsString.truthy h then
        match capture1 patternRegex h with
        | Some dirValue =>
            if match latestDirValue with
               | None => true
               | Some v => JsString.gtb dirValue v
               end
            then (Some dirValue,
                  match resolveUrl h pageUrl with
                  | Some u => Some u
                  | None => latestDirUrl
                  end)
            else acc
        | None => acc
        end
      else acc
  | None => acc
  end.

Definition findLatestDirectoryUrl (pageUrl : string) (patternRegex : RegExp)
  : result (option string) :=
  match fetchHtml pageUrl with
  | Throw e => Throw e
  | Ok html =>
      Ok (snd (fold_left (directoryStep pageUrl patternRegex)
                         (filter isDirectoryLink html) (None, None)))
  end.

(** The test of the [each] callback of [findTornadoImageUrls]. *)
Definition isRelevantHref (h : string) : bool :=
  JsString.truthy h
  && test TORNADO_IMG_REGEX h
  && negb (JsString.includes "abs_calib" h)
  && negb (JsString.includes "life_risk" h).

Definition tornadoStep (runDirUrl : string) (imageUrls : list string)
           (element : anchor) : list string :=
  match href element with
  | Some h =>
      if isRelevantHref h then
        match resolveUrl h runDirUrl with
        | Some fullUrl => (imageUrls ++ [fullUrl])%list
        | None => imageUrls
        end
      else imageUrls
  | None => imageUrls
  end.

Definition findTornadoImageUrls (runDirUrl : string) : result (list string) :=
  match fetchHtml runDirUrl with
  | Throw e => Throw e
  | Ok html => Ok (fold_left (tornadoStep runDirUrl) html [])
  end.

(** [u.match(p)] followed by [m ? m[1] : null] and the test [!token]. *)
Definition extractToken (p : RegExp) (u : string) : option string :=
  capture1 p u.

Definition findLatestRunInfo : option RunInfo :=
  match findLatestDirectoryUrl MONITOR_URL YEAR_MONTH_REGEX with
  | Throw _ => None
  | Ok None => None
  | Ok (Some latestYearMonthUrl) =>
    if negb (JsString.truthy latestYearMonthUrl) then None else
    match extractToken YEAR_MONTH_TAIL_REGEX latestYearMonthUrl with
    | None => None
    | Some _ =>
      match findLatestDirectoryUrl latestYearMonthUrl DAY_REGEX with
      | Throw _ => None
      | Ok None => None
      | Ok (Some latestDayUrl) =>
        if negb (JsString.truthy latestDayUrl) then None else
        match extractToken DAY_REGEX latestDayUrl with
        | None => None
        | Some dayYYYYMMDD =>
          match findLatestDirectoryUrl latestDayUrl RUN_REGEX with
          | Throw _ => None
          | Ok None => None
          | Ok (Some latestRunUrl) =>
            if negb (JsString.truthy latestRunUrl) then None else
            match extractToken RUN_REGEX latestRunUrl with
            | None => None
            | Some runTime =>
                Some (mkRunInfo (dayYYYYMMDD ++ "_" ++ runTime) latestRunUrl)
            end
          end
        end
      end
    end
  end.
End Web.
End Scraper.

(** A [Buffer]: bytes. *)
Definition Buffer : Type := list Byte.byte.

(** Decimal rendering of a number inside a template literal. *)
Definition natToString (n : nat) : string :=
  DecimalString.NilEmpty.string_of_uint (Nat.to_uint n).

(* ================================================================== *)
(** * image_fetcher.ts *)
(* ================================================================== *)

Module ImageFetcher.
Section Web.
(** The bytes served with status 200 at an image URL, [None] when the
    download fails. *)
Variable images : string -> option Buffer.

Definition fetchImage (imageUrl : string) : result Buffer :=
  match images imageUrl with
  | Some data => Ok data
  | None => Throw ("Failed to fetch image from " ++ imageUrl)
  end.

(** Failed downloads become [null] and are filtered out. *)
Fixpoint fetchImages (imageUrls : list string) : list Buffer :=
  match imageUrls with
  | [] => []
  | url :: rest =>
      match fetchImage url with
      | Ok data => data :: fetchImages rest
      | Throw _ => fetchImages rest
      end
  end.
End Web.
End ImageFetcher.

(* ================================================================== *)
(** * state_manager.ts *)
(* ================================================================== *)

Module StateManager.

(** What is on disk at the state path: no state directory, the directory
    without the file, or the file with its text. *)
Inductive node : Type :=
| NoDir
| EmptyDir
| File (content : string).

(** The file system as the state manager sees it, with the texts given to
    [fs.writeFile] so far (latest first). *)
Record Fs : Type := mkFs {
  disk : node;
  written : list string
}.

(** I/O faults of the environment: errors other than [ENOENT]. *)
Record FsFaults : Type := mkFsFaults {
  accessFault : bool;
  mkdirFault : bool;
  readFault : bool;
  writeFault : bool
}.

Inductive fsError : Type := ENOENT | EOTHER.

Section Store.
Variable faults : FsFaults.
Variable stateFilePath : string.
(** [path.dirname(stateFilePath)]. *)
Variable stateDir : string.

(** [fs.access(stateDir)]. *)
Definition access (s : Fs) : option fsError :=
  if accessFault faults then Some EOTHER
  else match disk s with NoDir => Some ENOENT | _ => None end.

(** [fs.mkdir(stateDir, { recursive: true })]. *)
Definition mkdir (s : Fs) : option fsError * Fs :=
  if mkdirFault faults then (Some EOTHER, s)
  else match disk s with
       | NoDir => (None, mkFs EmptyDir (written s))
       | _ => (None, s)
       end.

(** [fs.readFile(stateFilePath, 'utf-8')]. *)
Definition readFile (s : Fs) : fsError + string :=
  if readFault faults then inl EOTHER
  else match disk s with
       | File content => inr content
       | _ => inl ENOENT
       end.

(** [fs.writeFile(stateFilePath, data, 'utf-8')]. *)
Definition writeFile (data : string) (s : Fs) : option fsError * Fs :=
  if writeFault faults then (Some EOTHER, s)
  else match disk s with
       | NoDir => (Some ENOENT, s)
       | _ => (None, mkFs (File data) (data :: written s))
       end.

Definition ensureStateDirectoryExists : M Fs unit :=
  fun s =>
    match access s with
    | None => (Ok tt, s)
    | Some ENOENT =>
        match mkdir s with
        | (None, s') => (Ok tt, s')
        | (Some _, s') =>
            (Throw ("Failed to create state directory: " ++ stateDir), s')
        end
    | Some EOTHER => (Throw ("Failed to access state directory: " ++ stateDir), s)
    end.

Definition readLastProcessedRunId : M Fs (option string) :=
  (ensureStateDirectoryExists ;;
   fun s =>
     match readFile s with
     | inr content =>
         let trimmedContent := JsString.trim content in
         (Ok (if 0 <? String.length trimmedContent
              then Some trimmedContent else None), s)
     | inl ENOENT => (Ok None, s)
     | inl EOTHER => (Throw ("Failed to read state file: " ++ stateFilePath), s)
     end)%js.

Definition writeLastProcessedRunId (runId : string) : M Fs unit :=
  (ensureStateDirectoryExists ;;
   fun s =>
     match writeFile (JsString.trim runId) s with
     | (None, s') => (Ok tt, s')
     | (Some _, s') =>
         (Throw ("Failed to write state file: " ++ stateFilePath), s')
     end)%js.
End Store.
End StateManager.

(* ================================================================== *)
(** * bluesky_notifier.ts *)
(* ================================================================== *)

Module BlueskyNotifier.

Definition MAX_POST_LENGTH : nat := 300.
Definition MAX_IMAGES_PER_POST : nat := 4.
Definition MAX_RETRIES : nat := 3.
Definition RETRY_DELAY_MS : Z := 5000.

(** The handle [uploadBlob] answers with: the blob's place in the store. *)
Definition Blob : Type := nat.

Record UploadedImage : Type := mkUploadedImage {
  image : Blob;
  altText : string
}.

Record PostRecord : Type := mkPostRecord {
  text : string;
  embed : option (list (Blob * string))
}.

(** The platform's answers: the message of the error the [n]-th call of an
    endpoint fails with, [None] when that call succeeds. *)
Record AgentApi : Type := mkAgentApi {
  loginError : nat -> option string;
  uploadError : nat -> option string;
  postError : nat -> option string
}.

(** The [BskyAgent] with what it has done so far: calls made per
    endpoint, blobs stored, posts created (latest first), and the delays
    waited between attempts (latest first, in milliseconds). *)
Record Agent : Type := mkAgent {
  session : bool;
  loginCalls : nat;
  uploadCalls : nat;
  postCalls : nat;
  blobStore : list Buffer;
  feed : list PostRecord;
  delays : list Z
}.

Definition defaultAltText : string := "Nadocast forecast image".

Section Notifier.
Variable api : AgentApi.
Local Open Scope js_scope.

(** [agent.login(loginOpts)]. *)
Definition agentLogin : M Agent unit :=
  fun a =>
    let n := loginCalls a in
    match loginError api n with
    | None =>
        (Ok tt, mkAgent true (S n) (uploadCalls a) (postCalls a)
                        (blobStore a) (feed a) (delays a))
    | Some e =>
        (Throw e, mkAgent (session a) (S n) (uploadCalls a) (postCalls a)
                          (blobStore a) (feed a) (delays a))
    end.

(** [agent.uploadBlob(imageBuffer, { encoding: 'image/png' })]. *)
Definition agentUploadBlob (imageBuffer : Buffer) : M Agent Blob :=
  fun a =>
    let n := uploadCalls a in
    match uploadError api n with
    | None =>
        (Ok (List.length (blobStore a)),
         mkAgent (session a) (loginCalls a) (S n) (postCalls a)
                 (blobStore a ++ [imageBuffer])%list (feed a) (delays a))
    | Some e =>
        (Throw e, mkAgent (session a) (loginCalls a) (S n) (postCalls a)
                          (blobStore a) (feed a) (delays a))
    end.

(** [agent.post(postRecord)]. *)
Definition agentPost (postRecord : PostRecord) : M Agent unit :=
  fun a =>
    let n := postCalls a in
    match postError api n with
    | None =>
        (Ok tt, mkAgent (session a) (loginCalls a) (uploadCalls a) (S n)
                        (blobStore a) (postRecord :: feed a) (delays a))
    | Some e =>
        (Throw e, mkAgent (session a) (loginCalls a) (uploadCalls a) (S n)
                          (blobStore a) (feed a) (delays a))
    end.

(** [await new Promise(resolve => setTimeout(resolve, ms))]. *)
Definition sleep (ms : Z) : M Agent unit :=
  Monad.modify (fun a =>
    mkAgent (session a) (loginCalls a) (uploadCalls a) (postCalls a)
            (blobStore a) (feed a) (ms :: delays a)).

(** The retry loops count [attempts] up from [0] while
    [attempts < MAX_RETRIES]; they are written by recursion on
    [left = MAX_RETRIES - attempts], the attempts still allowed, so that
    [left = 0] is the loop condition failing. *)
Definition attemptsAfter (left : nat) : nat := S (MAX_RETRIES - left).

Fixpoint loginLoop (left : nat) : M Agent unit :=
  match left with
  | O => Monad.ret tt
  | S left' =>
      Monad.tryCatch agentLogin (fun message =>
        let attempts := attemptsAfter left in
        if MAX_RETRIES <=? attempts then
          Monad.throw ("Failed to log into Bluesky after "
                       ++ natToString MAX_RETRIES ++ " attempts: " ++ message)
        else sleep RETRY_DELAY_MS ;; loginLoop left')
  end.

Definition login : M Agent unit := loginLoop MAX_RETRIES.

(** The [while (attempts < MAX_RETRIES && !success)] loop for image
    [i] (counted from [0]); it yields [uploadedImages]. *)
Fixpoint uploadLoop (left : nat) (i : nat) (imageBuffer : Buffer)
         (alt : string) (uploadedImages : list UploadedImage)
  : M Agent (list UploadedImage) :=
  match left with
  | O => Monad.ret uploadedImages
  | S left' =>
      Monad.tryCatch
        (response <- agentUploadBlob imageBuffer ;;
         Monad.ret (uploadedImages ++ [mkUploadedImage response alt])%list)
        (fun message =>
           let attempts := attemptsAfter left in
           if MAX_RETRIES <=? attempts then
             Monad.throw ("Failed to upload image " ++ natToString (i + 1)
                          ++ " after " ++ natToString MAX_RETRIES
                          ++ " attempts: " ++ message)
           else sleep RETRY_DELAY_MS ;;
                uploadLoop left' i imageBuffer alt uploadedImages)
  end.

(** [altTexts[i] || 'Nadocast forecast image']. *)
Definition altTextAt (altTexts : list string) (i : nat) : string :=
  match nth_error altTexts i with
  | Some t => if JsString.truthy t then t else defaultAltText
  | None => defaultAltText
  end.

(** The [for] loop of [uploadImages] from index [i] on, [rest] being
    [images.slice(i)]. *)
Fixpoint uploadFrom (i : nat) (rest : list Buffer) (altTexts : list string)
         (uploadedImages : list UploadedImage)
  : M Agent (list UploadedImage) :=
  match rest with
  | [] => Monad.ret uploadedImages
  | imageBuffer :: rest' =>
      uploadedImages' <-
        uploadLoop MAX_RETRIES i imageBuffer (altTextAt altTexts i)
                   uploadedImages ;;
      uploadFrom (S i) rest' altTexts uploadedImages'
  end.

(** The images and alt texts kept by the cap on a post's images. *)
Definition capImages {A B} (images : list A) (altTexts : list B)
  : list A * list B :=
  if MAX_IMAGES_PER_POST <? List.length images
  then (firstn MAX_IMAGES_PER_POST images, firstn MAX_IMAGES_PER_POST altTexts)
  else (images, altTexts).

(** [altTexts.concat(Array(n - altTexts.length).fill(...))]; [Array] of
    a negative length throws a [RangeError]. *)
Definition padAltTexts (n : nat) (altTexts : list string)
  : result (list string) :=
  if n =? List.length altTexts then Ok altTexts
  else if n <? List.length altTexts then Throw "Invalid array length"
  else Ok (altTexts ++ repeat defaultAltText (n - List.length altTexts))%list.

Definition uploadImages (images : list Buffer) (altTexts : list string)
  : M Agent (list UploadedImage) :=
  if List.length images =? 0 then Monad.ret []
  else
    let (images, altTexts) := capImages images altTexts in
    altTexts <- Monad.liftResult (padAltTexts (List.length images) altTexts) ;;
    uploadFrom 0 images altTexts [].

(** The text of the post: cut to the limit when it is longer. *)
Definition truncatePostText (text : string) : string :=
  if MAX_POST_LENGTH <? String.length text
  then (JsString.slice0 (MAX_POST_LENGTH - 3) text ++ "...")%string
  else text.

Definition makePostRecord (text : string) (images : list UploadedImage)
  : PostRecord :=
  mkPostRecord (truncatePostText text)
    (if 0 <? List.length images
     then Some (map (fun img => (image img, altText img)) images)
     else None).

Definition isRateLimit (message : string) : bool :=
  JsString.truthy message && JsString.includes "RateLimitExceeded" message.

Fixpoint postLoop (left : nat) (postRecord : PostRecord) : M Agent unit :=
  match left with
  | O => Monad.ret tt
  | S left' =>
      Monad.tryCatch (agentPost postRecord) (fun message =>
        let attempts := attemptsAfter left in
        if isRateLimit message then
          sleep (RETRY_DELAY_MS * 5)%Z ;; postLoop left' postRecord
        else if attempts <? MAX_RETRIES then
          sleep RETRY_DELAY_MS ;; postLoop left' postRecord
        else
          Monad.throw ("Failed to create post after "
                       ++ natToString MAX_RETRIES ++ " attempts: " ++ message))
  end.

Definition createPost (text : string) (images : list UploadedImage)
  : M Agent unit :=
  postLoop MAX_RETRIES (makePostRecord text images).

Definition notifyBluesky (postText : string) (imageBuffers : list Buffer)
           (altTexts : list string) : M Agent unit :=
  Monad.tryCatch
    (a <- Monad.get ;;
     (if negb (session a) then login else Monad.ret tt) ;;
     uploadedImages <- uploadImages imageBuffers altTexts ;;
     createPost postText uploadedImages)
    (fun message => Monad.throw message).
End Notifier.
End BlueskyNotifier.

(* ================================================================== *)
(** * index.ts *)
(* ================================================================== *)

Module Index.
Import Scraper.

(** The calls of [log] made by [checkNadocast], in the order of the
    source. *)
Inductive LogEntry : Type :=
| CheckInProgress                              (* WARN *)
| StartingCheck                                (* INFO *)
| NoLatestRun                                  (* WARN *)
| LatestRunFound (runId runUrl : string)       (* INFO *)
| LastProcessed (id : option string)           (* INFO *)
| AlreadyProcessed                             (* INFO *)
| NewRunDetected (runId : string)              (* INFO *)
| NoTornadoImages (runId : string)             (* WARN *)
| FoundImages (n : nat) (runId : string)       (* INFO *)
| ProcessingImage (filename : string)          (* INFO *)
| FetchFailed (filename : string)              (* ERROR *)
| Fetched (filename : string)                  (* DEBUG *)
| AttemptingPost (filename : string)           (* INFO *)
| Posted (filename : string)                   (* INFO *)
| PostFailed (filename message : string)       (* ERROR *)
| FinishedRun (runId : string)                 (* INFO *)
| CheckError (message : string)                (* ERROR *)
| CheckFinished.                               (* INFO *)

(** The process: the disk, the agent, the [isProcessing] lock and the log
    (latest entry first). *)
Record World : Type := mkWorld {
  fs : StateManager.Fs;
  agent : BlueskyNotifier.Agent;
  isProcessing : bool;
  logged : list LogEntry
}.

Definition setFs (f : StateManager.Fs) (w : World) : World :=
  mkWorld f (agent w) (isProcessing w) (logged w).
Definition setAgent (a : BlueskyNotifier.Agent) (w : World) : World :=
  mkWorld (fs w) a (isProcessing w) (logged w).
Definition setProcessing (b : bool) (w : World) : World :=
  mkWorld (fs w) (agent w) b (logged w).
Definition addLog (e : LogEntry) (w : World) : World :=
  mkWorld (fs w) (agent w) (isProcessing w) (e :: logged w).

Definition onFs {A} (m : M StateManager.Fs A) : M World A :=
  Monad.zoom fs setFs m.
Definition onAgent {A} (m : M BlueskyNotifier.Agent A) : M World A :=
  Monad.zoom agent setAgent m.
Definition log (e : LogEntry) : M World unit := Monad.modify (addLog e).
Definition release : M World unit := Monad.modify (setProcessing false).

(** What the monitor runs against. *)
Record Env : Type := mkEnv {
  config : AppConfig;
  stateDir : string;
  resolveUrl : string -> string -> option string;
  pages : string -> option page;
  images : string -> option Buffer;
  api : BlueskyNotifier.AgentApi;
  faults : StateManager.FsFaults
}.

Section Monitor.
Variable env : Env.
Local Open Scope js_scope.

Definition findLatestRunInfo : option RunInfo :=
  Scraper.findLatestRunInfo (resolveUrl env) (pages env) (config env).
Definition findTornadoImageUrls (runDirUrl : string) : result (list string) :=
  Scraper.findTornadoImageUrls (resolveUrl env) (pages env) runDirUrl.
Definition fetchImages (imageUrls : list string) : list Buffer :=
  ImageFetcher.fetchImages (images env) imageUrls.
Definition readLastProcessedRunId : M World (option string) :=
  onFs (StateManager.readLastProcessedRunId
          (faults env) (stateFilePath (config env)) (stateDir env)).
Definition writeLastProcessedRunId (runId : string) : M World unit :=
  onFs (StateManager.writeLastProcessedRunId
          (faults env) (stateFilePath (config env)) (stateDir env) runId).
Definition notifyBluesky (postText : string) (imageBuffers : list Buffer)
           (altTexts : list string) : M World unit :=
  onAgent (BlueskyNotifier.notifyBluesky (api env) postText imageBuffers altTexts).

(** [imageUrl.substring(imageUrl.lastIndexOf('/') + 1)]. *)
Definition filenameOf (imageUrl : string) : string :=
  JsString.substringFrom (JsString.afterLastSlash imageUrl) imageUrl.

Definition postTextFor (runId filename : string) : string :=
  ("NADOCast Tornado Forecast" ++ String (ascii_of_nat 10) "Run: " ++ runId
   ++ String (ascii_of_nat 10) "Image: " ++ filename
   ++ String (ascii_of_nat 10) "Source: " ++ monitorUrl (config env))%string.

Definition altTextFor (runId filename : string) : string :=
  ("NADOCast tornado probability forecast for run " ++ runId
   ++ ". Image: " ++ filename ++ ".")%string.

(** The body of the [for] loop over the image URLs. *)
Definition processImage (latestRun : RunInfo) (imageUrl : string)
  : M World unit :=
  let filename := filenameOf imageUrl in
  log (ProcessingImage filename) ;;
  Monad.tryCatch
    (match fetchImages [imageUrl] with
     | [] => log (FetchFailed filename)
     | imageBuffer :: _ =>
         log (Fetched filename) ;;
         let postText := postTextFor (runId latestRun) filename in
         let altText := altTextFor (runId latestRun) filename in
         log (AttemptingPost filename) ;;
         notifyBluesky postText [imageBuffer] [altText] ;;
         log (Posted filename)
     end)
    (fun message => log (PostFailed filename message)).

(** [latestRun.runId === lastProcessedId]. *)
Definition sameRun (runId : string) (lastProcessedId : option string) : bool :=
  match lastProcessedId with
  | Some id => String.eqb runId id
  | None => false
  end.

(** The [try] block of [checkNadocast]. *)
Definition checkBody : M World unit :=
  match findLatestRunInfo with
  | None => log NoLatestRun ;; release
  | Some latestRun =>
      log (LatestRunFound (runId latestRun) (runUrl latestRun)) ;;
      lastProcessedId <- readLastProcessedRunId ;;
      log (LastProcessed lastProcessedId) ;;
      if sameRun (runId latestRun) lastProcessedId then
        log AlreadyProcessed ;; release
      else
        log (NewRunDetected (runId latestRun)) ;;
        imageUrls <- Monad.liftResult (findTornadoImageUrls (runUrl latestRun)) ;;
        if List.length imageUrls =? 0 then
          log (NoTornadoImages (runId latestRun)) ;;
          writeLastProcessedRunId (runId latestRun) ;;
          release
        else
          log (FoundImages (List.length imageUrls) (runId latestRun)) ;;
          Monad.forEach imageUrls (processImage latestRun) ;;
          writeLastProcessedRunId (runId latestRun) ;;
          log (FinishedRun (runId latestRun)) ;;
          release
  end.

Definition checkNadocast : M World unit :=
  w <- Monad.get ;;
  if isProcessing w then log CheckInProgress
  else
    Monad.modify (setProcessing true) ;;
    log StartingCheck ;;
    Monad.tryFinally
      (Monad.tryCatch checkBody (fun message => log (CheckError message)))
      (fun w' => addLog CheckFinished (setProcessing false w')).
End Monitor.
End Index.

(* ================================================================== *)
(** * config.ts: loading the configuration *)
(* ================================================================== *)

Module Config.

(** A Number as far as the configuration needs it: [NaN], an integer
    below [2^53] in magnitude (these are represented exactly), or a
    number of greater magnitude, which [parseInt] rounds and which is not
    represented here. *)
Inductive JsNumber : Type :=
| NaN
| SafeInt (z : Z)
| Large.

(** The longest prefix of decimal digits. *)
Fixpoint digitPrefix (s : string) : string :=
  match s with
  | EmptyString => EmptyString
  | String c s' =>
      if Regex.isDigit c then String c (digitPrefix s') else EmptyString
  end.

(** The integer a string of decimal digits denotes. *)
Fixpoint decimalValue (acc : Z) (digits : string) : Z :=
  match digits with
  | EmptyString => acc
  | String c digits' =>
      decimalValue (10 * acc + Z.of_nat (JsString.code c - 48)) digits'
  end.

(** The sign of [parseInt]: [-1] after removing a leading [-], [1]
    otherwise, a leading [+] being removed as well. *)
Definition readSign (s : string) : Z * string :=
  match s with
  | String c rest =>
      if Ascii.eqb c "-" then ((-1)%Z, rest)
      else if Ascii.eqb c "+" then (1%Z, rest)
      else (1%Z, s)
  | EmptyString => (1%Z, s)
  end.

(** [parseInt(inputString, 10)]: leading white space is skipped, one
    sign is read, then the longest prefix of digits; no digit is [NaN].
    ([-0] is [SafeInt 0].) *)
Definition parseInt (inputString : string) : JsNumber :=
  let (sign, unsigned) := readSign (JsString.trimStart inputString) in
  let digits := digitPrefix unsigned in
  match digits with
  | EmptyString => NaN
  | _ =>
      let mathInt := decimalValue 0 digits in
      if (mathInt <? 2 ^ 53)%Z then SafeInt (sign * mathInt) else Large
  end.

Definition isNaN (n : JsNumber) : bool :=
  match n with NaN => true | _ => false end.

(** The configuration as loaded: [AppConfig] with the interval as the
    Number read. *)
Record Settings : Type := mkSettings {
  monitorUrl : string;
  pdsUrl : string;
  blueskyHandle : string;
  blueskyAppPassword : string;
  checkIntervalMinutes : JsNumber;
  stateFilePath : string;
  logLevel : string
}.

(** Calls that may throw, without state. *)
Definition andThen {A B} (r : result A) (k : A -> result B) : result B :=
  match r with
  | Ok a => k a
  | Throw e => Throw e
  end.

Section Load.
(** [process.env] once [dotenv] has run: the value of a variable,
    [None] when it is not set. *)
Variable processEnv : string -> option string.
(** [path.resolve(__dirname, '../state/last_processed_run.txt')]. *)
Variable defaultStateFilePath : string.

Definition getEnvVariable (key : string) (defaultValue : option string)
  : result string :=
  match processEnv key with
  | None =>
      match defaultValue with
      | Some d => Ok d
      | None => Throw ("Missing required environment variable: " ++ key)
      end
  | Some value => Ok value
  end.

(** The default is a natural number below [10^21], which [toString]
    renders in decimal. *)
Definition getEnvVariableAsInt (key : string) (defaultValue : option nat)
  : result JsNumber :=
  andThen (getEnvVariable key (option_map natToString defaultValue))
    (fun valueStr =>
       let valueInt := parseInt valueStr in
       if isNaN valueInt then
         Throw ("Invalid integer value for environment variable " ++ key
                ++ ": " ++ valueStr)
       else Ok valueInt).

(** The evaluation of the module: the [config] object, property by
    property, then the validation. *)
Definition loadConfig : result Settings :=
  andThen (getEnvVariable "MONITOR_URL" (Some "http://data.nadocast.com/"))
    (fun monitorUrl =>
  andThen (getEnvVariable "PDS_URL" (Some "https://bsky.social"))
    (fun pdsUrl =>
  andThen (getEnvVariable "BLUESKY_HANDLE" None)
    (fun blueskyHandle =>
  andThen (getEnvVariable "BLUESKY_APP_PASSWORD" None)
    (fun blueskyAppPassword =>
  andThen (getEnvVariableAsInt "CHECK_INTERVAL_MINUTES" (Some 60))
    (fun checkIntervalMinutes =>
  andThen (getEnvVariable "STATE_FILE_PATH" (Some defaultStateFilePath))
    (fun stateFilePath =>
  andThen (getEnvVariable "LOG_LEVEL" (Some "info"))
    (fun logLevel =>
  if negb (JsString.startsWith "http" monitorUrl) then
    Throw "Invalid MONITOR_URL format."
  else if negb (JsString.startsWith "http" pdsUrl) then
    Throw "Invalid PDS_URL format."
  else
    Ok (mkSettings monitorUrl pdsUrl blueskyHandle blueskyAppPassword
                   checkIntervalMinutes stateFilePath logLevel)))))))).
End Load.
End Config.

(* ================================================================== *)
(** * index.ts: the log level *)
(* ================================================================== *)

Module Logging.
Import Index.

(** [enum LogLevel { DEBUG = 0, INFO = 1, WARN = 2, ERROR = 3 }]. *)
Inductive LogLevel : Type := DEBUG | INFO | WARN | ERROR.

Definition levelNumber (level : LogLevel) : nat :=
  match level with
  | DEBUG => 0
  | INFO => 1
  | WARN => 2
  | ERROR => 3
  end.

Definition levelName (level : LogLevel) : string :=
  match level with
  | DEBUG => "DEBUG"
  | INFO => "INFO"
  | WARN => "WARN"
  | ERROR => "ERROR"
  end.

(** A member of the object a numeric enum compiles to: the number under
    a name, and the name under a number. *)
Inductive EnumMember : Type :=
| Value (level : LogLevel)
| NameOf (level : LogLevel).

(** [toUpperCase] on the ASCII letters.  The keys of the enum object
    are ASCII and no other character is mapped onto an ASCII letter or
    digit, so that the lookup below gives what it gives with
    [toUpperCase]; the names inherited from [Object.prototype] all have a
    lower-case letter and are never the result of [toUpperCase]. *)
Definition upperAscii (c : ascii) : ascii :=
  let n := JsString.code c in
  if (97 <=? n) && (n <=? 122) then ascii_of_nat (n - 32) else c.

Fixpoint toUpperCase (s : string) : string :=
  match s with
  | EmptyString => EmptyString
  | String c s' => String (upperAscii c) (toUpperCase s')
  end.

(** [LogLevel[key]] for an upper-cased key. *)
Definition enumLookup (key : string) : option EnumMember :=
  if String.eqb key "DEBUG" then Some (Value DEBUG)
  else if String.eqb key "INFO" then Some (Value INFO)
  else if String.eqb key "WARN" then Some (Value WARN)
  else if String.eqb key "ERROR" then Some (Value ERROR)
  else if String.eqb key "0" then Some (NameOf DEBUG)
  else if String.eqb key "1" then Some (NameOf INFO)
  else if String.eqb key "2" then Some (NameOf WARN)
  else if String.eqb key "3" then Some (NameOf ERROR)
  else None.

(** [LogLevel[config.logLevel.toUpperCase()] ?? LogLevel.INFO]. *)
Definition currentLogLevel (logLevel : string) : EnumMember :=
  match enumLookup (toUpperCase logLevel) with
  | Some member => member
  | None => Value INFO
  end.

(** [level >= currentLogLevel]: against a name the comparison is one
    with [NaN], which is false. *)
Definition passes (logLevel : string) (level : LogLevel) : bool :=
  match currentLogLevel logLevel with
  | Value current => levelNumber current <=? levelNumber level
  | NameOf _ => false
  end.

(** The level each call of [log] in [checkNadocast] is made with. *)
Definition levelOf (e : LogEntry) : LogLevel :=
  match e with
  | CheckInProgress => WARN
  | StartingCheck => INFO
  | NoLatestRun => WARN
  | LatestRunFound _ _ => INFO
  | LastProcessed _ => INFO
  | AlreadyProcessed => INFO
  | NewRunDetected _ => INFO
  | NoTornadoImages _ => WARN
  | FoundImages _ _ => INFO
  | ProcessingImage _ => INFO
  | FetchFailed _ => ERROR
  | Fetched _ => DEBUG
  | AttemptingPost _ => INFO
  | Posted _ => INFO
  | PostFailed _ _ => ERROR
  | FinishedRun _ => INFO
  | CheckError _ => ERROR
  | CheckFinished => INFO
  end.

(** The calls of [log] that reach the console. *)
Definition emitted (logLevel : string) (calls : list LogEntry) : list LogEntry :=
  filter (fun e => passes logLevel (levelOf e)) calls.

End Logging.

(* ================================================================== *)
(** * Properties of the string operations *)
(* ================================================================== *)

Module StringFacts.
Import JsString.

Lemma code_inj (x y : ascii) : code x = code y -> x = y.
Proof.
  unfold code. intros H.
  rewrite <- (ascii_nat_embedding x), <- (ascii_nat_embedding y).
  now rewrite H.
Qed.

Lemma ltb_irrefl (a : string) : ltb a a = false.
Proof.
  induction a as [|x a IH]; simpl; [reflexivity|].
  now rewrite Nat.ltb_irrefl, Nat.eqb_refl.
Qed.

(** One unfolding of [ltb] on two non-empty strings, as a proposition. *)
Lemma ltb_cons (x y : ascii) (a b : string) :
  ltb (String x a) (String y b) = true <->
  code x < code y \/ (x = y /\ ltb a b = true).
Proof.
  simpl. destruct (Nat.ltb_spec (code x) (code y)) as [Hlt|Hge].
  - split; auto.
  - destruct (Nat.eqb_spec (code x) (code y)) as [Heq|Hne].
    + apply code_inj in Heq. subst y. split; [auto|].
      intros [Hlt|[_ H]]; [lia|exact H].
    + split; [discriminate|].
      intros [Hlt|[Heq _]]; [lia|]. subst y. now elim Hne.
Qed.

Lemma ltb_trans (a b c : string) :
  ltb a b = true -> ltb b c = true -> ltb a c = true.
Proof.
  revert b c. induction a as [|x a IH]; intros [|y b] [|z c]; simpl;
    try discriminate; try reflexivity.
  intros Hab Hbc. apply ltb_cons in Hab. apply ltb_cons in Hbc.
  apply ltb_cons.
  destruct Hab as [Hab|[-> Hab]], Hbc as [Hbc|[-> Hbc]].
  - left; lia.
  - left; exact Hab.
  - left; exact Hbc.
  - right; split; [reflexivity|]. eapply IH; eassumption.
Qed.

(** The order is total: two strings neither of which is below the other
    are equal. *)
Lemma ltb_total (a b : string) :
  ltb a b = false -> ltb b a = false -> a = b.
Proof.
  revert b. induction a as [|x a IH]; intros [|y b]; simpl;
    try discriminate; try reflexivity.
  destruct (Nat.ltb_spec (code x) (code y)); [discriminate|].
  destruct (Nat.ltb_spec (code y) (code x)); [intros _; discriminate|].
  assert (Hxy : code x = code y) by lia.
  rewrite Hxy, Nat.eqb_refl. apply code_inj in Hxy. subst y.
  intros H1 H2. f_equal. now apply IH.
Qed.

Lemma leb_refl (a : string) : leb a a = true.
Proof. unfold leb. now rewrite ltb_irrefl. Qed.

Lemma ltb_leb (a b : string) : ltb a b = true -> leb a b = true.
Proof.
  unfold leb. intros H. destruct (ltb b a) eqn:E; [|reflexivity].
  pose proof (ltb_trans _ _ _ H E) as Hc. now rewrite ltb_irrefl in Hc.
Qed.

Lemma leb_ltb_trans (a b c : string) :
  leb a b = true -> ltb b c = true -> ltb a c = true.
Proof.
  unfold leb. intros Hab Hbc.
  destruct (ltb a b) eqn:E.
  - eapply ltb_trans; eassumption.
  - apply Bool.negb_true_iff in Hab.
    now rewrite (ltb_total a b E Hab).
Qed.

Lemma leb_trans (a b c : string) :
  leb a b = true -> leb b c = true -> leb a c = true.
Proof.
  intros Hab Hbc. unfold leb. destruct (ltb c a) eqn:E; [|reflexivity].
  pose proof (leb_ltb_trans _ _ _ Hbc E) as H.
  unfold leb in Hab. now rewrite H in Hab.
Qed.

Lemma length_append (s t : string) :
  String.length (s ++ t) = String.length s + String.length t.
Proof. induction s as [|c s IH]; simpl; [reflexivity|now rewrite IH]. Qed.

Lemma length_slice0 (n : nat) (s : string) :
  n <= String.length s -> String.length (slice0 n s) = n.
Proof.
  revert s. induction n as [|n IH]; intros [|c s]; simpl; intros H;
    try reflexivity; try lia.
  rewrite IH; [reflexivity|lia].
Qed.

(** [slice(0, n)] is a prefix: the text is the slice followed by the
    rest. *)
Lemma slice0_prefix (n : nat) (s : string) :
  (slice0 n s ++ substringFrom n s)%string = s.
Proof.
  revert s. induction n as [|n IH]; intros [|c s]; simpl; try reflexivity.
  now rewrite IH.
Qed.

Lemma substring_all (s : string) : substring 0 (String.length s) s = s.
Proof. induction s as [|c s IH]; simpl; [reflexivity|now rewrite IH]. Qed.

Lemma substring_skip (s t : string) (n : nat) :
  substring (String.length s) n (s ++ t) = substring 0 n t.
Proof. induction s as [|c s IH]; simpl; [reflexivity|exact IH]. Qed.

Lemma endsWith_append (s p : string) : endsWith p (s ++ p) = true.
Proof.
  unfold endsWith. rewrite length_append.
  replace (String.length s + String.length p - String.length p)
    with (String.length s) by lia.
  rewrite substring_skip, substring_all, String.eqb_refl.
  rewrite Bool.andb_true_r. apply Nat.leb_le. lia.
Qed.

(** ** Trimming *)

(** A trimmed-at-the-start string is empty or starts with a character
    that is not white space. *)
Definition startsClean (s : string) : Prop :=
  match s with
  | EmptyString => True
  | String c _ => isWhiteSpace c = false
  end.

Lemma trimStart_clean (s : string) : startsClean (trimStart s).
Proof.
  induction s as [|c s IH]; simpl; [exact I|].
  destruct (isWhiteSpace c) eqn:E; [exact IH|exact E].
Qed.

Lemma trimStart_of_clean (s : string) : startsClean s -> trimStart s = s.
Proof. destruct s as [|c s]; simpl; [reflexivity|]. now intros ->. Qed.

Lemma trimEnd_clean (s : string) : startsClean s -> startsClean (trimEnd s).
Proof.
  destruct s as [|c s]; simpl; [exact id|]. intros H.
  destruct (trimEnd s); [rewrite H|]; exact H.
Qed.

Lemma trimEnd_idempotent (s : string) : trimEnd (trimEnd s) = trimEnd s.
Proof.
  induction s as [|c s IH]; simpl; [reflexivity|].
  destruct (trimEnd s) as [|d t] eqn:E.
  - destruct (isWhiteSpace c) eqn:W; simpl; [reflexivity|now rewrite W].
  - simpl in *. now rewrite IH.
Qed.

Lemma trim_idempotent (s : string) : trim (trim s) = trim s.
Proof.
  unfold trim.
  rewrite (trimStart_of_clean (trimEnd (trimStart s))).
  - apply trimEnd_idempotent.
  - apply trimEnd_clean, trimStart_clean.
Qed.

Lemma length_pos_iff (s : string) : (0 <? String.length s) = truthy s.
Proof. destruct s; reflexivity. Qed.

End StringFacts.

(* ================================================================== *)
(** * The matcher against the meaning of the patterns *)
(* ================================================================== *)

Module RegexFacts.
Import JsString Regex StringFacts.

(** [Match i r pos s cap pos' s' cap']: read at position [pos], where
    the input still to read is [s] and the capture is [cap], the pattern
    [r] can match up to position [pos'], leaving [s'] and the capture
    [cap']. *)
Inductive Match (i : bool)
  : re -> nat -> string -> option string -> nat -> string -> option string -> Prop :=
| MEps pos s cap : Match i Eps pos s cap pos s cap
| MLit a c pos s cap :
    atomMatches i a c = true ->
    Match i (Lit a) pos (String c s) cap (S pos) s cap
| MCat r1 r2 pos s cap pos1 s1 cap1 pos2 s2 cap2 :
    Match i r1 pos s cap pos1 s1 cap1 ->
    Match i r2 pos1 s1 cap1 pos2 s2 cap2 ->
    Match i (Cat r1 r2) pos s cap pos2 s2 cap2
| MOptSome r pos s cap pos' s' cap' :
    Match i r pos s cap pos' s' cap' ->
    Match i (Opt r) pos s cap pos' s' cap'
| MOptNone r pos s cap : Match i (Opt r) pos s cap pos s cap
| MStarNil a pos s cap : Match i (Star a) pos s cap pos s cap
| MStarCons a c pos s cap pos' s' cap' :
    atomMatches i a c = true ->
    Match i (Star a) (S pos) s cap pos' s' cap' ->
    Match i (Star a) pos (String c s) cap pos' s' cap'
| MGroup r pos s cap pos' s' cap' :
    Match i r pos s cap pos' s' cap' ->
    Match i (Group r) pos s cap pos' s' (Some (slice0 (pos' - pos) s))
| MBol s cap : Match i Bol 0 s cap 0 s cap
| MEol pos cap : Match i Eol pos EmptyString cap pos EmptyString cap.

(** ** Reading a match backwards *)

Lemma Match_Eps_inv i pos s cap pos' s' cap' :
  Match i Eps pos s cap pos' s' cap' -> pos' = pos /\ s' = s /\ cap' = cap.
Proof. inversion 1; subst; auto. Qed.

Lemma Match_Lit_inv i a pos s cap pos' s' cap' :
  Match i (Lit a) pos s cap pos' s' cap' ->
  exists c, s = String c s' /\ atomMatches i a c = true /\
            pos' = S pos /\ cap' = cap.
Proof. inversion 1; subst; eauto. Qed.

Lemma Match_Cat_inv i r1 r2 pos s cap pos2 s2 cap2 :
  Match i (Cat r1 r2) pos s cap pos2 s2 cap2 ->
  exists pos1 s1 cap1,
    Match i r1 pos s cap pos1 s1 cap1 /\ Match i r2 pos1 s1 cap1 pos2 s2 cap2.
Proof. inversion 1; subst; eauto. Qed.

Lemma Match_Opt_inv i r pos s cap pos' s' cap' :
  Match i (Opt r) pos s cap pos' s' cap' ->
  Match i r pos s cap pos' s' cap' \/ (pos' = pos /\ s' = s /\ cap' = cap).
Proof. inversion 1; subst; auto. Qed.

Lemma Match_Group_inv i r pos s cap pos' s' cap'' :
  Match i (Group r) pos s cap pos' s' cap'' ->
  exists cap', Match i r pos s cap pos' s' cap' /\
               cap'' = Some (slice0 (pos' - pos) s).
Proof. inversion 1; subst; eauto. Qed.

Lemma Match_Bol_inv i pos s cap pos' s' cap' :
  Match i Bol pos s cap pos' s' cap' ->
  pos = 0 /\ pos' = 0 /\ s' = s /\ cap' = cap.
Proof. inversion 1; subst; auto. Qed.

Lemma Match_Eol_inv i pos s cap pos' s' cap' :
  Match i Eol pos s cap pos' s' cap' ->
  s = EmptyString /\ s' = EmptyString /\ pos' = pos /\ cap' = cap.
Proof. inversion 1; subst; auto. Qed.

(** Taking apart the match of a sequence. *)
Ltac inv_match :=
  repeat match goal with
  | H : Match _ (Cat _ _) _ _ _ _ _ _ |- _ =>
      apply Match_Cat_inv in H; destruct H as (? & ? & ? & ? & ?)
  | H : Match _ (Lit _) _ _ _ _ _ _ |- _ =>
      apply Match_Lit_inv in H; destruct H as (? & ? & ? & ? & ?); subst
  | H : Match _ (Group _) _ _ _ _ _ _ |- _ =>
      apply Match_Group_inv in H; destruct H as (? & ? & ?); subst
  | H : Match _ Eps _ _ _ _ _ _ |- _ =>
      apply Match_Eps_inv in H; destruct H as (? & ? & ?); subst
  | H : Match _ Eol _ _ _ _ _ _ |- _ =>
      apply Match_Eol_inv in H; destruct H as (? & ? & ? & ?); subst
  | H : Match _ Bol _ _ _ _ _ _ |- _ =>
      apply Match_Bol_inv in H; destruct H as (? & ? & ? & ?); subst
  end.

Section Matcher.
Variable i : bool.
Variable R : Type.

Lemma star_sound (a : atom) (s : string) :
  forall pos cap (k : cont R) x,
    star i R a pos s cap k = Some x ->
    exists pos' s' cap',
      Match i (Star a) pos s cap pos' s' cap' /\ k pos' s' cap' = Some x.
Proof.
  induction s as [|c s IH]; intros pos cap k x; cbn [star].
  - intros H. exists pos, EmptyString, cap. split; [apply MStarNil|exact H].
  - destruct (atomMatches i a c) eqn:Ha.
    + destruct (star i R a (S pos) s cap k) as [y|] eqn:Hs.
      * intros H. inversion H. subst y. apply IH in Hs.
        destruct Hs as (pos' & s' & cap' & Hm & Hk).
        exists pos', s', cap'. split; [now apply MStarCons|exact Hk].
      * intros H. exists pos, (String c s), cap. split; [apply MStarNil|exact H].
    + intros H. exists pos, (String c s), cap. split; [apply MStarNil|exact H].
Qed.

(** Whatever the matcher finds is a match. *)
Lemma run_sound (r : re) :
  forall pos s cap (k : cont R) x,
    run i R r pos s cap k = Some x ->
    exists pos' s' cap',
      Match i r pos s cap pos' s' cap' /\ k pos' s' cap' = Some x.
Proof.
  induction r as [|a|r1 IH1 r2 IH2|r IH|a|r IH| |];
    intros pos s cap k x; cbn [run].
  - intros H. exists pos, s, cap. split; [apply MEps|exact H].
  - destruct s as [|c s]; [discriminate|].
    destruct (atomMatches i a c) eqn:Ha; [|discriminate].
    intros H. exists (S pos), s, cap. split; [now apply MLit|exact H].
  - intros H. apply IH1 in H. destruct H as (pos1 & s1 & cap1 & Hm1 & H).
    apply IH2 in H. destruct H as (pos2 & s2 & cap2 & Hm2 & H).
    exists pos2, s2, cap2. split; [econstructor; eassumption|exact H].
  - destruct (run i R r pos s cap k) as [y|] eqn:Hr.
    + intros H. inversion H. subst y. apply IH in Hr.
      destruct Hr as (pos' & s' & cap' & Hm & Hk).
      exists pos', s', cap'. split; [now apply MOptSome|exact Hk].
    + intros H. exists pos, s, cap. split; [apply MOptNone|exact H].
  - apply star_sound.
  - intros H. apply IH in H. destruct H as (pos' & s' & cap' & Hm & Hk).
    exists pos', s', (Some (slice0 (pos' - pos) s)).
    split; [apply MGroup with (cap' := cap'); exact Hm|exact Hk].
  - destruct (Nat.eqb_spec pos 0) as [->|]; [|discriminate].
    intros H. exists 0, s, cap. split; [apply MBol|exact H].
  - destruct s; [|discriminate].
    intros H. exists pos, EmptyString, cap. split; [apply MEol|exact H].
Qed.

(** The matcher misses no match: when the pattern can match up to a
    point where the continuation succeeds, the matcher succeeds. *)
Lemma run_complete (r : re) pos s cap pos' s' cap' :
  Match i r pos s cap pos' s' cap' ->
  forall (k : cont R) cap0,
    (forall c, k pos' s' c <> None) ->
    run i R r pos s cap0 k <> None.
Proof.
  induction 1 as [pos s cap|a c pos s cap Ha
                 |r1 r2 pos s cap pos1 s1 cap1 pos2 s2 cap2 _ IH1 _ IH2
                 |r pos s cap pos' s' cap' _ IH|r pos s cap|a pos s cap
                 |a c pos s cap pos' s' cap' Ha _ IH
                 |r pos s cap pos' s' cap' _ IH|s cap|pos cap];
    intros k cap0 Hk; cbn [run star].
  - apply Hk.
  - rewrite Ha. apply Hk.
  - apply IH1. intros c. apply IH2. exact Hk.
  - specialize (IH k cap0 Hk).
    destruct (run i R r pos s cap0 k); [discriminate|now elim IH].
  - destruct (run i R r pos s cap0 k); [discriminate|apply Hk].
  - destruct s as [|c s]; [apply Hk|]. cbn [star].
    destruct (atomMatches i a c); [|apply Hk].
    destruct (star i R a (S pos) s cap0 k); [discriminate|apply Hk].
  - rewrite Ha. specialize (IH k cap0 Hk). cbn [run] in IH.
    destruct (star i R a (S pos) s cap0 k); [discriminate|now elim IH].
  - apply IH. intros c. apply Hk.
  - apply Hk.
  - apply Hk.
Qed.
End Matcher.

(** ** [exec] and [test] *)

Lemma execFrom_sound (p : RegExp) (s : string) :
  forall pos cap,
    execFrom p pos s = Some cap ->
    exists pre suf pos' s',
      s = (pre ++ suf)%string /\
      Match (ignoreCaseFlag p) (source p) (pos + String.length pre) suf None
            pos' s' cap.
Proof.
  induction s as [|c s IH]; intros pos cap; cbn [execFrom].
  - destruct (run _ _ (source p) pos EmptyString None _) as [x|] eqn:Hr;
      [|discriminate].
    intros H. inversion H. subst x. apply run_sound in Hr.
    destruct Hr as (pos' & s' & cap' & Hm & Hk). inversion Hk. subst cap'.
    exists EmptyString, EmptyString, pos', s'. cbn. rewrite Nat.add_0_r. auto.
  - destruct (run _ _ (source p) pos (String c s) None _) as [x|] eqn:Hr.
    + intros H. inversion H. subst x. apply run_sound in Hr.
      destruct Hr as (pos' & s' & cap' & Hm & Hk). inversion Hk. subst cap'.
      exists EmptyString, (String c s), pos', s'. cbn. rewrite Nat.add_0_r. auto.
    + intros H. apply IH in H. destruct H as (pre & suf & pos' & s' & -> & Hm).
      exists (String c pre), suf, pos', s'. split; [reflexivity|].
      cbn [String.length]. now rewrite Nat.add_succ_r.
Qed.

Lemma execFrom_complete (p : RegExp) (pre : string) :
  forall pos suf pos' s' cap,
    Match (ignoreCaseFlag p) (source p) (pos + String.length pre) suf None
          pos' s' cap ->
    execFrom p pos (pre ++ suf) <> None.
Proof.
  induction pre as [|c pre IH]; intros pos suf pos' s' cap Hm.
  - cbn in Hm. rewrite Nat.add_0_r in Hm. cbn [String.append].
    assert (Hr : run (ignoreCaseFlag p) (option string) (source p) pos suf None
                     (fun _ _ cap => Some cap) <> None).
    { eapply run_complete; [exact Hm|]. intros c. discriminate. }
    destruct suf; cbn [execFrom];
      destruct (run _ _ (source p) pos _ None _);
      try discriminate; now elim Hr.
  - cbn [String.append execFrom].
    destruct (run _ _ (source p) pos _ None _); [discriminate|].
    apply (IH (S pos) suf pos' s' cap).
    cbn [String.length] in Hm. now rewrite Nat.add_succ_r in Hm.
Qed.

(** [test] decides whether the pattern matches somewhere in the text. *)
Theorem test_spec (p : RegExp) (s : string) :
  test p s = true <->
  exists pre suf pos' s' cap,
    s = (pre ++ suf)%string /\
    Match (ignoreCaseFlag p) (source p) (String.length pre) suf None pos' s' cap.
Proof.
  unfold test, exec. split.
  - destruct (execFrom p 0 s) as [cap|] eqn:He; [|discriminate].
    intros _. apply execFrom_sound in He.
    destruct He as (pre & suf & pos' & s' & Hs & Hm).
    exists pre, suf, pos', s', cap. auto.
  - intros (pre & suf & pos' & s' & cap & -> & Hm).
    pose proof (execFrom_complete p pre 0 suf pos' s' cap Hm) as H.
    destruct (execFrom p 0 (pre ++ suf)); [reflexivity|now elim H].
Qed.

(** A captured token comes from a match. *)
Lemma capture1_sound (p : RegExp) (s token : string) :
  capture1 p s = Some token ->
  token <> EmptyString /\
  exists pre suf pos' s',
    s = (pre ++ suf)%string /\
    Match (ignoreCaseFlag p) (source p) (String.length pre) suf None
          pos' s' (Some token).
Proof.
  unfold capture1, exec.
  destruct (execFrom p 0 s) as [[c|]|] eqn:He; try discriminate.
  destruct (truthy c) eqn:Ht; [|discriminate].
  intros H. inversion H. subst c. split.
  - intros ->. discriminate.
  - apply execFrom_sound in He. exact He.
Qed.

End RegexFacts.

(* ================================================================== *)
(** * What the scraper's patterns match *)
(* ================================================================== *)

Module PatternFacts.
Import JsString Regex Scraper StringFacts RegexFacts.

(** Every character of a string passes a test. *)
Fixpoint forallChars (f : ascii -> bool) (s : string) : bool :=
  match s with
  | EmptyString => true
  | String c s' => f c && forallChars f s'
  end.

(** A text that is a literal of a pattern up to the case of its letters. *)
Fixpoint sameFolded (literal text : string) : bool :=
  match literal, text with
  | EmptyString, EmptyString => true
  | String x l, String c t =>
      Ascii.eqb (canonicalize x) (canonicalize c) && sameFolded l t
  | _, _ => false
  end.

(** The capture of a group that read [n] characters. *)
Ltac read_capture n :=
  match goal with
  | H : Some _ = Some (slice0 ?k _) |- _ =>
      replace k with n in H by lia;
      cbn [slice0] in H; inversion H; subst; clear H
  end.

Ltac literal_chars :=
  repeat match goal with
  | H : atomMatches false (AChar _) _ = true |- _ =>
      cbn [atomMatches] in H; apply Ascii.eqb_eq in H; subst
  | H : atomMatches _ ADigit _ = true |- _ => cbn [atomMatches] in H
  end.

(** ** The directory patterns *)

(** [DAY_REGEX] captures the eight digits between the last two slashes
    of a text that ends with a slash. *)
Lemma DAY_REGEX_capture (u d : string) :
  capture1 DAY_REGEX u = Some d ->
  exists pre, u = (pre ++ "/" ++ d ++ "/")%string /\
              String.length d = 8 /\ forallChars isDigit d = true.
Proof.
  intros H. apply capture1_sound in H.
  destruct H as (_ & pre & suf & pos' & s' & -> & Hm).
  exists pre. cbn in Hm. unfold digit in Hm. inv_match. literal_chars.
  read_capture 8.
  cbn [slice0 String.append String.length forallChars].
  repeat match goal with H : isDigit _ = true |- _ => rewrite H; clear H end.
  auto.
Qed.

(** [RUN_REGEX] captures [t], two digits and [z] between the last two
    slashes of a text that ends with a slash. *)
Lemma RUN_REGEX_capture (u t : string) :
  capture1 RUN_REGEX u = Some t ->
  exists pre d1 d2,
    u = (pre ++ "/" ++ t ++ "/")%string /\
    t = String "t" (String d1 (String d2 "z")) /\
    isDigit d1 = true /\ isDigit d2 = true.
Proof.
  intros H. apply capture1_sound in H.
  destruct H as (_ & pre & suf & pos' & s' & -> & Hm).
  exists pre. cbn in Hm. unfold digit in Hm. inv_match. literal_chars.
  read_capture 4.
  cbn [slice0 String.append].
  eexists. eexists. repeat split; eauto.
Qed.

(** [YEAR_MONTH_REGEX] matches exactly a slash, six digits and a slash. *)
Lemma YEAR_MONTH_REGEX_capture (u d : string) :
  capture1 YEAR_MONTH_REGEX u = Some d ->
  u = ("/" ++ d ++ "/")%string /\
  String.length d = 6 /\ forallChars isDigit d = true.
Proof.
  intros H. apply capture1_sound in H.
  destruct H as (_ & pre & suf & pos' & s' & -> & Hm).
  cbn in Hm. unfold digit in Hm. inv_match. literal_chars.
  destruct pre; [|discriminate]. read_capture 6.
  cbn [slice0 String.append String.length forallChars].
  repeat match goal with H : isDigit _ = true |- _ => rewrite H; clear H end.
  auto.
Qed.

(** ** The image pattern *)

Lemma append_empty_r (s : string) : (s ++ "")%string = s.
Proof. induction s as [|c s IH]; cbn; [reflexivity|now rewrite IH]. Qed.

Lemma append_assoc (a b c : string) :
  ((a ++ b) ++ c)%string = (a ++ b ++ c)%string.
Proof. induction a as [|x a IH]; cbn; [reflexivity|now rewrite IH]. Qed.

Lemma Match_Str_inv (literal : string) :
  forall pos s cap pos' s' cap',
    Match true (Str literal) pos s cap pos' s' cap' ->
    exists text, s = (text ++ s')%string /\ sameFolded literal text = true /\
                 cap' = cap.
Proof.
  induction literal as [|x l IH]; intros pos s cap pos' s' cap' H; cbn [Str] in H.
  - apply Match_Eps_inv in H. destruct H as (_ & -> & ->).
    exists EmptyString. auto.
  - apply Match_Cat_inv in H. destruct H as (pos1 & s1 & cap1 & H1 & H2).
    apply Match_Lit_inv in H1. destruct H1 as (c & -> & Ha & _ & ->).
    apply IH in H2. destruct H2 as (text & -> & Hf & ->).
    exists (String c text). cbn [String.append sameFolded].
    cbn [atomMatches] in Ha. rewrite Ha. auto.
Qed.

Lemma Match_Str_intro (literal : string) :
  forall text pos rest cap,
    sameFolded literal text = true ->
    Match true (Str literal) pos (text ++ rest) cap
          (pos + String.length text) rest cap.
Proof.
  induction literal as [|x l IH]; intros [|c text] pos rest cap H;
    try discriminate; cbn [Str String.append String.length].
  - rewrite Nat.add_0_r. apply MEps.
  - cbn [sameFolded] in H. apply Bool.andb_true_iff in H. destruct H as [Hc Hl].
    eapply MCat; [apply MLit; exact Hc|].
    rewrite Nat.add_succ_r. apply (IH text (S pos) rest cap Hl).
Qed.

Lemma Match_Star_inv (i : bool) (a : atom) pos s cap pos' s' cap' :
  Match i (Star a) pos s cap pos' s' cap' ->
  exists body, s = (body ++ s')%string /\
               forallChars (atomMatches i a) body = true /\ cap' = cap.
Proof.
  intros H. remember (Star a) as r eqn:Hr.
  induction H as [| | | | |a0 pos s cap|a0 c pos s cap pos' s' cap' Ha _ IH| | |];
    try discriminate; inversion Hr; subst.
  - exists EmptyString. auto.
  - destruct (IH eq_refl) as (body & -> & Hb & ->).
    exists (String c body). cbn [String.append forallChars]. rewrite Ha. auto.
Qed.

Lemma Match_Star_intro (i : bool) (a : atom) (body : string) :
  forall pos rest cap,
    forallChars (atomMatches i a) body = true ->
    Match i (Star a) pos (body ++ rest) cap (pos + String.length body) rest cap.
Proof.
  induction body as [|c body IH]; intros pos rest cap H;
    cbn [String.append String.length].
  - rewrite Nat.add_0_r. apply MStarNil.
  - cbn [forallChars] in H. apply Bool.andb_true_iff in H. destruct H as [Hc Hb].
    apply MStarCons; [exact Hc|]. rewrite Nat.add_succ_r. now apply IH.
Qed.

(** X3. [TORNADO_IMG_REGEX] accepts the texts that contain, whatever the
    case of the letters, an underscore, [tornado_] with or without [sig_]
    in front, then characters none of which ends a line, up to [.png] at
    the very end. *)
Theorem TORNADO_IMG_REGEX_spec (h : string) :
  test TORNADO_IMG_REGEX h = true <->
  exists pre u sig name body ext,
    h = (pre ++ u ++ sig ++ name ++ body ++ ext)%string /\
    sameFolded "_" u = true /\
    (sig = EmptyString \/ sameFolded "sig_" sig = true) /\
    sameFolded "tornado_" name = true /\
    forallChars (fun c => negb (isLineTerminator c)) body = true /\
    sameFolded ".png" ext = true.
Proof.
  rewrite test_spec. unfold TORNADO_IMG_REGEX. cbn [source ignoreCaseFlag Seq].
  split.
  - intros (pre & suf & pos' & s' & cap & -> & Hm).
    repeat match goal with
    | H : Match _ (Cat _ _) _ _ _ _ _ _ |- _ =>
        apply Match_Cat_inv in H; destruct H as (? & ? & ? & ? & ?)
    | H : Match _ Eps _ _ _ _ _ _ |- _ =>
        apply Match_Eps_inv in H; destruct H as (? & ? & ?); subst
    | H : Match _ Eol _ _ _ _ _ _ |- _ =>
        apply Match_Eol_inv in H; destruct H as (? & ? & ? & ?); subst
    | H : Match _ (Str _) _ _ _ _ _ _ |- _ =>
        apply Match_Str_inv in H; destruct H as (? & ? & ? & ?); subst
    | H : Match _ (Star _) _ _ _ _ _ _ |- _ =>
        apply Match_Star_inv in H; destruct H as (? & ? & ? & ?); subst
    end.
    match goal with
    | H : Match _ (Opt _) _ _ _ _ _ _ |- _ =>
        apply Match_Opt_inv in H; destruct H as [Hg|(? & ? & ?)]
    end.
    + apply Match_Group_inv in Hg. destruct Hg as (c2 & Hg & _).
      apply Match_Str_inv in Hg. destruct Hg as (sig & -> & Hsig & _).
      rewrite append_empty_r.
      do 6 eexists. split; [reflexivity|]. auto 7.
    + subst. rewrite append_empty_r.
      exists pre. eexists. exists EmptyString. do 3 eexists.
      split; [reflexivity|]. auto 7.
  - intros (pre & u & sig & name & body & ext & -> & Hu & Hsig & Hn & Hb & He).
    exists pre, (u ++ sig ++ name ++ body ++ ext ++ "")%string.
    destruct Hsig as [->|Hsig]; do 3 eexists;
      (split; [now rewrite append_empty_r|]);
      (eapply MCat; [apply Match_Str_intro; exact Hu|]).
    + eapply MCat; [apply MOptNone|]. cbn [String.append].
      eapply MCat; [apply Match_Str_intro; exact Hn|].
      eapply MCat; [apply Match_Star_intro; exact Hb|].
      eapply MCat; [apply Match_Str_intro; exact He|].
      eapply MCat; [apply MEol|apply MEps].
    + eapply MCat;
        [apply MOptSome; eapply MGroup; apply Match_Str_intro; exact Hsig|].
      eapply MCat; [apply Match_Str_intro; exact Hn|].
      eapply MCat; [apply Match_Star_intro; exact Hb|].
      eapply MCat; [apply Match_Str_intro; exact He|].
      eapply MCat; [apply MEol|apply MEps].
Qed.

End PatternFacts.

(** Unfolding the monad's operations in a goal and in the hypotheses. *)
Ltac unfold_monad :=
  unfold Monad.bind, Monad.ret, Monad.throw, Monad.tryCatch, Monad.tryFinally,
    Monad.get, Monad.modify, Monad.liftResult, Monad.zoom in *.

(* ================================================================== *)
(** * The State Store *)
(* ================================================================== *)

Module StateManagerFacts.
Import JsString StateManager StringFacts.

Section Store.
Variable faults : FsFaults.
Variables stateFilePath stateDir : string.

Local Abbreviation ensure := (ensureStateDirectoryExists faults stateDir).
Local Abbreviation read :=
  (readLastProcessedRunId faults stateFilePath stateDir).
Local Abbreviation write :=
  (writeLastProcessedRunId faults stateFilePath stateDir).

(** What a read answers for a file holding [content]. *)
Definition parsed (content : string) : option string :=
  if truthy (trim content) then Some (trim content) else None.

(** A directory that is there and can be accessed is left alone. *)
Lemma ensure_present (s : Fs) :
  accessFault faults = false -> disk s <> NoDir -> ensure s = (Ok tt, s).
Proof.
  intros Ha Hd. unfold ensureStateDirectoryExists, access. rewrite Ha.
  destruct (disk s); [now elim Hd|reflexivity|reflexivity].
Qed.

(** A successful write leaves the trimmed identifier in the file, and
    it went through [fs.writeFile]. *)
Lemma write_ok_inv (runId : string) (s s' : Fs) :
  write runId s = (Ok tt, s') ->
  accessFault faults = false /\ writeFault faults = false /\
  s' = mkFs (File (trim runId)) (trim runId :: written s).
Proof.
  unfold writeLastProcessedRunId, ensureStateDirectoryExists, access, mkdir,
    writeFile. unfold_monad.
  destruct s as [d w]. simpl.
  destruct (accessFault faults); [discriminate|].
  destruct d as [| |c]; simpl.
  - destruct (mkdirFault faults); [discriminate|]. simpl.
    destruct (writeFault faults); [discriminate|].
    intros H. now inversion H.
  - destruct (writeFault faults); [discriminate|].
    intros H. now inversion H.
  - destruct (writeFault faults); [discriminate|].
    intros H. now inversion H.
Qed.

(** A write succeeds whenever the directory can be accessed or created
    and the file can be written. *)
Lemma write_ok (runId : string) (s : Fs) :
  accessFault faults = false -> writeFault faults = false ->
  (disk s = NoDir -> mkdirFault faults = false) ->
  write runId s = (Ok tt, mkFs (File (trim runId)) (trim runId :: written s)).
Proof.
  intros Ha Hw Hm.
  unfold writeLastProcessedRunId, ensureStateDirectoryExists, access, mkdir,
    writeFile. unfold_monad. rewrite Ha, Hw.
  destruct s as [[| |c] w]; simpl in *; try rewrite Hm by reflexivity;
    reflexivity.
Qed.

Lemma read_file (content : string) (w : list string) :
  accessFault faults = false -> readFault faults = false ->
  read (mkFs (File content) w) = (Ok (parsed content), mkFs (File content) w).
Proof.
  intros Ha Hr.
  unfold readLastProcessedRunId, ensureStateDirectoryExists, access, readFile.
  unfold_monad. rewrite Ha, Hr. simpl.
  unfold parsed. now rewrite length_pos_iff.
Qed.

(** A read that answers an identifier found the file in place, and
    changed nothing. *)
Lemma read_some_inv (s s' : Fs) (id : string) :
  read s = (Ok (Some id), s') ->
  s' = s /\ accessFault faults = false /\
  exists content, disk s = File content /\ parsed content = Some id.
Proof.
  unfold readLastProcessedRunId, ensureStateDirectoryExists, access, mkdir,
    readFile. unfold_monad.
  destruct s as [d w]. simpl.
  destruct (accessFault faults); [discriminate|].
  destruct d as [| |c]; simpl.
  - destruct (mkdirFault faults); [discriminate|]. simpl.
    destruct (readFault faults); discriminate.
  - destruct (readFault faults); discriminate.
  - destruct (readFault faults); [discriminate|].
    intros H. inversion H as [[Hid]]. clear H.
    repeat split. exists c. split; [reflexivity|].
    unfold parsed. rewrite <- length_pos_iff.
    destruct (0 <? String.length (trim c)); congruence.
Qed.

(** A read that succeeds met no fault, and leaves the directory in
    place and the texts written so far as they were. *)
Lemma read_ok_inv (s s' : Fs) (stored : option string) :
  read s = (Ok stored, s') ->
  accessFault faults = false /\ readFault faults = false /\
  disk s' <> NoDir /\ written s' = written s /\
  (disk s <> NoDir -> s' = s).
Proof.
  unfold readLastProcessedRunId, ensureStateDirectoryExists, access, mkdir,
    readFile. unfold_monad.
  destruct s as [d w]. simpl.
  destruct (accessFault faults); [discriminate|].
  destruct d as [| |c]; simpl.
  - destruct (mkdirFault faults); [discriminate|]. simpl.
    destruct (readFault faults); [discriminate|].
    intros H. inversion H. subst. simpl.
    repeat split; try discriminate. intros Hd. now elim Hd.
  - destruct (readFault faults); [discriminate|].
    intros H. inversion H. subst. simpl. repeat split; discriminate.
  - destruct (readFault faults); [discriminate|].
    intros H. inversion H. subst. simpl. repeat split; discriminate.
Qed.
End Store.

(** ** C10 *)

Lemma parsed_trim (r : string) : parsed (trim r) = parsed r.
Proof. unfold parsed. now rewrite trim_idempotent. Qed.

(** After a write that succeeded, a read answers what the text written
    parses to. *)
Lemma read_after_write
      (faults : FsFaults) (stateFilePath stateDir r : string) (s s' : Fs) :
  writeLastProcessedRunId faults stateFilePath stateDir r s = (Ok tt, s') ->
  readFault faults = false ->
  readLastProcessedRunId faults stateFilePath stateDir s' = (Ok (parsed r), s').
Proof.
  intros Hw Hr. apply write_ok_inv in Hw. destruct Hw as (Ha & _ & ->).
  rewrite <- parsed_trim. now apply read_file.
Qed.

Lemma truthy_nonempty (s : string) : s <> "" -> truthy s = true.
Proof.
  unfold truthy. intros Hne.
  destruct (String.eqb_spec s ""); [now elim Hne|reflexivity].
Qed.

(** C10. Writing a run identifier [r] and reading the state back answers
    the trimmed [r] when that is not empty, and no identifier when [r]
    trims to the empty string; an identifier without surrounding white
    space comes back exactly. *)
Theorem write_then_read_round_trip
        (faults : FsFaults) (stateFilePath stateDir r : string) (s s' : Fs) :
  writeLastProcessedRunId faults stateFilePath stateDir r s = (Ok tt, s') ->
  readFault faults = false ->
  let readBack := readLastProcessedRunId faults stateFilePath stateDir s' in
  (trim r <> "" -> readBack = (Ok (Some (trim r)), s')) /\
  (trim r = "" -> readBack = (Ok None, s')) /\
  (trim r = r -> r <> "" -> readBack = (Ok (Some r), s')).
Proof.
  intros Hw Hr readBack.
  assert (Hread : readBack = (Ok (parsed r), s'))
    by (subst readBack; now apply read_after_write with (s := s)).
  unfold parsed in Hread. repeat split.
  - intros Hne. now rewrite Hread, (truthy_nonempty _ Hne).
  - intros He. rewrite Hread, He. reflexivity.
  - intros Hcanon Hne. rewrite Hread, Hcanon, (truthy_nonempty _ Hne).
    reflexivity.
Qed.

End StateManagerFacts.

(* ================================================================== *)
(** * The Publisher *)
(* ================================================================== *)

Module NotifierFacts.
Import JsString BlueskyNotifier StringFacts.

(** ** The post text *)

Lemma truncatePostText_short (t : string) :
  String.length t <= MAX_POST_LENGTH -> truncatePostText t = t.
Proof.
  intros H. unfold truncatePostText.
  destruct (Nat.ltb_spec MAX_POST_LENGTH (String.length t)); [lia|reflexivity].
Qed.

Lemma truncatePostText_long (t : string) :
  MAX_POST_LENGTH < String.length t ->
  truncatePostText t = (slice0 (MAX_POST_LENGTH - 3) t ++ "...")%string /\
  String.length (truncatePostText t) = MAX_POST_LENGTH /\
  endsWith "..." (truncatePostText t) = true.
Proof.
  intros H. unfold truncatePostText.
  destruct (Nat.ltb_spec MAX_POST_LENGTH (String.length t)); [|lia].
  repeat split.
  - rewrite length_append, length_slice0; unfold MAX_POST_LENGTH in *;
      simpl; lia.
  - apply endsWith_append.
Qed.

(** Projections of an agent written out. *)
Ltac agent_simpl :=
  cbn [session loginCalls uploadCalls postCalls blobStore feed delays] in *.

Section Notifier.
Variable api : AgentApi.

(** ** Uploading *)

Lemma attempts_left (left : nat) :
  (MAX_RETRIES <=? attemptsAfter (S left)) = false -> 1 <= left.
Proof.
  unfold attemptsAfter, MAX_RETRIES. intros H. apply Nat.leb_gt in H. lia.
Qed.

(** An upload loop that ends normally has stored the buffer once and
    appended its handle. *)
Lemma uploadLoop_ok_inv (left i : nat) (buf : Buffer) (alt : string)
      (ups ups' : list UploadedImage) (a a' : Agent) :
  1 <= left ->
  uploadLoop api left i buf alt ups a = (Ok ups', a') ->
  ups' = (ups ++ [mkUploadedImage (List.length (blobStore a)) alt])%list /\
  blobStore a' = (blobStore a ++ [buf])%list /\
  feed a' = feed a /\ session a' = session a.
Proof.
  revert a. induction left as [|left IH]; intros a Hleft; [lia|].
  cbn [uploadLoop]. unfold_monad. unfold agentUploadBlob, sleep.
  unfold_monad.
  destruct (uploadError api (uploadCalls a)) as [e|] eqn:E.
  - destruct (MAX_RETRIES <=? attemptsAfter (S left)) eqn:Hk;
      [discriminate|].
    intros H. apply IH in H; [|now apply attempts_left].
    exact H.
  - intros H. inversion H. subst. simpl. auto.
Qed.

(** Whatever its outcome, an upload loop creates no post and keeps the
    session. *)
Lemma uploadLoop_frame (left i : nat) (buf : Buffer) (alt : string)
      (ups : list UploadedImage) (a a' : Agent) (r : result _) :
  uploadLoop api left i buf alt ups a = (r, a') ->
  feed a' = feed a /\ session a' = session a /\ postCalls a' = postCalls a.
Proof.
  revert a. induction left as [|left IH]; intros a.
  - cbn. intros H. inversion H. auto.
  - cbn [uploadLoop]. unfold_monad. unfold agentUploadBlob, sleep.
    unfold_monad.
    destruct (uploadError api (uploadCalls a)) as [e|] eqn:E.
    + destruct (MAX_RETRIES <=? attemptsAfter (S left)).
      * intros H. inversion H. auto.
      * intros H. apply IH in H. exact H.
    + intros H. inversion H. auto.
Qed.

(** Three failed attempts in a row end the loop with an error, and
    nothing is stored. *)
Lemma uploadLoop_exhausted (i : nat) (buf : Buffer) (alt : string)
      (ups : list UploadedImage) (a : Agent) :
  (forall k, k < MAX_RETRIES -> uploadError api (uploadCalls a + k) <> None) ->
  exists message a',
    uploadLoop api MAX_RETRIES i buf alt ups a = (Throw message, a') /\
    blobStore a' = blobStore a.
Proof.
  intros Hfail.
  assert (H0 : uploadError api (uploadCalls a) <> None).
  { rewrite <- (Nat.add_0_r (uploadCalls a)). apply Hfail.
    unfold MAX_RETRIES. lia. }
  assert (H1 : uploadError api (S (uploadCalls a)) <> None).
  { rewrite <- (Nat.add_1_r (uploadCalls a)). apply Hfail.
    unfold MAX_RETRIES. lia. }
  assert (H2 : uploadError api (S (S (uploadCalls a))) <> None).
  { replace (S (S (uploadCalls a))) with (uploadCalls a + 2) by lia.
    apply Hfail. unfold MAX_RETRIES. lia. }
  unfold MAX_RETRIES.
  cbn [uploadLoop]. unfold_monad. unfold agentUploadBlob, sleep.
  unfold_monad. cbn [uploadCalls blobStore].
  destruct (uploadError api (uploadCalls a)) as [e0|]; [|now elim H0].
  cbn [attemptsAfter MAX_RETRIES Nat.sub Nat.leb]. agent_simpl.
  destruct (uploadError api (S (uploadCalls a))) as [e1|]; [|now elim H1].
  agent_simpl.
  destruct (uploadError api (S (S (uploadCalls a)))) as [e2|];
    [|now elim H2].
  eexists. eexists. split; reflexivity.
Qed.

Lemma uploadFrom_ok_inv (rest : list Buffer) :
  forall (i : nat) (alts : list string) (ups ups' : list UploadedImage)
         (a a' : Agent),
    uploadFrom api i rest alts ups a = (Ok ups', a') ->
    blobStore a' = (blobStore a ++ rest)%list /\
    map image ups'
    = (map image ups ++ seq (List.length (blobStore a)) (List.length rest))%list /\
    map altText ups'
    = (map altText ups ++ map (altTextAt alts) (seq i (List.length rest)))%list.
Proof.
  induction rest as [|buf rest IH]; intros i alts ups ups' a a'.
  - cbn. intros H. inversion H. subst.
    now rewrite !List.app_nil_r.
  - cbn [uploadFrom]. unfold Monad.bind at 1.
    destruct (uploadLoop api MAX_RETRIES i buf (altTextAt alts i) ups a)
      as [[ups1|e] a1] eqn:E1; [|discriminate].
    apply uploadLoop_ok_inv in E1; [|unfold MAX_RETRIES; lia].
    destruct E1 as (-> & Hb & _ & _).
    intros H. apply IH in H. destruct H as (Hb' & Hi & Ha).
    rewrite Hb', Hi, Ha, Hb.
    rewrite !List.map_app, !List.length_app, <- !List.app_assoc.
    cbn [map List.length List.app seq image altText].
    rewrite Nat.add_1_r. auto.
Qed.

Lemma uploadFrom_frame (rest : list Buffer) :
  forall (i : nat) (alts : list string) (ups : list UploadedImage)
         (a a' : Agent) (r : result _),
    uploadFrom api i rest alts ups a = (r, a') ->
    feed a' = feed a /\ session a' = session a /\ postCalls a' = postCalls a.
Proof.
  induction rest as [|buf rest IH]; intros i alts ups a a' r.
  - cbn. intros H. inversion H. auto.
  - cbn [uploadFrom]. unfold Monad.bind at 1.
    destruct (uploadLoop api MAX_RETRIES i buf (altTextAt alts i) ups a)
      as [[ups1|e] a1] eqn:E1.
    + apply uploadLoop_frame in E1. destruct E1 as (Hf & Hs & Hp).
      intros H. apply IH in H. destruct H as (Hf' & Hs' & Hp').
      rewrite Hf', Hs', Hp'. auto.
    + apply uploadLoop_frame in E1. intros H. inversion H. subst. exact E1.
Qed.

(** The loop over a batch is the loop over its first images followed by
    the loop over the others. *)
Lemma uploadFrom_app (pre post : list Buffer) :
  forall (i : nat) (alts : list string) (ups : list UploadedImage) (a : Agent),
    uploadFrom api i (pre ++ post) alts ups a
    = Monad.bind (uploadFrom api i pre alts ups)
                 (fun ups1 => uploadFrom api (i + List.length pre) post alts ups1) a.
Proof.
  induction pre as [|buf pre IH]; intros i alts ups a.
  - cbn. now rewrite Nat.add_0_r.
  - cbn [List.app uploadFrom List.length]. unfold Monad.bind.
    destruct (uploadLoop api MAX_RETRIES i buf (altTextAt alts i) ups a)
      as [[ups1|e] a1]; [|reflexivity].
    rewrite IH. unfold Monad.bind. now rewrite Nat.add_succ_r.
Qed.

Lemma altTextAt_padded (alts : list string) (k i : nat) :
  altTextAt (alts ++ repeat defaultAltText k) i = altTextAt alts i.
Proof.
  unfold altTextAt.
  destruct (Nat.lt_ge_cases i (List.length alts)) as [Hlt|Hge].
  - now rewrite List.nth_error_app1.
  - rewrite List.nth_error_app2 by exact Hge.
    rewrite (proj2 (List.nth_error_None alts i) Hge).
    destruct (nth_error (repeat defaultAltText k) (i - List.length alts))
      as [t|] eqn:E; [|reflexivity].
    apply List.nth_error_In, List.repeat_spec in E. now subst t.
Qed.

(** The alt texts [uploadImages] goes on with are the first four given,
    padded; too many of them is an error. *)
Lemma padAltTexts_capped (A : Type) (images : list A)
      (altTexts alts : list string) :
  padAltTexts (List.length (fst (capImages images altTexts)))
              (snd (capImages images altTexts)) = Ok alts ->
  fst (capImages images altTexts) = firstn MAX_IMAGES_PER_POST images /\
  forall i, altTextAt alts i = altTextAt (firstn MAX_IMAGES_PER_POST altTexts) i.
Proof.
  unfold capImages, padAltTexts.
  destruct (Nat.ltb_spec MAX_IMAGES_PER_POST (List.length images)) as [Hc|Hc];
    cbn [fst snd].
  - destruct (Nat.eqb_spec (List.length (firstn MAX_IMAGES_PER_POST images))
                (List.length (firstn MAX_IMAGES_PER_POST altTexts))).
    + intros Hok. inversion Hok. auto.
    + destruct (_ <? _); [discriminate|].
      intros Hok. inversion Hok. split; [reflexivity|].
      intros i. apply altTextAt_padded.
  - rewrite (List.firstn_all2 (n := MAX_IMAGES_PER_POST) images) by exact Hc.
    destruct (Nat.eqb_spec (List.length images) (List.length altTexts)) as [He|He].
    + intros Hok. inversion Hok. subst alts.
      rewrite List.firstn_all2 by lia. auto.
    + destruct (Nat.ltb_spec (List.length images) (List.length altTexts));
        [discriminate|].
      intros Hok. inversion Hok. split; [reflexivity|].
      intros i. rewrite altTextAt_padded.
      rewrite List.firstn_all2 by lia. reflexivity.
Qed.

(** ** Logging in *)

Lemma loginLoop_frame (left : nat) :
  forall (a a' : Agent) (r : result unit),
    loginLoop api left a = (r, a') ->
    feed a' = feed a /\ blobStore a' = blobStore a /\
    uploadCalls a' = uploadCalls a /\ postCalls a' = postCalls a.
Proof.
  induction left as [|left IH]; intros a a' r.
  - cbn. intros H. inversion H. auto.
  - cbn [loginLoop]. unfold_monad. unfold agentLogin, sleep. unfold_monad.
    destruct (loginError api (loginCalls a)) as [e|].
    + destruct (MAX_RETRIES <=? attemptsAfter (S left)).
      * intros H. inversion H. auto.
      * intros H. apply IH in H. exact H.
    + intros H. inversion H. auto.
Qed.

(** The first step of [notifyBluesky]: log in unless a session is
    open. *)
Definition ensureSession : M Agent unit :=
  fun a => (if negb (session a) then login api else Monad.ret tt) a.

Lemma ensureSession_frame (a a' : Agent) (r : result unit) :
  ensureSession a = (r, a') ->
  feed a' = feed a /\ blobStore a' = blobStore a /\
  uploadCalls a' = uploadCalls a /\ postCalls a' = postCalls a.
Proof.
  unfold ensureSession, login. destruct (negb (session a)).
  - apply loginLoop_frame.
  - cbn. intros H. inversion H. auto.
Qed.

(** ** Submitting *)

(** Whatever happens, the loop creates the post at most once. *)
Lemma postLoop_feed (left : nat) (postRecord : PostRecord) :
  forall (a a' : Agent) (r : result unit),
    postLoop api left postRecord a = (r, a') ->
    blobStore a' = blobStore a /\
    (feed a' = feed a \/ (r = Ok tt /\ feed a' = postRecord :: feed a)).
Proof.
  induction left as [|left IH]; intros a a' r.
  - cbn. intros H. inversion H. auto.
  - cbn [postLoop]. unfold_monad. unfold agentPost, sleep. unfold_monad.
    destruct (postError api (postCalls a)) as [e|].
    + destruct (isRateLimit e).
      * intros H. apply IH in H. exact H.
      * destruct (attemptsAfter (S left) <? MAX_RETRIES).
        -- intros H. apply IH in H. exact H.
        -- intros H. inversion H. auto.
    + intros H. inversion H. auto.
Qed.

(** A normal return of the loop without a post: the last attempt
    allowed failed, and failed on the rate limit. *)
Lemma postLoop_ok_inv (left : nat) (postRecord : PostRecord) :
  forall (a a' : Agent),
    postLoop api left postRecord a = (Ok tt, a') ->
    feed a' = postRecord :: feed a \/
    (feed a' = feed a /\
     (left = 0 \/
      exists e, postError api (postCalls a + left - 1) = Some e /\
                isRateLimit e = true)).
Proof.
  induction left as [|left IH]; intros a a'.
  - cbn. intros H. inversion H. auto.
  - cbn [postLoop]. unfold_monad. unfold agentPost, sleep. unfold_monad.
    destruct (postError api (postCalls a)) as [e|] eqn:E.
    + destruct (isRateLimit e) eqn:Hrl.
      * intros H. apply IH in H. agent_simpl.
        destruct H as [H|[Hf [->|(e' & He' & Hrl')]]]; auto; right;
          (split; [exact Hf|]); right.
        -- exists e. split; [|exact Hrl].
           now replace (postCalls a + 1 - 1) with (postCalls a) by lia.
        -- exists e'. split; [|exact Hrl'].
           now replace (postCalls a + S left - 1)
             with (S (postCalls a) + left - 1) by lia.
      * destruct (attemptsAfter (S left) <? MAX_RETRIES) eqn:Hk;
          [|discriminate].
        assert (Hleft : 1 <= left).
        { unfold attemptsAfter, MAX_RETRIES in Hk.
          apply Nat.ltb_lt in Hk. lia. }
        intros H. apply IH in H. agent_simpl.
        destruct H as [H|[Hf [->|(e' & He' & Hrl')]]]; auto; [lia|].
        right. split; [exact Hf|]. right. exists e'. split; [|exact Hrl'].
        now replace (postCalls a + S left - 1)
          with (S (postCalls a) + left - 1) by lia.
    + intros H. inversion H. auto.
Qed.

(** ** One image per post *)

(** A post that embeds exactly one image. *)
Definition singleImage (p : PostRecord) : Prop :=
  exists blob alt, embed p = Some [(blob, alt)].

(** Called with one image, [notifyBluesky] creates at most one post, and
    that post embeds one image. *)
Lemma notifyBluesky_single_feed
      (postText : string) (imageBuffer : Buffer) (alt : string)
      (a a' : Agent) (r : result unit) :
  notifyBluesky api postText [imageBuffer] [alt] a = (r, a') ->
  feed a' = feed a \/ exists p, feed a' = p :: feed a /\ singleImage p.
Proof.
  unfold notifyBluesky, Monad.tryCatch, Monad.bind at 1 2, Monad.get.
  fold (ensureSession a).
  destruct (ensureSession a) as [[[]|e] a0] eqn:Hlogin.
  - pose proof (ensureSession_frame _ _ _ Hlogin) as (Hf0 & _).
    unfold Monad.bind at 1. unfold uploadImages.
    cbn [List.length Nat.eqb capImages MAX_IMAGES_PER_POST Nat.ltb Nat.leb
         padAltTexts].
    unfold Monad.bind at 1. unfold Monad.liftResult.
    destruct (uploadFrom api 0 [imageBuffer] [alt] [] a0) as [[ups|e] a1] eqn:Hup.
    + pose proof (uploadFrom_frame _ _ _ _ _ _ _ Hup) as (Hf1 & _).
      apply uploadFrom_ok_inv in Hup. destruct Hup as (_ & Hi & _).
      cbn [map List.app List.length seq] in Hi.
      destruct ups as [|u [|u' ups]]; try discriminate.
      unfold createPost.
      destruct (postLoop api MAX_RETRIES (makePostRecord postText [u]) a1)
        as [[[]|e] a2] eqn:Hpost;
        apply postLoop_feed in Hpost; destruct Hpost as [_ [Hp|[Hr Hp]]];
        intros H; inversion H; subst; try discriminate;
        try (left; congruence).
      right. eexists. split; [rewrite Hp, Hf1, Hf0; reflexivity|].
      unfold singleImage. cbn. eauto.
    + pose proof (uploadFrom_frame _ _ _ _ _ _ _ Hup) as (Hf1 & _).
      intros H. inversion H. subst. left. congruence.
  - pose proof (ensureSession_frame _ _ _ Hlogin) as (Hf0 & _).
    intros H. inversion H. subst. left. exact Hf0.
Qed.

(** ** C2, as the code has it *)

(** C2 (amended). The Publisher does not reorder its images: an upload
    step that succeeds has stored the first four images it was given
    (all of them when there are at most four) in their original order,
    and the uploaded entries refer to them in that order, each with the
    alt text of the same position (the default one where that is missing
    or empty). *)
Theorem uploadImages_keeps_first_four
        (images : list Buffer) (altTexts : list string)
        (a a' : Agent) (ups : list UploadedImage) :
  uploadImages api images altTexts a = (Ok ups, a') ->
  let kept := firstn MAX_IMAGES_PER_POST images in
  blobStore a' = (blobStore a ++ kept)%list /\
  map image ups = seq (List.length (blobStore a)) (List.length kept) /\
  map altText ups
  = map (altTextAt (firstn MAX_IMAGES_PER_POST altTexts))
        (seq 0 (List.length kept)).
Proof.
  unfold uploadImages.
  destruct (Nat.eqb_spec (List.length images) 0) as [Hz|Hnz].
  - destruct images; [|discriminate]. cbn. intros H. inversion H. subst.
    now rewrite List.app_nil_r.
  - destruct (capImages images altTexts) as [kept0 alts0] eqn:Hcap.
    unfold Monad.bind, Monad.liftResult.
    destruct (padAltTexts (List.length kept0) alts0) as [alts|e] eqn:Hpad;
      [|discriminate].
    pose proof (padAltTexts_capped Buffer images altTexts alts) as Hc.
    rewrite Hcap in Hc. cbn [fst snd] in Hc.
    destruct (Hc Hpad) as [-> Halt].
    intros H. apply uploadFrom_ok_inv in H. destruct H as (Hb & Hi & Ha).
    cbn [map List.app] in Hi, Ha. cbv zeta.
    repeat split; [exact Hb|exact Hi|].
    rewrite Ha. apply List.map_ext. exact Halt.
Qed.

(** ** C3, as the code has it *)

(** C3 (amended). An image whose upload fails three times in a row
    fails the upload step and with it the whole publish: whatever was
    uploaded before it, [notifyBluesky] throws and nothing is posted. *)
Theorem upload_exhaustion_fails_publish
        (postText : string) (images : list Buffer) (altTexts alts : list string)
        (pre post : list Buffer) (x : Buffer)
        (a a0 a1 : Agent) (ups1 : list UploadedImage) :
  ensureSession a = (Ok tt, a0) ->
  fst (capImages images altTexts) = (pre ++ x :: post)%list ->
  padAltTexts (List.length (pre ++ x :: post))
              (snd (capImages images altTexts)) = Ok alts ->
  uploadFrom api 0 pre alts [] a0 = (Ok ups1, a1) ->
  (forall k, k < MAX_RETRIES -> uploadError api (uploadCalls a1 + k) <> None) ->
  exists message a',
    notifyBluesky api postText images altTexts a = (Throw message, a') /\
    feed a' = feed a /\
    blobStore a' = (blobStore a ++ pre)%list.
Proof.
  intros Hlogin Hkept Hpad Hpre Hfail.
  destruct (uploadLoop_exhausted (0 + List.length pre) x
              (altTextAt alts (0 + List.length pre)) ups1 a1 Hfail)
    as (message & a' & Hx & Hb).
  exists message, a'.
  pose proof (ensureSession_frame _ _ _ Hlogin) as (Hf0 & Hb0 & _).
  pose proof (uploadFrom_frame _ _ _ _ _ _ _ Hpre) as (Hf1 & _).
  pose proof (uploadFrom_ok_inv _ _ _ _ _ _ _ Hpre) as (Hb1 & _).
  pose proof (uploadLoop_frame _ _ _ _ _ _ _ _ Hx) as (Hf2 & _).
  split; [|split; congruence].
  unfold notifyBluesky, Monad.tryCatch, Monad.bind at 1 2, Monad.get.
  fold (ensureSession a). rewrite Hlogin.
  unfold Monad.bind at 1. unfold uploadImages.
  destruct images as [|b images']; [destruct pre; discriminate|].
  cbn [List.length Nat.eqb].
  destruct (capImages (b :: images') altTexts) as [kept0 alts0].
  cbn [fst snd] in Hkept, Hpad. subst kept0.
  unfold Monad.bind at 1. unfold Monad.liftResult. rewrite Hpad.
  rewrite uploadFrom_app. unfold Monad.bind at 1. rewrite Hpre.
  cbn [uploadFrom]. unfold Monad.bind at 1. rewrite Hx. reflexivity.
Qed.

(** ** C4: the submit loop *)

(** A failed attempt that is retried: the loop goes on with one call
    more made and one delay more waited. *)
Lemma postLoop_retry (left : nat) (postRecord : PostRecord) (a : Agent)
      (e : string) :
  postError api (postCalls a) = Some e ->
  isRateLimit e = true \/ (attemptsAfter (S left) <? MAX_RETRIES) = true ->
  exists d,
    postLoop api (S left) postRecord a
    = postLoop api left postRecord
        (mkAgent (session a) (loginCalls a) (uploadCalls a) (S (postCalls a))
                 (blobStore a) (feed a) (d :: delays a)).
Proof.
  intros He Hretry.
  cbn [postLoop]. unfold_monad. unfold agentPost, sleep. unfold_monad.
  rewrite He. agent_simpl.
  destruct (isRateLimit e).
  - eexists. reflexivity.
  - destruct Hretry as [Hr|Hr]; [discriminate|]. rewrite Hr.
    eexists. reflexivity.
Qed.

(** Three failed attempts, the last on the rate limit: [createPost]
    returns normally and no post exists. *)
Lemma createPost_rate_limited_last
      (postText : string) (images : list UploadedImage) (a : Agent)
      (e0 e1 e2 : string) :
  postError api (postCalls a) = Some e0 ->
  postError api (S (postCalls a)) = Some e1 ->
  postError api (S (S (postCalls a))) = Some e2 ->
  isRateLimit e2 = true ->
  exists a', createPost api postText images a = (Ok tt, a') /\
             feed a' = feed a /\ postCalls a' = postCalls a + 3.
Proof.
  intros H0 H1 H2 Hrl. unfold createPost, MAX_RETRIES.
  destruct (postLoop_retry 2 (makePostRecord postText images) a e0 H0)
    as [d0 ->]; [right; reflexivity|].
  edestruct (postLoop_retry 1 (makePostRecord postText images)) as [d1 ->];
    [exact H1|right; reflexivity|].
  edestruct (postLoop_retry 0 (makePostRecord postText images)) as [d2 ->];
    [exact H2|left; exact Hrl|].
  cbn. eexists. split; [reflexivity|]. agent_simpl. split; [reflexivity|lia].
Qed.

(** X2. A normal return of [createPost] without a post happens in that
    case only: the third attempt failed on the rate limit. *)
Lemma createPost_ok_inv
      (postText : string) (images : list UploadedImage) (a a' : Agent) :
  createPost api postText images a = (Ok tt, a') ->
  feed a' = makePostRecord postText images :: feed a \/
  (feed a' = feed a /\
   exists e, postError api (postCalls a + 2) = Some e /\ isRateLimit e = true).
Proof.
  unfold createPost. intros H. apply postLoop_ok_inv in H.
  destruct H as [H|[Hf [H|(e & He & Hrl)]]]; auto.
  - discriminate.
  - right. split; [exact Hf|]. exists e. split; [|exact Hrl].
    unfold MAX_RETRIES in He.
    now replace (postCalls a + 2) with (postCalls a + 3 - 1) by lia.
Qed.

(** ** C8 *)

(** C8. The text of a post that [createPost] creates is the given text
    when that has at most 300 characters; a longer text is cut to its
    first 297 characters followed by the ellipsis, 300 characters in
    all. *)
Theorem createPost_text_truncation
        (postText : string) (images : list UploadedImage)
        (a a' : Agent) (r : result unit) (p : PostRecord) :
  createPost api postText images a = (r, a') ->
  feed a' = p :: feed a ->
  (String.length postText <= MAX_POST_LENGTH -> text p = postText) /\
  (MAX_POST_LENGTH < String.length postText ->
   text p = (slice0 (MAX_POST_LENGTH - 3) postText ++ "...")%string /\
   String.length (text p) = MAX_POST_LENGTH /\
   endsWith "..." (text p) = true).
Proof.
  unfold createPost. intros H Hfeed.
  apply postLoop_feed in H. destruct H as [_ [H|[_ H]]].
  - exfalso. rewrite H in Hfeed.
    apply (f_equal (@List.length _)) in Hfeed. cbn in Hfeed. lia.
  - rewrite H in Hfeed. inversion Hfeed. subst p. cbn [text makePostRecord].
    split; [apply truncatePostText_short|apply truncatePostText_long].
Qed.
End Notifier.
End NotifierFacts.

(* ================================================================== *)
(** * The Publisher on concrete runs *)
(* ================================================================== *)

Module NotifierExamples.
Import JsString BlueskyNotifier NotifierFacts.

(** A platform on which every call succeeds. *)
Definition allOk : AgentApi :=
  mkAgentApi (fun _ => None) (fun _ => None) (fun _ => None).

(** A fresh agent: no session, nothing done. *)
Definition idle : Agent := mkAgent false 0 0 0 [] [] [].

Definition png (b : Byte.byte) : Buffer := [b].

Definition fiveImages : list Buffer :=
  [png Byte.x01; png Byte.x02; png Byte.x03; png Byte.x04; png Byte.x05].

Definition fiveNames : list string :=
  ["a_tornado"; "b_sig_tornado"; "c_tornado"; "d_sig_tornado"; "e_tornado"].

(** The selection of the specification: when more than four images are
    present, those whose name contains [sig_] first, the order otherwise
    kept, then the first four. *)
Definition hasSig (filename : string) : bool := includes "sig_" filename.

Definition specPrioritySelect (names : list string) : list string :=
  if MAX_IMAGES_PER_POST <? List.length names
  then firstn MAX_IMAGES_PER_POST
              (filter hasSig names ++ filter (fun n => negb (hasSig n)) names)
  else names.

(** C2, counterexample. Five images, two of them [sig_] ones: the
    specification's selection starts with the two [sig_] images, the
    Publisher uploads the first four in the order given. *)
Lemma uploadImages_ignores_sig_priority :
  specPrioritySelect fiveNames
  = ["b_sig_tornado"; "d_sig_tornado"; "a_tornado"; "c_tornado"] /\
  exists ups a',
    uploadImages allOk fiveImages fiveNames idle = (Ok ups, a') /\
    map altText ups = ["a_tornado"; "b_sig_tornado"; "c_tornado"; "d_sig_tornado"] /\
    blobStore a' = [png Byte.x01; png Byte.x02; png Byte.x03; png Byte.x04] /\
    map altText ups <> specPrioritySelect fiveNames.
Proof.
  split; [reflexivity|].
  eexists. eexists. split; [reflexivity|].
  split; [reflexivity|]. split; [reflexivity|]. discriminate.
Qed.

(** The four images of the specification's own example are uploaded in
    the order given as well. *)
Example uploadImages_four_in_order :
  exists ups a',
    uploadImages allOk (firstn 4 fiveImages) (firstn 4 fiveNames) idle
    = (Ok ups, a') /\
    map altText ups = ["a_tornado"; "b_sig_tornado"; "c_tornado"; "d_sig_tornado"].
Proof. eexists. eexists. split; reflexivity. Qed.

(** A platform that stores the first blob and refuses every later one. *)
Definition secondUploadFails : AgentApi :=
  mkAgentApi (fun _ => None)
             (fun n => match n with 0 => None | _ => Some "boom" end)
             (fun _ => None).

(** C3, counterexample. Two images, the second of which exhausts its
    three attempts: one image is uploaded, so the uploaded set is not
    empty, and yet the publish fails and nothing is posted. *)
Lemma exhausted_upload_is_fatal :
  exists a',
    notifyBluesky secondUploadFails "text" [png Byte.x01; png Byte.x02]
                  ["one"; "two"] idle
    = (Throw "Failed to upload image 2 after 3 attempts: boom", a') /\
    blobStore a' = [png Byte.x01] /\
    uploadCalls a' = 4 /\
    feed a' = [].
Proof. eexists. repeat split; reflexivity. Qed.

(** An empty batch is not a failure: the post is created without
    images. *)
Example empty_batch_is_posted :
  exists a',
    notifyBluesky allOk "text" [] [] idle = (Ok tt, a') /\
    feed a' = [mkPostRecord "text" None].
Proof. eexists. split; reflexivity. Qed.

(** Witness of C3 (amended): the same run, through the theorem. *)
Lemma upload_exhaustion_fails_publish_witness :
  exists message a',
    notifyBluesky secondUploadFails "text" [png Byte.x01; png Byte.x02]
                  ["one"; "two"] idle = (Throw message, a') /\
    feed a' = feed idle /\
    blobStore a' = (blobStore idle ++ [png Byte.x01])%list.
Proof.
  eapply (upload_exhaustion_fails_publish secondUploadFails "text"
            [png Byte.x01; png Byte.x02] ["one"; "two"] ["one"; "two"]
            [png Byte.x01] [] (png Byte.x02) idle).
  - reflexivity.
  - reflexivity.
  - reflexivity.
  - reflexivity.
  - intros k _. destruct k; discriminate.
Defined.

(** Witness of C2 (amended): five images on a platform that accepts
    everything. *)
Lemma uploadImages_keeps_first_four_witness :
  exists ups a',
    uploadImages allOk fiveImages fiveNames idle = (Ok ups, a') /\
    blobStore a' = (blobStore idle ++ firstn MAX_IMAGES_PER_POST fiveImages)%list /\
    map image ups = [0; 1; 2; 3].
Proof.
  eexists. eexists. split; [reflexivity|].
  destruct (uploadImages_keeps_first_four allOk fiveImages fiveNames idle
              _ _ eq_refl) as (Hb & Hi & _).
  split; [exact Hb|exact Hi].
Defined.

(** A platform whose every attempt to post fails, the third one on the
    rate limit. *)
Definition rateLimitedLast : AgentApi :=
  mkAgentApi (fun _ => None) (fun _ => None)
             (fun n => match n with
                       | 0 | 1 => Some "upstream failure"
                       | _ => Some "RateLimitExceeded"
                       end).

(** C4, at the failing input. Three attempts to post, all failed, the
    last on the rate limit: [notifyBluesky] returns normally, as after a
    success, and no post exists. *)
Theorem notifyBluesky_silent_after_rate_limit :
  let (r, a') := notifyBluesky rateLimitedLast "text" [png Byte.x01] ["alt"] idle in
  r = Ok tt /\ feed a' = [] /\ postCalls a' = MAX_RETRIES /\
  delays a' = [25000; 5000; 5000]%Z.
Proof. cbn. repeat split; reflexivity. Qed.

(** The sibling loops do throw once the attempts are used up. *)
Example login_throws_when_exhausted :
  fst (login (mkAgentApi (fun _ => Some "denied") (fun _ => None) (fun _ => None))
             idle)
  = Throw "Failed to log into Bluesky after 3 attempts: denied".
Proof. reflexivity. Qed.

Example createPost_throws_when_exhausted :
  fst (createPost (mkAgentApi (fun _ => None) (fun _ => None)
                              (fun _ => Some "upstream failure"))
                  "text" [] idle)
  = Throw "Failed to create post after 3 attempts: upstream failure".
Proof. reflexivity. Qed.

(** A text of 301 characters. *)
Definition longText : string :=
  String.concat "" (repeat "0123456" 43).

(** Witness of C8: a post with a text of 301 characters. *)
Lemma createPost_text_truncation_witness :
  let p := makePostRecord longText [] in
  String.length longText = 301 /\
  String.length (text p) = MAX_POST_LENGTH /\ endsWith "..." (text p) = true.
Proof.
  split; [reflexivity|].
  destruct (createPost_text_truncation allOk longText [] idle
              _ _ (makePostRecord longText []) eq_refl eq_refl) as [_ H].
  apply H. vm_compute. repeat constructor.
Defined.

End NotifierExamples.

(* ================================================================== *)
(** * The Directory Walker, the Image Selector and the Run Locator *)
(* ================================================================== *)

Module ScraperFacts.
Import JsString Regex Scraper StringFacts RegexFacts PatternFacts.

Section Web.
Variable resolveUrl : string -> string -> option string.
Variable pages : string -> option page.
Variable config : AppConfig.

(** ** The Directory Walker *)

(** The token and href of a link the walker takes into account: a
    non-empty href that the pattern matches with a non-empty capture. *)
Definition tokenOf (patternRegex : RegExp) (element : anchor)
  : option (string * string) :=
  match href element with
  | Some h =>
      if truthy h then
        match capture1 patternRegex h with
        | Some dirValue => Some (dirValue, h)
        | None => None
        end
      else None
  | None => None
  end.

Fixpoint keepSome {A B} (f : A -> option B) (l : list A) : list B :=
  match l with
  | [] => []
  | x :: l' =>
      match f x with
      | Some y => y :: keepSome f l'
      | None => keepSome f l'
      end
  end.

(** The candidates of a listing, in document order: the links of class
    [directory] that match, as (token, href). *)
Definition candidates (patternRegex : RegExp) (html : page)
  : list (string * string) :=
  keepSome (tokenOf patternRegex) (filter isDirectoryLink html).

(** The walker's update on a candidate. *)
Definition candidateStep (pageUrl : string)
           (acc : option string * option string) (c : string * string)
  : option string * option string :=
  if match fst acc with
     | None => true
     | Some v => gtb (fst c) v
     end
  then (Some (fst c),
        match resolveUrl (snd c) pageUrl with
        | Some u => Some u
        | None => snd acc
        end)
  else acc.

Lemma directoryStep_candidate (pageUrl : string) (p : RegExp)
      (acc : option string * option string) (element : anchor) :
  directoryStep resolveUrl pageUrl p acc element
  = match tokenOf p element with
    | Some c => candidateStep pageUrl acc c
    | None => acc
    end.
Proof.
  unfold directoryStep, tokenOf, candidateStep.
  destruct acc as [v u]. destruct (href element) as [h|]; [|reflexivity].
  destruct (truthy h); [|reflexivity].
  destruct (capture1 p h) as [t|]; reflexivity.
Qed.

Lemma fold_directoryStep (pageUrl : string) (p : RegExp) (l : list anchor) :
  forall acc,
    fold_left (directoryStep resolveUrl pageUrl p) l acc
    = fold_left (candidateStep pageUrl) (keepSome (tokenOf p) l) acc.
Proof.
  induction l as [|a l IH]; intros acc; [reflexivity|].
  cbn [fold_left keepSome]. rewrite directoryStep_candidate.
  destruct (tokenOf p a) as [c|]; apply IH.
Qed.

(** The invariant of the walk: the value kept is the first greatest
    token seen so far and the URL kept is its href, resolved. *)
Lemma fold_candidateStep (pageUrl : string) (l : list (string * string)) :
  forall (before mid : list (string * string)) (t h u : string),
    (forall c, In c before -> ltb (fst c) t = true) ->
    (forall c, In c mid -> leb (fst c) t = true) ->
    resolveUrl h pageUrl = Some u ->
    (forall c, In c l -> resolveUrl (snd c) pageUrl <> None) ->
    exists before' t' h' after' u',
      (before ++ (t, h) :: mid ++ l = before' ++ (t', h') :: after')%list /\
      (forall c, In c before' -> ltb (fst c) t' = true) /\
      (forall c, In c after' -> leb (fst c) t' = true) /\
      resolveUrl h' pageUrl = Some u' /\
      fold_left (candidateStep pageUrl) l (Some t, Some u) = (Some t', Some u').
Proof.
  induction l as [|[t1 h1] l IH]; intros before mid t h u Hb Hm Hu Hres.
  - exists before, t, h, mid, u. rewrite List.app_nil_r. auto.
  - cbn [fold_left]. unfold candidateStep at 2. cbn [fst snd]. unfold gtb.
    destruct (ltb t t1) eqn:Hlt.
    + destruct (resolveUrl h1 pageUrl) as [u1|] eqn:Hu1;
        [|now elim (Hres (t1, h1) (or_introl eq_refl))].
      destruct (IH (before ++ (t, h) :: mid)%list [] t1 h1 u1)
        as (b' & t' & h' & a' & u' & Heq & Hb' & Ha' & Hu' & Hfold).
      * intros c Hc. apply List.in_app_or in Hc.
        destruct Hc as [Hc|[<-|Hc]].
        -- eapply ltb_trans; [apply Hb, Hc|exact Hlt].
        -- exact Hlt.
        -- eapply leb_ltb_trans; [apply Hm, Hc|exact Hlt].
      * intros c [].
      * exact Hu1.
      * intros c Hc. apply Hres. now right.
      * exists b', t', h', a', u'. repeat split; auto.
        rewrite <- Heq. rewrite <- !List.app_assoc. reflexivity.
    + destruct (IH before (mid ++ [(t1, h1)])%list t h u)
        as (b' & t' & h' & a' & u' & Heq & Hb' & Ha' & Hu' & Hfold); auto.
      * intros c Hc. apply List.in_app_or in Hc.
        destruct Hc as [Hc|[<-|[]]]; [now apply Hm|].
        unfold leb. cbn [fst]. now rewrite Hlt.
      * intros c Hc. apply Hres. now right.
      * exists b', t', h', a', u'. repeat split; auto.
        rewrite <- Heq. rewrite <- !List.app_assoc. reflexivity.
Qed.

(** ** C6, as the code has it *)

(** C6 (amended). When at least one link of class [directory] matches
    the pattern with a non-empty token, and the hrefs of the matching
    links resolve, the Directory Walker returns the href, resolved
    against the listing URL, of the first candidate whose token is the
    greatest under string comparison: the tokens before it are strictly
    smaller, those after it are not greater. *)
Theorem findLatestDirectoryUrl_first_greatest
        (pageUrl : string) (patternRegex : RegExp) (html : page) :
  pages pageUrl = Some html ->
  candidates patternRegex html <> [] ->
  (forall c, In c (candidates patternRegex html) ->
             resolveUrl (snd c) pageUrl <> None) ->
  exists before t h after u,
    candidates patternRegex html = (before ++ (t, h) :: after)%list /\
    (forall c, In c before -> ltb (fst c) t = true) /\
    (forall c, In c after -> leb (fst c) t = true) /\
    resolveUrl h pageUrl = Some u /\
    findLatestDirectoryUrl resolveUrl pages pageUrl patternRegex = Ok (Some u).
Proof.
  intros Hpage Hne Hres.
  unfold findLatestDirectoryUrl, fetchHtml. rewrite Hpage.
  rewrite fold_directoryStep. fold (candidates patternRegex html).
  destruct (candidates patternRegex html) as [|[t0 h0] l]; [now elim Hne|].
  cbn [fold_left]. unfold candidateStep at 2. cbn [fst snd].
  destruct (resolveUrl h0 pageUrl) as [u0|] eqn:Hu0;
    [|now elim (Hres (t0, h0) (or_introl eq_refl))].
  destruct (fold_candidateStep pageUrl l [] [] t0 h0 u0)
    as (b' & t' & h' & a' & u' & Heq & Hb' & Ha' & Hu' & Hfold).
  - intros c [].
  - intros c [].
  - exact Hu0.
  - intros c Hc. apply Hres. now right.
  - exists b', t', h', a', u'. rewrite Hfold. cbn [snd].
    repeat split; auto.
Qed.

(** A listing without candidates gives no directory. *)
Lemma findLatestDirectoryUrl_none
      (pageUrl : string) (patternRegex : RegExp) (html : page) :
  pages pageUrl = Some html ->
  candidates patternRegex html = [] ->
  findLatestDirectoryUrl resolveUrl pages pageUrl patternRegex = Ok None.
Proof.
  intros Hpage Hc. unfold findLatestDirectoryUrl, fetchHtml. rewrite Hpage.
  rewrite fold_directoryStep. fold (candidates patternRegex html).
  now rewrite Hc.
Qed.

(** ** The Image Selector *)

(** What one link adds to the result. *)
Definition contribution (runDirUrl : string) (element : anchor) : list string :=
  match href element with
  | Some h =>
      if isRelevantHref h then
        match resolveUrl h runDirUrl with
        | Some fullUrl => [fullUrl]
        | None => []
        end
      else []
  | None => []
  end.

Lemma fold_tornadoStep (runDirUrl : string) (html : page) :
  forall acc,
    fold_left (tornadoStep resolveUrl runDirUrl) html acc
    = (acc ++ flat_map (contribution runDirUrl) html)%list.
Proof.
  induction html as [|a html IH]; intros acc; cbn [fold_left flat_map].
  - now rewrite List.app_nil_r.
  - rewrite IH. unfold tornadoStep, contribution.
    destruct (href a) as [h|]; [|reflexivity].
    destruct (isRelevantHref h); [|reflexivity].
    destruct (resolveUrl h runDirUrl); [|reflexivity].
    now rewrite <- List.app_assoc.
Qed.

Lemma findTornadoImageUrls_flat_map (runDirUrl : string) (html : page) :
  pages runDirUrl = Some html ->
  findTornadoImageUrls resolveUrl pages runDirUrl
  = Ok (flat_map (contribution runDirUrl) html).
Proof.
  intros Hpage. unfold findTornadoImageUrls, fetchHtml. rewrite Hpage.
  now rewrite fold_tornadoStep.
Qed.

Lemma isRelevantHref_inv (h : string) :
  isRelevantHref h = true ->
  test TORNADO_IMG_REGEX h = true /\
  includes "abs_calib" h = false /\ includes "life_risk" h = false.
Proof.
  unfold isRelevantHref. intros H.
  apply Bool.andb_true_iff in H. destruct H as [H Hl].
  apply Bool.andb_true_iff in H. destruct H as [H Hc].
  apply Bool.andb_true_iff in H. destruct H as [_ Ht].
  apply Bool.negb_true_iff in Hl, Hc. auto.
Qed.

Lemma isRelevantHref_excluded (h : string) :
  includes "abs_calib" h || includes "life_risk" h = true ->
  isRelevantHref h = false.
Proof.
  unfold isRelevantHref. intros H. apply Bool.orb_true_iff in H.
  destruct H as [-> | ->]; cbn [negb];
    rewrite ?Bool.andb_false_r; reflexivity.
Qed.
End Web.

(** ** C7 *)

(** C7. Every URL the Image Selector returns comes from a link of the
    listing whose href matches the tornado image pattern and contains
    neither [abs_calib] nor [life_risk]; and a link whose href contains one
    of the two is left out whatever else it matches: the result is the one
    of the listing without that link. *)
Theorem findTornadoImageUrls_selects
        (resolveUrl : string -> string -> option string)
        (pages : string -> option page)
        (runDirUrl : string) (html : page) :
  pages runDirUrl = Some html ->
  exists urls,
    findTornadoImageUrls resolveUrl pages runDirUrl = Ok urls /\
    (forall u, In u urls ->
       exists element h,
         In element html /\ href element = Some h /\
         test TORNADO_IMG_REGEX h = true /\
         includes "abs_calib" h = false /\
         includes "life_risk" h = false /\
         resolveUrl h runDirUrl = Some u) /\
    (forall l1 element l2 h pages',
       html = (l1 ++ element :: l2)%list ->
       href element = Some h ->
       includes "abs_calib" h || includes "life_risk" h = true ->
       pages' runDirUrl = Some (l1 ++ l2)%list ->
       findTornadoImageUrls resolveUrl pages' runDirUrl = Ok urls).
Proof.
  intros Hpage. exists (flat_map (contribution resolveUrl runDirUrl) html).
  split; [now apply findTornadoImageUrls_flat_map|]. split.
  - intros u Hu. apply List.in_flat_map in Hu.
    destruct Hu as (element & Hin & Hu). unfold contribution in Hu.
    destruct (href element) as [h|] eqn:Hh; [|destruct Hu].
    destruct (isRelevantHref h) eqn:Hrel; [|destruct Hu].
    destruct (resolveUrl h runDirUrl) as [full|] eqn:Hres; [|destruct Hu].
    destruct Hu as [<-|[]].
    apply isRelevantHref_inv in Hrel. destruct Hrel as (Ht & Hc & Hl).
    exists element, h. auto 7.
  - intros l1 element l2 h pages' -> Hh Hex Hpage'.
    rewrite (findTornadoImageUrls_flat_map resolveUrl pages' runDirUrl _ Hpage').
    assert (Hnone : contribution resolveUrl runDirUrl element = []).
    { unfold contribution. now rewrite Hh, (isRelevantHref_excluded h Hex). }
    rewrite !List.flat_map_app. cbn [flat_map]. now rewrite Hnone.
Qed.

(** A link that matches, is not excluded and resolves is in the result. *)
Lemma findTornadoImageUrls_complete
      (resolveUrl : string -> string -> option string)
      (pages : string -> option page)
      (runDirUrl : string) (html : page) (element : anchor) (h u : string) :
  pages runDirUrl = Some html ->
  In element html -> href element = Some h -> h <> "" ->
  test TORNADO_IMG_REGEX h = true ->
  includes "abs_calib" h = false -> includes "life_risk" h = false ->
  resolveUrl h runDirUrl = Some u ->
  exists urls,
    findTornadoImageUrls resolveUrl pages runDirUrl = Ok urls /\ In u urls.
Proof.
  intros Hpage Hin Hh Hne Ht Hc Hl Hres.
  exists (flat_map (contribution resolveUrl runDirUrl) html).
  split; [now apply findTornadoImageUrls_flat_map|].
  apply List.in_flat_map. exists element. split; [exact Hin|].
  unfold contribution, isRelevantHref, truthy. rewrite Hh, Ht, Hc, Hl, Hres.
  destruct (String.eqb_spec h ""); [now elim Hne|]. now left.
Qed.

(** ** C5 *)

(** The stages of a successful location. *)
Lemma findLatestRunInfo_stages
      (resolveUrl : string -> string -> option string)
      (pages : string -> option page) (config : AppConfig)
      (info : RunInfo) :
  findLatestRunInfo resolveUrl pages config = Some info ->
  exists latestYearMonthUrl latestDayUrl date timeCode,
    findLatestDirectoryUrl resolveUrl pages (monitorUrl config) YEAR_MONTH_REGEX
    = Ok (Some latestYearMonthUrl) /\
    findLatestDirectoryUrl resolveUrl pages latestYearMonthUrl DAY_REGEX
    = Ok (Some latestDayUrl) /\
    findLatestDirectoryUrl resolveUrl pages latestDayUrl RUN_REGEX
    = Ok (Some (runUrl info)) /\
    capture1 DAY_REGEX latestDayUrl = Some date /\
    capture1 RUN_REGEX (runUrl info) = Some timeCode /\
    runId info = (date ++ "_" ++ timeCode)%string.
Proof.
  unfold findLatestRunInfo, MONITOR_URL, extractToken.
  destruct (findLatestDirectoryUrl resolveUrl pages (monitorUrl config)
              YEAR_MONTH_REGEX) as [[ym|]|] eqn:E1; try discriminate.
  destruct (negb (truthy ym)); [discriminate|].
  destruct (capture1 YEAR_MONTH_TAIL_REGEX ym); [|discriminate].
  destruct (findLatestDirectoryUrl resolveUrl pages ym DAY_REGEX)
    as [[day|]|] eqn:E2; try discriminate.
  destruct (negb (truthy day)); [discriminate|].
  destruct (capture1 DAY_REGEX day) as [date|] eqn:Ed; [|discriminate].
  destruct (findLatestDirectoryUrl resolveUrl pages day RUN_REGEX)
    as [[run|]|] eqn:E3; try discriminate.
  destruct (negb (truthy run)); [discriminate|].
  destruct (capture1 RUN_REGEX run) as [timeCode|] eqn:Et; [|discriminate].
  intros H. inversion H. subst info. cbn [runId runUrl].
  exists ym, day, date, timeCode. auto 7.
Qed.

(** The canonical form of a run identifier: eight digits, an underscore,
    [t], two digits and [z]. *)
Definition canonicalRunId (r : string) : Prop :=
  exists date d1 d2,
    r = (date ++ "_" ++ String "t" (String d1 (String d2 "z")))%string /\
    String.length date = 8 /\ forallChars isDigit date = true /\
    isDigit d1 = true /\ isDigit d2 = true.

(** C5. When the Run Locator succeeds, the identifier is the date token,
    an underscore and the time token; the date token is what the day
    pattern captures in the URL found at the day stage, eight digits, and
    the time token what the run pattern captures in the URL found at the
    run stage, [t], two digits and [z]. *)
Theorem findLatestRunInfo_runId
        (resolveUrl : string -> string -> option string)
        (pages : string -> option page) (config : AppConfig)
        (info : RunInfo) :
  findLatestRunInfo resolveUrl pages config = Some info ->
  exists latestYearMonthUrl latestDayUrl date timeCode,
    findLatestDirectoryUrl resolveUrl pages latestYearMonthUrl DAY_REGEX
    = Ok (Some latestDayUrl) /\
    findLatestDirectoryUrl resolveUrl pages latestDayUrl RUN_REGEX
    = Ok (Some (runUrl info)) /\
    capture1 DAY_REGEX latestDayUrl = Some date /\
    capture1 RUN_REGEX (runUrl info) = Some timeCode /\
    runId info = (date ++ "_" ++ timeCode)%string /\
    canonicalRunId (runId info).
Proof.
  intros H. apply findLatestRunInfo_stages in H.
  destruct H as (ym & day & date & timeCode & _ & Hday & Hrun & Hd & Ht & Hid).
  exists ym, day, date, timeCode. repeat split; auto.
  apply DAY_REGEX_capture in Hd. destruct Hd as (_ & _ & Hlen & Hdigits).
  apply RUN_REGEX_capture in Ht. destruct Ht as (_ & d1 & d2 & _ & -> & H1 & H2).
  exists date, d1, d2. rewrite Hid. auto.
Qed.

Lemma digit_not_space (c : ascii) : isDigit c = true -> isWhiteSpace c = false.
Proof.
  unfold isDigit, isWhiteSpace. intros H.
  apply Bool.andb_true_iff in H. destruct H as [H1 H2].
  apply Nat.leb_le in H1, H2.
  destruct (Nat.leb_spec 9 (code c)), (Nat.leb_spec (code c) 13),
    (Nat.eqb_spec (code c) 32), (Nat.eqb_spec (code c) 160);
    cbn; try reflexivity; lia.
Qed.

(** A canonical run identifier has no white space around it. *)
Lemma canonicalRunId_trimmed (r : string) :
  canonicalRunId r -> trim r = r /\ r <> "".
Proof.
  intros (date & d1 & d2 & -> & Hlen & Hdigits & _ & _).
  destruct date as [|c1 [|c2 [|c3 [|c4 [|c5 [|c6 [|c7 [|c8 [|c9 rest]]]]]]]]];
    try discriminate.
  cbn [forallChars] in Hdigits. apply Bool.andb_true_iff in Hdigits.
  destruct Hdigits as [Hc1 _]. apply digit_not_space in Hc1.
  split; [|discriminate].
  unfold trim. cbn [String.append trimStart]. rewrite Hc1.
  cbn [trimEnd]. reflexivity.
Qed.

(** The identifiers the Run Locator produces are canonical. *)
Lemma findLatestRunInfo_canonical
      (resolveUrl : string -> string -> option string)
      (pages : string -> option page) (config : AppConfig) (info : RunInfo) :
  findLatestRunInfo resolveUrl pages config = Some info ->
  canonicalRunId (runId info).
Proof.
  intros H. apply findLatestRunInfo_stages in H.
  destruct H as (ym & day & date & timeCode & _ & _ & _ & Hd & Ht & ->).
  apply DAY_REGEX_capture in Hd. destruct Hd as (_ & _ & Hlen & Hdigits).
  apply RUN_REGEX_capture in Ht. destruct Ht as (_ & d1 & d2 & _ & -> & H1 & H2).
  exists date, d1, d2. auto.
Qed.

End ScraperFacts.

(* ================================================================== *)
(** * The Orchestrator *)
(* ================================================================== *)

Module IndexFacts.
Import JsString Scraper StateManager Index StateManagerFacts.

Ltac world_simpl :=
  cbn [fs agent isProcessing logged setFs setAgent setProcessing addLog
       fst snd] in *.

Section Monitor.
Variable env : Env.

Local Abbreviation read :=
  (StateManager.readLastProcessedRunId
     (faults env) (stateFilePath (config env)) (stateDir env)).
Local Abbreviation write :=
  (StateManager.writeLastProcessedRunId
     (faults env) (stateFilePath (config env)) (stateDir env)).

(** Handling one image never throws, whatever the Publisher does, and
    touches neither the disk nor the lock. *)
Lemma processImage_frame (latestRun : RunInfo) (imageUrl : string) (w : World) :
  exists w',
    processImage env latestRun imageUrl w = (Ok tt, w') /\
    fs w' = fs w /\ isProcessing w' = isProcessing w.
Proof.
  unfold processImage, log, notifyBluesky, onAgent. unfold_monad.
  world_simpl.
  destruct (fetchImages env [imageUrl]) as [|imageBuffer rest].
  - eexists. split; [reflexivity|]. world_simpl. auto.
  - world_simpl.
    destruct (BlueskyNotifier.notifyBluesky _ _ _ _ _) as [[[]|message] a'];
      eexists; (split; [reflexivity|]); world_simpl; auto.
Qed.

Lemma forEach_processImage_frame (latestRun : RunInfo) (imageUrls : list string) :
  forall w,
    exists w',
      Monad.forEach imageUrls (processImage env latestRun) w = (Ok tt, w') /\
      fs w' = fs w /\ isProcessing w' = isProcessing w.
Proof.
  induction imageUrls as [|imageUrl rest IH]; intros w.
  - exists w. cbn. auto.
  - cbn [Monad.forEach]. unfold Monad.bind.
    destruct (processImage_frame latestRun imageUrl w) as (w1 & -> & Hf & Hp).
    destruct (IH w1) as (w2 & -> & Hf' & Hp').
    exists w2. rewrite Hf', Hp'. auto.
Qed.

(** Each image goes into a post of its own. *)
Lemma processImage_posts (latestRun : RunInfo) (imageUrl : string)
      (w w' : World) (r : result unit) :
  processImage env latestRun imageUrl w = (r, w') ->
  Forall NotifierFacts.singleImage (BlueskyNotifier.feed (agent w)) ->
  Forall NotifierFacts.singleImage (BlueskyNotifier.feed (agent w')).
Proof.
  unfold processImage, log, notifyBluesky, onAgent. unfold_monad.
  world_simpl.
  destruct (fetchImages env [imageUrl]) as [|imageBuffer rest].
  - intros H. inversion H. subst. world_simpl. auto.
  - world_simpl.
    destruct (BlueskyNotifier.notifyBluesky _ _ _ _ _) as [[[]|message] a']
      eqn:Hn;
      apply NotifierFacts.notifyBluesky_single_feed in Hn;
      intros H; inversion H; subst; world_simpl; intros Hall;
      destruct Hn as [->|(p & -> & Hp)]; auto.
Qed.

Lemma forEach_processImage_posts (latestRun : RunInfo) (imageUrls : list string) :
  forall (w w' : World) (r : result unit),
    Monad.forEach imageUrls (processImage env latestRun) w = (r, w') ->
    Forall NotifierFacts.singleImage (BlueskyNotifier.feed (agent w)) ->
    Forall NotifierFacts.singleImage (BlueskyNotifier.feed (agent w')).
Proof.
  induction imageUrls as [|imageUrl rest IH]; intros w w' r.
  - cbn. intros H. inversion H. subst. auto.
  - cbn [Monad.forEach]. unfold Monad.bind.
    destruct (processImage env latestRun imageUrl w) as [[[]|e] w1] eqn:H1.
    + intros H Hall. eapply IH; [exact H|].
      eapply processImage_posts; eassumption.
    + intros H Hall. inversion H. subst.
      eapply processImage_posts; eassumption.
Qed.

Lemma sameRun_spec (runId : string) (stored : option string) :
  sameRun runId stored = true <-> stored = Some runId.
Proof.
  unfold sameRun. destruct stored as [id|]; [|split; discriminate].
  destruct (String.eqb_spec runId id) as [->|Hne]; split; auto;
    try discriminate.
  intros H. inversion H. now elim Hne.
Qed.

(** The identifier of a located run, once written, is read back as it
    is. *)
Lemma located_run_round_trip (latestRun : RunInfo) (s s' : Fs) :
  findLatestRunInfo env = Some latestRun ->
  write (runId latestRun) s = (Ok tt, s') ->
  readFault (faults env) = false ->
  read s' = (Ok (Some (runId latestRun)), s').
Proof.
  intros Hrun Hw Hr.
  apply ScraperFacts.findLatestRunInfo_canonical,
    ScraperFacts.canonicalRunId_trimmed in Hrun.
  destruct Hrun as [Htrim Hne].
  rewrite (read_after_write _ _ _ _ _ _ Hw Hr).
  unfold parsed. now rewrite Htrim, (truthy_nonempty _ Hne).
Qed.

(** ** Cycles *)

(** A cycle whose latest run is the stored one. *)
Lemma cycle_same_run (w : World) (stored : option string) (f1 : Fs) :
  read (fs w) = (Ok stored, f1) ->
  option_map runId (findLatestRunInfo env) = stored ->
  exists w',
    checkNadocast env w = (Ok tt, w') /\
    fs w' = fs w /\ agent w' = agent w.
Proof.
  intros Hread Hsame.
  unfold checkNadocast. unfold Monad.bind at 1. unfold Monad.get.
  destruct (isProcessing w) eqn:Hlock.
  - eexists. split; [reflexivity|]. world_simpl. auto.
  - unfold checkBody.
    destruct (findLatestRunInfo env) as [latestRun|]; cbn [option_map] in Hsame.
    + subst stored. apply read_some_inv in Hread as Hinv.
      destruct Hinv as (-> & _).
      unfold readLastProcessedRunId, onFs, log, release. unfold_monad.
      world_simpl. rewrite Hread. world_simpl.
      rewrite (proj2 (sameRun_spec _ _) eq_refl).
      eexists. split; [reflexivity|]. world_simpl. auto.
    + unfold log, release. unfold_monad. world_simpl.
      eexists. split; [reflexivity|]. world_simpl. auto.
Qed.

(** A cycle that finds a run other than the stored one and obtains its
    image listing. *)
Lemma cycle_new_run
      (w : World) (latestRun : RunInfo) (stored : option string) (f1 : Fs)
      (imageUrls : list string) :
  isProcessing w = false ->
  findLatestRunInfo env = Some latestRun ->
  read (fs w) = (Ok stored, f1) ->
  stored <> Some (runId latestRun) ->
  findTornadoImageUrls env (runUrl latestRun) = Ok imageUrls ->
  writeFault (faults env) = false ->
  exists w',
    checkNadocast env w = (Ok tt, w') /\
    fs w' = mkFs (File (trim (runId latestRun)))
                 (trim (runId latestRun) :: written (fs w)) /\
    isProcessing w' = false.
Proof.
  intros Hlock Hlatest Hread Hnew Hurls Hwrite.
  pose proof (read_ok_inv _ _ _ _ _ _ Hread)
    as (Haccess & _ & Hdir & Hwritten & _).
  assert (Hw : write (runId latestRun) f1
               = (Ok tt, mkFs (File (trim (runId latestRun)))
                              (trim (runId latestRun) :: written f1))).
  { apply write_ok; auto. intros Hd. now elim Hdir. }
  assert (Hdiff : sameRun (runId latestRun) stored = false).
  { destruct (sameRun (runId latestRun) stored) eqn:E; [|reflexivity].
    apply sameRun_spec in E. now elim Hnew. }
  unfold checkNadocast. unfold Monad.bind at 1. unfold Monad.get.
  rewrite Hlock. unfold checkBody. rewrite Hlatest.
  unfold readLastProcessedRunId, writeLastProcessedRunId, onFs, log, release.
  unfold_monad. world_simpl. rewrite Hread. world_simpl.
  rewrite Hdiff, Hurls.
  destruct (List.length imageUrls =? 0).
  - world_simpl. rewrite Hw. world_simpl.
    eexists. split; [reflexivity|]. world_simpl. rewrite Hwritten. auto.
  - world_simpl.
    match goal with
    | |- context [Monad.forEach imageUrls ?body ?w0] =>
        destruct (forEach_processImage_frame latestRun imageUrls w0)
          as (w1 & Hloop & Hfs & _)
    end.
    unfold Monad.bind in Hloop. rewrite Hloop. world_simpl.
    rewrite Hfs. world_simpl. rewrite Hw. world_simpl.
    eexists. split; [reflexivity|]. world_simpl. rewrite Hwritten. auto.
Qed.

(** X1. Once a cycle has recorded a run, the next cycle on the same
    site does nothing: the run is not taken up again, whatever the
    Publisher did with it. *)
Lemma run_processed_once
      (w : World) (latestRun : RunInfo) (stored : option string) (f1 : Fs)
      (imageUrls : list string) :
  isProcessing w = false ->
  findLatestRunInfo env = Some latestRun ->
  read (fs w) = (Ok stored, f1) ->
  stored <> Some (runId latestRun) ->
  findTornadoImageUrls env (runUrl latestRun) = Ok imageUrls ->
  writeFault (faults env) = false ->
  exists w1 w2,
    checkNadocast env w = (Ok tt, w1) /\
    checkNadocast env w1 = (Ok tt, w2) /\
    fs w2 = fs w1 /\ agent w2 = agent w1.
Proof.
  intros Hlock Hlatest Hread Hnew Hurls Hwrite.
  destruct (cycle_new_run w latestRun stored f1 imageUrls)
    as (w1 & Hc1 & Hfs1 & _); auto.
  pose proof (read_ok_inv _ _ _ _ _ _ Hread) as (Haccess & Hrf & _).
  destruct (ScraperFacts.canonicalRunId_trimmed _
              (ScraperFacts.findLatestRunInfo_canonical _ _ _ _ Hlatest))
    as [Htrim Hne].
  assert (Hparsed : parsed (runId latestRun) = Some (runId latestRun)).
  { unfold parsed. now rewrite Htrim, (truthy_nonempty _ Hne). }
  destruct (cycle_same_run w1 (Some (runId latestRun)) (fs w1))
    as (w2 & Hc2 & Hfs2 & Hag2).
  - rewrite Hfs1, Htrim, <- Hparsed. now apply read_file.
  - now rewrite Hlatest.
  - exists w1, w2. auto.
Qed.

(** ** C9 *)

(** C9. A cycle in which the latest run identifier is the stored one
    (or in which there is neither) ends normally with the state file as
    it was, nothing having gone through [fs.writeFile], and with the agent
    untouched.  The stored identifier is what a read of the state
    answers on the disk the cycle starts with. *)
Theorem checkNadocast_no_op (w : World) (stored : option string) (f1 : Fs) :
  read (fs w) = (Ok stored, f1) ->
  option_map runId (findLatestRunInfo env) = stored ->
  exists w',
    checkNadocast env w = (Ok tt, w') /\
    disk (fs w') = disk (fs w) /\
    written (fs w') = written (fs w) /\
    agent w' = agent w.
Proof.
  intros Hread Hsame.
  destruct (cycle_same_run w stored f1 Hread Hsame) as (w' & Hc & Hfs & Hag).
  exists w'. rewrite Hfs. auto.
Qed.

(** ** C1, as the code has it *)

(** C1 (amended). In a cycle that finds a run other than the stored
    one and obtains its image listing, the Orchestrator writes the new
    run identifier to the state file, be the listing empty or not and
    whatever the outcome of each publish, success or failure; the cycle
    ends normally with the lock released. *)
Theorem checkNadocast_writes_new_run
        (w : World) (latestRun : RunInfo) (stored : option string) (f1 : Fs)
        (imageUrls : list string) :
  isProcessing w = false ->
  findLatestRunInfo env = Some latestRun ->
  read (fs w) = (Ok stored, f1) ->
  stored <> Some (runId latestRun) ->
  findTornadoImageUrls env (runUrl latestRun) = Ok imageUrls ->
  writeFault (faults env) = false ->
  exists w',
    checkNadocast env w = (Ok tt, w') /\
    disk (fs w') = File (trim (runId latestRun)) /\
    written (fs w') = trim (runId latestRun) :: written (fs w) /\
    isProcessing w' = false.
Proof.
  intros Hlock Hlatest Hread Hnew Hurls Hwrite.
  destruct (cycle_new_run w latestRun stored f1 imageUrls)
    as (w' & Hc & Hfs & Hrel); auto.
  exists w'. rewrite Hfs. cbn [disk written]. auto.
Qed.

(** ** One post per image *)

(** X4. The Orchestrator hands the Publisher one image per call: every
    post a cycle creates embeds exactly one image, so the cap on the
    images of a post never applies. *)
Lemma checkNadocast_posts_one_image_each (w w' : World) (r : result unit) :
  checkNadocast env w = (r, w') ->
  Forall NotifierFacts.singleImage (BlueskyNotifier.feed (agent w)) ->
  Forall NotifierFacts.singleImage (BlueskyNotifier.feed (agent w')).
Proof.
  unfold checkNadocast. unfold Monad.bind at 1. unfold Monad.get.
  destruct (isProcessing w).
  { unfold log. unfold_monad. intros H. inversion H. subst. world_simpl. auto. }
  unfold checkBody.
  destruct (findLatestRunInfo env) as [latestRun|].
  2:{ unfold log, release. unfold_monad. intros H. inversion H. subst.
      world_simpl. auto. }
  unfold readLastProcessedRunId, writeLastProcessedRunId, onFs, log, release.
  unfold_monad. world_simpl.
  destruct (read (fs w)) as [[stored|e] f1].
  2:{ intros H. inversion H. subst. world_simpl. auto. }
  world_simpl. destruct (sameRun (runId latestRun) stored).
  { intros H. inversion H. subst. world_simpl. auto. }
  destruct (findTornadoImageUrls env (runUrl latestRun)) as [imageUrls|e].
  2:{ intros H. inversion H. subst. world_simpl. auto. }
  destruct (List.length imageUrls =? 0).
  { world_simpl. destruct (write (runId latestRun) f1) as [[[]|e] f2];
      intros H; inversion H; subst; world_simpl; auto. }
  world_simpl.
  match goal with
  | |- context [Monad.forEach imageUrls ?body ?w0] =>
      destruct (Monad.forEach imageUrls body w0) as [[[]|e] w1] eqn:Hloop
  end.
  - world_simpl.
    destruct (write (runId latestRun) (fs w1)) as [[[]|e] f2];
      intros H Hall; inversion H; subst; world_simpl;
      (eapply forEach_processImage_posts; [exact Hloop|exact Hall]).
  - intros H Hall; inversion H; subst; world_simpl.
    eapply forEach_processImage_posts; [exact Hloop|exact Hall].
Qed.
End Monitor.
End IndexFacts.

(* ================================================================== *)
(** * The monitor on a concrete site *)
(* ================================================================== *)

Module Site.
Import JsString Regex Scraper StateManager BlueskyNotifier Index.
Import NotifierExamples.

Definition origin : string := "http://data.nadocast.com".
Definition root : string := "http://data.nadocast.com/".
Definition monthUrl : string := "http://data.nadocast.com/202504/".
Definition dayUrl : string := "http://data.nadocast.com/202504/20250408/".
Definition runUrl0 : string := "http://data.nadocast.com/202504/20250408/t00z/".

(** URL resolution for the two shapes of href of the listings: a path
    from the root, or a file name next to the listing. *)
Definition resolveSimple (h base : string) : option string :=
  if startsWith "/" h then Some (origin ++ h)%string
  else Some (base ++ h)%string.

Definition dir (h : string) : anchor := mkAnchor (Some h) ["directory"].
Definition file (h : string) : anchor := mkAnchor (Some h) ["file"].

Definition tornadoPng : string :=
  "nadocast_2022_models_conus_tornado_20250408_t00z_f02-35.png".
Definition sigTornadoPng : string :=
  "nadocast_2022_models_conus_sig_tornado_20250408_t00z_f02-35.png".

Definition runListing : page :=
  [ dir "/202504/20250408/";
    file tornadoPng;
    file "nadocast_2022_models_conus_tornado_abs_calib_20250408_t00z_f02-35.png";
    file sigTornadoPng;
    file "nadocast_2022_models_conus_sig_tornado_life_risk_20250408_t00z.png";
    file "nadocast_2022_models_conus_wind_20250408_t00z_f02-35.png" ].

Definition sitePages (url : string) : option page :=
  if String.eqb url root then
    Some [dir "/202503/"; dir "/202504/"; dir "/202412/"; file "/999999/"]
  else if String.eqb url monthUrl then
    Some [dir "/"; dir "/202504/20250407/"; dir "/202504/20250408/"]
  else if String.eqb url dayUrl then
    Some [dir "/202504/"; dir "/202504/20250408/t00z/"]
  else if String.eqb url runUrl0 then Some runListing
  else None.

Definition siteImages (url : string) : option Buffer := Some (png Byte.x01).

Definition siteConfig : AppConfig :=
  mkAppConfig root "https://bsky.social" "monitor.bsky.social" "app-password"
              60 "/app/state/last_processed_run.txt" "info".

Definition noFaults : FsFaults := mkFsFaults false false false false.

Definition siteEnv (api : AgentApi) : Env :=
  mkEnv siteConfig "/app/state" resolveSimple sitePages siteImages api noFaults.

(** A platform that refuses every login. *)
Definition loginDenied : AgentApi :=
  mkAgentApi (fun _ => Some "denied") (fun _ => None) (fun _ => None).

(** The process between two cycles, with [content] in the state file. *)
Definition worldWith (content : string) : World :=
  mkWorld (mkFs (File content) []) idle false [].

(** A listing whose only matching link does not carry the [directory]
    class. *)
Definition plainListing (url : string) : option page :=
  if String.eqb url root then Some [mkAnchor (Some "/202504/") []] else None.

End Site.

Module SiteRuns.
Import JsString Regex Scraper StateManager BlueskyNotifier Index.
Import NotifierExamples Site.
Import ScraperFacts StateManagerFacts IndexFacts.

(** ** The Run Locator on the site *)

Example site_latest_run :
  Scraper.findLatestRunInfo resolveSimple sitePages siteConfig
  = Some (mkRunInfo "20250408_t00z" runUrl0).
Proof. reflexivity. Qed.

(** Witness of C5: date token [20250408], time token [t00z]. *)
Lemma findLatestRunInfo_runId_witness :
  exists latestYearMonthUrl latestDayUrl date timeCode,
    findLatestDirectoryUrl resolveSimple sitePages latestYearMonthUrl DAY_REGEX
    = Ok (Some latestDayUrl) /\
    findLatestDirectoryUrl resolveSimple sitePages latestDayUrl RUN_REGEX
    = Ok (Some runUrl0) /\
    capture1 DAY_REGEX latestDayUrl = Some date /\
    capture1 RUN_REGEX runUrl0 = Some timeCode /\
    "20250408_t00z" = (date ++ "_" ++ timeCode)%string /\
    canonicalRunId "20250408_t00z".
Proof.
  apply (findLatestRunInfo_runId resolveSimple sitePages siteConfig
           (mkRunInfo "20250408_t00z" runUrl0)).
  reflexivity.
Defined.

Example site_tokens :
  capture1 DAY_REGEX dayUrl = Some "20250408" /\
  capture1 RUN_REGEX runUrl0 = Some "t00z".
Proof. split; reflexivity. Qed.

(** ** The Directory Walker on the site *)

(** C6, counterexample. A listing with a hyperlink that matches the
    pattern: the link does not carry the [directory] class, and the
    walker finds nothing. *)
Lemma walker_skips_links_without_directory_class :
  plainListing root = Some [mkAnchor (Some "/202504/") []] /\
  capture1 YEAR_MONTH_REGEX "/202504/" = Some "202504" /\
  resolveSimple "/202504/" root = Some monthUrl /\
  findLatestDirectoryUrl resolveSimple plainListing root YEAR_MONTH_REGEX
  = Ok None.
Proof. repeat split; reflexivity. Qed.

Lemma resolveSimple_total (h base : string) : resolveSimple h base <> None.
Proof. unfold resolveSimple. destruct (startsWith "/" h); discriminate. Qed.

(** Witness of C6 (amended): the root listing of the site, whose
    greatest token is [202504]. *)
Lemma findLatestDirectoryUrl_first_greatest_witness :
  exists before t h after u,
    candidates YEAR_MONTH_REGEX
      [dir "/202503/"; dir "/202504/"; dir "/202412/"; file "/999999/"]
    = (before ++ (t, h) :: after)%list /\
    (forall c, In c before -> ltb (fst c) t = true) /\
    (forall c, In c after -> leb (fst c) t = true) /\
    resolveSimple h root = Some u /\
    findLatestDirectoryUrl resolveSimple sitePages root YEAR_MONTH_REGEX
    = Ok (Some u).
Proof.
  apply (findLatestDirectoryUrl_first_greatest resolveSimple sitePages root
           YEAR_MONTH_REGEX).
  - reflexivity.
  - vm_compute. discriminate.
  - intros c _. apply resolveSimple_total.
Defined.

(** Where [new URL] throws for the link with the greatest token, the
    walker has already taken the token and keeps the URL of an earlier
    link: the case the amended C6 leaves aside. *)
Example walker_keeps_earlier_url_when_resolution_fails :
  let resolve h base := if includes "[" h then None else resolveSimple h base in
  let listing url :=
    if String.eqb url monthUrl
    then Some [dir "/202504/20250407/"; dir "http://[/20250408/"]
    else None in
  candidates DAY_REGEX [dir "/202504/20250407/"; dir "http://[/20250408/"]
  = [("20250407", "/202504/20250407/"); ("20250408", "http://[/20250408/")] /\
  findLatestDirectoryUrl resolve listing monthUrl DAY_REGEX
  = Ok (Some "http://data.nadocast.com/202504/20250407/").
Proof. split; reflexivity. Qed.

Example site_root_latest :
  findLatestDirectoryUrl resolveSimple sitePages root YEAR_MONTH_REGEX
  = Ok (Some monthUrl).
Proof. reflexivity. Qed.

(** ** The Image Selector on the site *)

(** Witness of C7: the run listing, with a calibration image and a
    life-risk image among its links. *)
Lemma findTornadoImageUrls_selects_witness :
  exists urls,
    Scraper.findTornadoImageUrls resolveSimple sitePages runUrl0 = Ok urls /\
    (forall u, In u urls ->
       exists element h,
         In element runListing /\ href element = Some h /\
         test TORNADO_IMG_REGEX h = true /\
         includes "abs_calib" h = false /\
         includes "life_risk" h = false /\
         resolveSimple h runUrl0 = Some u) /\
    (forall l1 element l2 h pages',
       runListing = (l1 ++ element :: l2)%list ->
       href element = Some h ->
       includes "abs_calib" h || includes "life_risk" h = true ->
       pages' runUrl0 = Some (l1 ++ l2)%list ->
       Scraper.findTornadoImageUrls resolveSimple pages' runUrl0 = Ok urls).
Proof.
  apply (findTornadoImageUrls_selects resolveSimple sitePages runUrl0 runListing).
  reflexivity.
Defined.

Example site_images :
  Scraper.findTornadoImageUrls resolveSimple sitePages runUrl0
  = Ok [(runUrl0 ++ tornadoPng)%string; (runUrl0 ++ sigTornadoPng)%string].
Proof. reflexivity. Qed.

(** ** The State Store *)

(** Witness of C10: an identifier written with white space around it. *)
Lemma write_then_read_round_trip_witness :
  let stored := mkFs (File "20250408_t00z") ["20250408_t00z"] in
  let readBack :=
    StateManager.readLastProcessedRunId noFaults "/app/state/last_processed_run.txt"
                           "/app/state" stored in
  (trim " 20250408_t00z " <> "" -> readBack = (Ok (Some "20250408_t00z"), stored)) /\
  (trim " 20250408_t00z " = "" -> readBack = (Ok None, stored)) /\
  (trim " 20250408_t00z " = " 20250408_t00z " -> " 20250408_t00z " <> "" ->
   readBack = (Ok (Some " 20250408_t00z "), stored)).
Proof.
  apply (write_then_read_round_trip noFaults "/app/state/last_processed_run.txt"
           "/app/state" " 20250408_t00z " (mkFs NoDir [])).
  - reflexivity.
  - reflexivity.
Defined.

Example canonical_round_trip :
  let (_, s') :=
    StateManager.writeLastProcessedRunId noFaults "/app/state/last_processed_run.txt"
                            "/app/state" "20250408_t00z" (mkFs EmptyDir []) in
  fst (StateManager.readLastProcessedRunId noFaults "/app/state/last_processed_run.txt"
                              "/app/state" s')
  = Ok (Some "20250408_t00z").
Proof. reflexivity. Qed.

Example blank_round_trip :
  let (_, s') :=
    StateManager.writeLastProcessedRunId noFaults "/app/state/last_processed_run.txt"
                            "/app/state" "   " (mkFs EmptyDir []) in
  fst (StateManager.readLastProcessedRunId noFaults "/app/state/last_processed_run.txt"
                              "/app/state" s')
  = Ok None.
Proof. reflexivity. Qed.

(** ** The Orchestrator on the site *)

(** C1, counterexample. The stored run is [20250407_t12z], the site has
    [20250408_t00z] with two images, and the platform refuses every
    login: both publishes fail, nothing is posted, and the cycle has
    written the new identifier all the same. *)
Lemma state_written_after_publisher_failure :
  let w := worldWith "20250407_t12z" in
  let w' := snd (checkNadocast (siteEnv loginDenied) w) in
  fst (Index.notifyBluesky (siteEnv loginDenied) "text" [png Byte.x01] ["alt"] w)
  = Throw "Failed to log into Bluesky after 3 attempts: denied" /\
  In (PostFailed tornadoPng "Failed to log into Bluesky after 3 attempts: denied")
     (logged w') /\
  In (PostFailed sigTornadoPng "Failed to log into Bluesky after 3 attempts: denied")
     (logged w') /\
  feed (agent w') = [] /\
  disk (fs w) = File "20250407_t12z" /\
  disk (fs w') = File "20250408_t00z" /\
  written (fs w') = ["20250408_t00z"].
Proof. vm_compute. intuition. Qed.

(** Witness of C1 (amended): the same cycle, through the theorem. *)
Lemma checkNadocast_writes_new_run_witness :
  exists w',
    checkNadocast (siteEnv loginDenied) (worldWith "20250407_t12z") = (Ok tt, w') /\
    disk (fs w') = File (trim "20250408_t00z") /\
    written (fs w') = [trim "20250408_t00z"] /\
    isProcessing w' = false.
Proof.
  apply (checkNadocast_writes_new_run (siteEnv loginDenied)
           (worldWith "20250407_t12z") (mkRunInfo "20250408_t00z" runUrl0)
           (Some "20250407_t12z") (mkFs (File "20250407_t12z") [])
           [(runUrl0 ++ tornadoPng)%string; (runUrl0 ++ sigTornadoPng)%string]).
  - reflexivity.
  - reflexivity.
  - reflexivity.
  - discriminate.
  - reflexivity.
  - reflexivity.
Defined.

(** Witness of C9: the stored run is the latest one. *)
Lemma checkNadocast_no_op_witness :
  exists w',
    checkNadocast (siteEnv allOk) (worldWith "20250408_t00z") = (Ok tt, w') /\
    disk (fs w') = disk (fs (worldWith "20250408_t00z")) /\
    written (fs w') = written (fs (worldWith "20250408_t00z")) /\
    agent w' = agent (worldWith "20250408_t00z").
Proof.
  apply (checkNadocast_no_op (siteEnv allOk) (worldWith "20250408_t00z")
           (Some "20250408_t00z") (mkFs (File "20250408_t00z") [])).
  - reflexivity.
  - reflexivity.
Defined.

(** After a publish that returned normally without a post (the third
    attempt failed on the rate limit), the cycle logs the image as posted
    and records the run. *)
Example cycle_after_silent_publish :
  let w' := snd (checkNadocast (siteEnv rateLimitedLast)
                               (worldWith "20250407_t12z")) in
  feed (agent w') = [] /\
  In (Posted tornadoPng) (logged w') /\
  disk (fs w') = File "20250408_t00z".
Proof. vm_compute. intuition. Qed.

(** Witness of X1: two cycles in a row against a platform that refuses
    every login; the second one finds the run recorded and does nothing. *)
Lemma run_processed_once_witness :
  exists w1 w2,
    checkNadocast (siteEnv loginDenied) (worldWith "20250407_t12z") = (Ok tt, w1) /\
    checkNadocast (siteEnv loginDenied) w1 = (Ok tt, w2) /\
    fs w2 = fs w1 /\ agent w2 = agent w1.
Proof.
  apply (run_processed_once (siteEnv loginDenied)
           (worldWith "20250407_t12z") (mkRunInfo "20250408_t00z" runUrl0)
           (Some "20250407_t12z") (mkFs (File "20250407_t12z") [])
           [(runUrl0 ++ tornadoPng)%string; (runUrl0 ++ sigTornadoPng)%string]).
  - reflexivity.
  - reflexivity.
  - reflexivity.
  - discriminate.
  - reflexivity.
  - reflexivity.
Defined.

(** Witness of X4: a cycle against a platform that accepts everything;
    two posts, one image each. *)
Lemma checkNadocast_posts_one_image_each_witness :
  Forall NotifierFacts.singleImage
         (feed (agent (snd (checkNadocast (siteEnv allOk)
                                          (worldWith "20250407_t12z"))))).
Proof.
  apply (checkNadocast_posts_one_image_each (siteEnv allOk)
           (worldWith "20250407_t12z") _ (Ok tt)).
  - reflexivity.
  - constructor.
Defined.

(** Witness of X2: [createPost] against the platform whose third refusal
    is on the rate limit; a normal return, and the second case of the
    alternative. *)
Lemma createPost_ok_inv_witness :
  let a' := snd (createPost rateLimitedLast "text" [] idle) in
  feed a' = makePostRecord "text" [] :: feed idle \/
  (feed a' = feed idle /\
   exists e, postError rateLimitedLast (postCalls idle + 2) = Some e /\
             isRateLimit e = true).
Proof.
  apply (NotifierFacts.createPost_ok_inv rateLimitedLast "text" [] idle).
  reflexivity.
Defined.

End SiteRuns.

(* ================================================================== *)
(** * Further properties of the State Store *)
(* ================================================================== *)

Module StoreMore.
Import JsString StateManager StringFacts StateManagerFacts.

(** The text of the state file, when there is one. *)
Definition fileContent (s : Fs) : option string :=
  match disk s with
  | File content => Some content
  | _ => None
  end.

Section Store.
Variable faults : FsFaults.
Variables stateFilePath stateDir : string.

Local Abbreviation read :=
  (readLastProcessedRunId faults stateFilePath stateDir).
Local Abbreviation write :=
  (writeLastProcessedRunId faults stateFilePath stateDir).





(** X6. When no I/O fault occurs, a read answers no identifier exactly
    when there is no state file or the file holds nothing but white space;
    it never throws, and the state directory exists afterwards. *)
Theorem read_without_fault (s : Fs) :
  accessFault faults = false ->
  readFault faults = false ->
  (disk s = NoDir -> mkdirFault faults = false) ->
  let (r, s') := read s in
  (exists stored, r = Ok stored) /\
  (r = Ok None <->
   match fileContent s with
   | None => True
   | Some content => trim content = ""
   end) /\
  disk s' <> NoDir.
Proof.
  intros Ha Hr Hm.
  unfold readLastProcessedRunId, ensureStateDirectoryExists, access, mkdir,
    readFile, fileContent. unfold_monad.
  destruct s as [d w]. cbn [disk written] in *. rewrite Ha.
  destruct d as [| |c]; cbn [disk written].
  - rewrite (Hm eq_refl). cbn [disk written]. rewrite Hr.
    repeat split; eauto; discriminate.
  - rewrite Hr. repeat split; eauto; discriminate.
  - rewrite Hr. rewrite length_pos_iff. unfold truthy.
    destruct (String.eqb_spec (trim c) "") as [He|Hne]; cbn [negb].
    + repeat split; eauto; discriminate.
    + repeat split; eauto; try discriminate. intros H. now elim Hne.
Qed.
End Store.
End StoreMore.

(* ================================================================== *)
(** * Further properties of the Publisher *)
(* ================================================================== *)

Module NotifierMore.
Import JsString BlueskyNotifier StringFacts NotifierFacts.

(** The delay waited after a failed attempt to post that is retried. *)
Definition retryDelay (message : string) : Z :=
  if isRateLimit message then (RETRY_DELAY_MS * 5)%Z else RETRY_DELAY_MS.

(** An agent after [calls] more calls of [agent.post] and the delays
    [waited] (latest first), nothing else having changed. *)
Definition afterPostCalls (calls : nat) (waited : list Z) (a : Agent) : Agent :=
  mkAgent (session a) (loginCalls a) (uploadCalls a) (calls + postCalls a)
          (blobStore a) (feed a) (waited ++ delays a)%list.

Section Notifier.
Variable api : AgentApi.

(** ** Calls made by the loops *)

Lemma loginLoop_calls (left : nat) :
  forall (a a' : Agent) (r : result unit),
    loginLoop api left a = (r, a') ->
    loginCalls a <= loginCalls a' <= loginCalls a + left.
Proof.
  induction left as [|left IH]; intros a a' r.
  - cbn. intros H. inversion H. lia.
  - cbn [loginLoop]. unfold_monad. unfold agentLogin, sleep. unfold_monad.
    destruct (loginError api (loginCalls a)) as [e|].
    + destruct (MAX_RETRIES <=? attemptsAfter (S left)).
      * intros H. inversion H. agent_simpl. lia.
      * intros H. apply IH in H. agent_simpl. lia.
    + intros H. inversion H. agent_simpl. lia.
Qed.

Lemma uploadLoop_calls (left i : nat) (buf : Buffer) (alt : string)
      (ups : list UploadedImage) :
  forall (a a' : Agent) (r : result _),
    uploadLoop api left i buf alt ups a = (r, a') ->
    uploadCalls a <= uploadCalls a' <= uploadCalls a + left /\
    loginCalls a' = loginCalls a.
Proof.
  induction left as [|left IH]; intros a a' r.
  - cbn. intros H. inversion H. lia.
  - cbn [uploadLoop]. unfold_monad. unfold agentUploadBlob, sleep.
    unfold_monad.
    destruct (uploadError api (uploadCalls a)) as [e|].
    + destruct (MAX_RETRIES <=? attemptsAfter (S left)).
      * intros H. inversion H. agent_simpl. lia.
      * intros H. apply IH in H. agent_simpl. lia.
    + intros H. inversion H. agent_simpl. lia.
Qed.

Lemma uploadFrom_calls (rest : list Buffer) :
  forall (i : nat) (alts : list string) (ups : list UploadedImage)
         (a a' : Agent) (r : result _),
    uploadFrom api i rest alts ups a = (r, a') ->
    uploadCalls a <= uploadCalls a'
    <= uploadCalls a + MAX_RETRIES * List.length rest /\
    loginCalls a' = loginCalls a.
Proof.
  induction rest as [|buf rest IH]; intros i alts ups a a' r.
  - cbn. intros H. inversion H. lia.
  - cbn [uploadFrom]. unfold Monad.bind at 1.
    destruct (uploadLoop api MAX_RETRIES i buf (altTextAt alts i) ups a)
      as [[ups1|e] a1] eqn:E1; apply uploadLoop_calls in E1.
    + intros H. apply IH in H. cbn [List.length]. unfold MAX_RETRIES in *. lia.
    + intros H. inversion H. subst. cbn [List.length].
      unfold MAX_RETRIES in *. lia.
Qed.

Lemma postLoop_calls (left : nat) (postRecord : PostRecord) :
  forall (a a' : Agent) (r : result unit),
    postLoop api left postRecord a = (r, a') ->
    postCalls a <= postCalls a' <= postCalls a + left /\
    loginCalls a' = loginCalls a /\ uploadCalls a' = uploadCalls a /\
    session a' = session a.
Proof.
  induction left as [|left IH]; intros a a' r.
  - cbn. intros H. inversion H. repeat split; lia.
  - cbn [postLoop]. unfold_monad. unfold agentPost, sleep. unfold_monad.
    destruct (postError api (postCalls a)) as [e|].
    + destruct (isRateLimit e).
      * intros H. apply IH in H. agent_simpl.
        destruct H as (H1 & H2 & H3 & H4). repeat split; try lia; assumption.
      * destruct (attemptsAfter (S left) <? MAX_RETRIES).
        -- intros H. apply IH in H. agent_simpl.
           destruct H as (H1 & H2 & H3 & H4).
           repeat split; try lia; assumption.
        -- intros H. inversion H. agent_simpl. repeat split; lia.
    + intros H. inversion H. agent_simpl. repeat split; lia.
Qed.

(** ** The steps of a publish *)

Lemma capImages_fst (A B : Type) (images : list A) (altTexts : list B) :
  fst (capImages images altTexts) = firstn MAX_IMAGES_PER_POST images.
Proof.
  unfold capImages.
  destruct (Nat.ltb_spec MAX_IMAGES_PER_POST (List.length images)) as [H|H];
    cbn [fst]; [reflexivity|].
  now rewrite List.firstn_all2.
Qed.

(** The upload step leaves alone what is not its own. *)
Lemma uploadImages_frame (images : list Buffer) (altTexts : list string)
      (a a' : Agent) (r : result _) :
  uploadImages api images altTexts a = (r, a') ->
  feed a' = feed a /\ session a' = session a /\ postCalls a' = postCalls a /\
  loginCalls a' = loginCalls a /\
  uploadCalls a <= uploadCalls a'
  <= uploadCalls a
     + MAX_RETRIES * List.length (firstn MAX_IMAGES_PER_POST images).
Proof.
  unfold uploadImages.
  destruct (List.length images =? 0).
  { cbn. intros H. inversion H. repeat split; lia. }
  pose proof (capImages_fst _ _ images altTexts) as Hfst.
  destruct (capImages images altTexts) as [kept alts0]. cbn [fst] in Hfst.
  unfold Monad.bind at 1. unfold Monad.liftResult.
  destruct (padAltTexts (List.length kept) alts0) as [alts|e].
  - intros H.
    pose proof (uploadFrom_frame _ _ _ _ _ _ _ _ H) as (Hf & Hs & Hp).
    apply uploadFrom_calls in H. rewrite <- Hfst. tauto.
  - intros H. inversion H. repeat split; lia.
Qed.

(** What a successful upload step has done: the first four images are
    stored in order, and the entries refer to them. *)
Lemma uploadImages_ok (images : list Buffer) (altTexts : list string)
      (a a' : Agent) (ups : list UploadedImage) :
  uploadImages api images altTexts a = (Ok ups, a') ->
  blobStore a' = (blobStore a ++ firstn MAX_IMAGES_PER_POST images)%list /\
  map image ups
  = seq (List.length (blobStore a))
        (List.length (firstn MAX_IMAGES_PER_POST images)) /\
  map altText ups
  = map (altTextAt (firstn MAX_IMAGES_PER_POST altTexts))
        (seq 0 (List.length (firstn MAX_IMAGES_PER_POST images))).
Proof.
  unfold uploadImages.
  destruct (Nat.eqb_spec (List.length images) 0) as [Hz|Hnz].
  - destruct images; [|discriminate]. cbn. intros H. inversion H. subst.
    now rewrite List.app_nil_r.
  - destruct (capImages images altTexts) as [kept0 alts0] eqn:Hcap.
    unfold Monad.bind, Monad.liftResult.
    destruct (padAltTexts (List.length kept0) alts0) as [alts|e] eqn:Hpad;
      [|discriminate].
    pose proof (padAltTexts_capped Buffer images altTexts alts) as Hc.
    rewrite Hcap in Hc. cbn [fst snd] in Hc.
    destruct (Hc Hpad) as [-> Halt].
    intros H. apply uploadFrom_ok_inv in H. destruct H as (Hb & Hi & Ha).
    cbn [map List.app] in Hi, Ha.
    repeat split; [exact Hb|exact Hi|].
    rewrite Ha. apply List.map_ext. exact Halt.
Qed.

(** A run of [notifyBluesky] stops at the first step that throws. *)
Lemma notifyBluesky_steps
      (postText : string) (images : list Buffer) (altTexts : list string)
      (a a' : Agent) (r : result unit) :
  notifyBluesky api postText images altTexts a = (r, a') ->
  (exists e, ensureSession api a = (Throw e, a') /\ r = Throw e) \/
  (exists a0,
     ensureSession api a = (Ok tt, a0) /\
     ((exists e, uploadImages api images altTexts a0 = (Throw e, a') /\
                 r = Throw e) \/
      (exists ups a1,
         uploadImages api images altTexts a0 = (Ok ups, a1) /\
         createPost api postText ups a1 = (r, a')))).
Proof.
  unfold notifyBluesky, Monad.tryCatch, Monad.bind at 1 2, Monad.get.
  fold (ensureSession api a). intros H.
  destruct (ensureSession api a) as [[[]|e] a0].
  - right. exists a0. split; [reflexivity|].
    unfold Monad.bind at 1 in H.
    destruct (uploadImages api images altTexts a0) as [[ups|e] a1].
    + right. exists ups, a1. split; [reflexivity|].
      destruct (createPost api postText ups a1) as [[[]|e] a2];
        unfold Monad.throw in H; exact H.
    + left. exists e. unfold Monad.throw in H. inversion H. auto.
  - left. exists e. unfold Monad.throw in H. inversion H. auto.
Qed.

Lemma ensureSession_calls (a a' : Agent) (r : result unit) :
  ensureSession api a = (r, a') ->
  loginCalls a <= loginCalls a' <= loginCalls a + MAX_RETRIES /\
  (session a = true -> a' = a /\ r = Ok tt).
Proof.
  unfold ensureSession, login. destruct (session a); cbn [negb].
  - cbn. intros H. inversion H. split; [lia|auto].
  - intros H. apply loginLoop_calls in H. split; [exact H|discriminate].
Qed.

Lemma loginLoop_ok_session (left : nat) :
  forall (a a' : Agent),
    1 <= left -> loginLoop api left a = (Ok tt, a') -> session a' = true.
Proof.
  induction left as [|left IH]; intros a a' Hleft; [lia|].
  cbn [loginLoop]. unfold_monad. unfold agentLogin, sleep. unfold_monad.
  destruct (loginError api (loginCalls a)) as [e|].
  - destruct (MAX_RETRIES <=? attemptsAfter (S left)) eqn:Hk; [discriminate|].
    intros H. apply IH in H; [exact H|now apply attempts_left].
  - intros H. inversion H. reflexivity.
Qed.

Lemma ensureSession_ok (a a0 : Agent) :
  ensureSession api a = (Ok tt, a0) -> session a0 = true.
Proof.
  unfold ensureSession, login. destruct (session a) eqn:Hs; cbn [negb].
  - cbn. intros H. inversion H. subst. exact Hs.
  - apply loginLoop_ok_session. unfold MAX_RETRIES. lia.
Qed.

(** The handles [store.length, ...] of buffers just appended to a store
    refer to these buffers, in order. *)
Lemma nth_error_appended (kept : list Buffer) :
  forall store : list Buffer,
    map (nth_error (store ++ kept)) (seq (List.length store) (List.length kept))
    = map Some kept.
Proof.
  induction kept as [|x kept IH]; intros store; [reflexivity|].
  cbn [List.length seq map]. f_equal.
  - rewrite List.nth_error_app2 by lia. now rewrite Nat.sub_diag.
  - specialize (IH (store ++ [x])%list).
    rewrite <- List.app_assoc, List.length_app in IH. cbn in IH.
    now rewrite Nat.add_1_r in IH.
Qed.

(** ** The attempts to post, one by one *)

Lemma postLoop_success (left : nat) (postRecord : PostRecord) (a : Agent) :
  postError api (postCalls a) = None ->
  postLoop api (S left) postRecord a
  = (Ok tt, mkAgent (session a) (loginCalls a) (uploadCalls a)
                    (S (postCalls a)) (blobStore a) (postRecord :: feed a)
                    (delays a)).
Proof.
  intros He. cbn [postLoop]. unfold_monad. unfold agentPost. now rewrite He.
Qed.

Lemma postLoop_retry_delay (left : nat) (postRecord : PostRecord) (a : Agent)
      (e : string) :
  postError api (postCalls a) = Some e ->
  isRateLimit e = true \/ (attemptsAfter (S left) <? MAX_RETRIES) = true ->
  postLoop api (S left) postRecord a
  = postLoop api left postRecord (afterPostCalls 1 [retryDelay e] a).
Proof.
  intros He Hretry.
  cbn [postLoop]. unfold_monad. unfold agentPost, sleep. unfold_monad.
  rewrite He. agent_simpl. unfold afterPostCalls, retryDelay.
  destruct (isRateLimit e); [reflexivity|].
  destruct Hretry as [Hr|Hr]; [discriminate|]. now rewrite Hr.
Qed.

Lemma postLoop_last_throw (postRecord : PostRecord) (a : Agent) (e : string) :
  postError api (postCalls a) = Some e ->
  isRateLimit e = false ->
  postLoop api 1 postRecord a
  = (Throw ("Failed to create post after " ++ natToString MAX_RETRIES
            ++ " attempts: " ++ e),
     afterPostCalls 1 [] a).
Proof.
  intros He Hrl.
  cbn [postLoop]. unfold_monad. unfold agentPost, sleep. unfold_monad.
  rewrite He, Hrl. reflexivity.
Qed.

(** ** What a publish costs *)

(** X7. Whatever happens, one call of [notifyBluesky] makes at most
    three login calls (none when a session is open), at most three upload
    calls per image kept (the first four), and at most three calls to
    create the post. *)
Theorem notifyBluesky_call_bounds
        (postText : string) (images : list Buffer) (altTexts : list string)
        (a a' : Agent) (r : result unit) :
  notifyBluesky api postText images altTexts a = (r, a') ->
  loginCalls a <= loginCalls a' <= loginCalls a + MAX_RETRIES /\
  (session a = true -> loginCalls a' = loginCalls a) /\
  uploadCalls a <= uploadCalls a'
  <= uploadCalls a
     + MAX_RETRIES * Nat.min MAX_IMAGES_PER_POST (List.length images) /\
  postCalls a <= postCalls a' <= postCalls a + MAX_RETRIES.
Proof.
  intros H. rewrite <- List.length_firstn.
  apply notifyBluesky_steps in H.
  destruct H as [(e & Hl & _)|(a0 & Hl & H)].
  - pose proof (ensureSession_frame _ _ _ _ Hl) as (_ & _ & Hu & Hp).
    apply ensureSession_calls in Hl. destruct Hl as [Hc Hs].
    repeat split; try lia. intros Ht. now destruct (Hs Ht) as [-> _].
  - pose proof (ensureSession_frame _ _ _ _ Hl) as (_ & _ & Hu & Hp).
    apply ensureSession_calls in Hl. destruct Hl as [Hc Hs].
    assert (Hs' : session a = true -> loginCalls a0 = loginCalls a).
    { intros Ht. now destruct (Hs Ht) as [-> _]. }
    destruct H as [(e & Hup & _)|(ups & a1 & Hup & Hpost)].
    + apply uploadImages_frame in Hup.
      destruct Hup as (_ & _ & Hp1 & Hl1 & Hu1).
      repeat split; try lia. intros Ht. rewrite Hl1. auto.
    + apply uploadImages_frame in Hup.
      destruct Hup as (_ & _ & Hp1 & Hl1 & Hu1).
      unfold createPost in Hpost. apply postLoop_calls in Hpost.
      destruct Hpost as (Hp2 & Hl2 & Hu2 & _).
      repeat split; try lia. intros Ht. rewrite Hl2, Hl1. auto.
Qed.

(** ** More alt texts than images *)

(** X8. Given at most four images (and at least one) with more alt texts
    than images, [uploadImages] throws the [RangeError] of
    [Array(images.length - altTexts.length)] before any upload; with a
    session open, [notifyBluesky] fails with it and the agent is left as
    it was. *)
Theorem uploadImages_too_many_alt_texts
        (postText : string) (images : list Buffer) (altTexts : list string)
        (a : Agent) :
  images <> [] ->
  List.length images <= MAX_IMAGES_PER_POST ->
  List.length images < List.length altTexts ->
  uploadImages api images altTexts a = (Throw "Invalid array length", a) /\
  (session a = true ->
   notifyBluesky api postText images altTexts a
   = (Throw "Invalid array length", a)).
Proof.
  intros Hne Hcap Hmore.
  assert (Hup : uploadImages api images altTexts a
                = (Throw "Invalid array length", a)).
  { unfold uploadImages, capImages.
    destruct images as [|b images]; [contradiction|].
    cbn [Nat.eqb List.length] in *.
    destruct (Nat.ltb_spec MAX_IMAGES_PER_POST (S (List.length images)));
      [lia|].
    unfold Monad.bind, Monad.liftResult, padAltTexts. cbn [List.length].
    destruct (Nat.eqb_spec (S (List.length images)) (List.length altTexts));
      [lia|].
    destruct (Nat.ltb_spec (S (List.length images)) (List.length altTexts));
      [reflexivity|lia]. }
  split; [exact Hup|].
  intros Hs. unfold notifyBluesky, Monad.tryCatch, Monad.bind at 1 2, Monad.get.
  rewrite Hs. cbn [negb]. unfold Monad.ret, Monad.bind at 1.
  now rewrite Hup.
Qed.

(** ** What a post refers to *)

(** X9. When [notifyBluesky] has created a post, it returned normally
    with a session open; the text of the post is the given text cut to
    the limit; the images kept (the first four) were appended to the blob
    store; and the post embeds no image exactly when none was given, and
    otherwise the handles of the images kept, in their order, each with
    the alt text of its position. *)
Theorem notifyBluesky_post_embeds_uploads
        (postText : string) (images : list Buffer) (altTexts : list string)
        (a a' : Agent) (r : result unit) (p : PostRecord) :
  notifyBluesky api postText images altTexts a = (r, a') ->
  feed a' = p :: feed a ->
  let kept := firstn MAX_IMAGES_PER_POST images in
  r = Ok tt /\ session a' = true /\
  text p = truncatePostText postText /\
  blobStore a' = (blobStore a ++ kept)%list /\
  match embed p with
  | None => images = []
  | Some entries =>
      images <> [] /\
      map (fun entry => nth_error (blobStore a') (fst entry)) entries
      = map Some kept /\
      map snd entries
      = map (altTextAt (firstn MAX_IMAGES_PER_POST altTexts))
            (seq 0 (List.length kept))
  end.
Proof.
  intros H Hfeed kept.
  assert (Hne : forall q : list PostRecord, q <> p :: q).
  { intros q Hq. apply (f_equal (@List.length _)) in Hq. cbn in Hq. lia. }
  apply notifyBluesky_steps in H.
  destruct H as [(e & Hl & _)|(a0 & Hl & H)].
  { apply ensureSession_frame in Hl. destruct Hl as (Hf & _).
    rewrite Hf in Hfeed. now elim (Hne (feed a)). }
  pose proof (ensureSession_ok _ _ Hl) as Hs0.
  apply ensureSession_frame in Hl. destruct Hl as (Hf0 & Hb0 & _).
  destruct H as [(e & Hup & _)|(ups & a1 & Hup & Hpost)].
  { apply uploadImages_frame in Hup. destruct Hup as (Hf & _).
    rewrite Hf, Hf0 in Hfeed. now elim (Hne (feed a)). }
  pose proof (uploadImages_frame _ _ _ _ _ Hup) as (Hf1 & Hs1 & _).
  apply uploadImages_ok in Hup. destruct Hup as (Hb1 & Hi & Ha).
  fold kept in Hb1, Hi, Ha.
  unfold createPost in Hpost.
  pose proof (postLoop_calls _ _ _ _ _ Hpost) as (_ & _ & _ & Hs2).
  apply postLoop_feed in Hpost. destruct Hpost as [Hb2 [Hp|[Hr Hp]]].
  { rewrite Hp, Hf1, Hf0 in Hfeed. now elim (Hne (feed a)). }
  rewrite Hp, Hf1, Hf0 in Hfeed. inversion Hfeed as [Hrec]. clear Hfeed.
  split; [exact Hr|]. split; [congruence|].
  split; [reflexivity|]. split; [congruence|].
  cbn [embed makePostRecord].
  assert (Hlen : List.length ups = List.length kept).
  { rewrite <- (List.length_map image ups), Hi. apply List.length_seq. }
  destruct images as [|b images].
  - cbn in Hlen. destruct ups; [reflexivity|discriminate].
  - destruct ups as [|u ups]; [discriminate|].
    cbn [List.length Nat.ltb Nat.leb].
    split; [discriminate|].
    rewrite !List.map_map. cbn [fst snd].
    rewrite <- (List.map_map image (nth_error (blobStore a'))), Hi.
    rewrite Hb2, Hb1, Hb0. split; [apply nth_error_appended|exact Ha].
Qed.

(** ** Giving up on a post *)

(** X10. [createPost] throws exactly when its three attempts fail and
    the third failure is not a rate-limit one: the message is that of the
    third error, no post exists, and the agent has made three calls and
    waited twice (25 s after a rate-limit failure, 5 s otherwise). *)
Theorem createPost_throws_iff
        (postText : string) (images : list UploadedImage)
        (a a' : Agent) (message : string) :
  createPost api postText images a = (Throw message, a') <->
  exists e0 e1 e2,
    postError api (postCalls a) = Some e0 /\
    postError api (1 + postCalls a) = Some e1 /\
    postError api (2 + postCalls a) = Some e2 /\
    isRateLimit e2 = false /\
    message = ("Failed to create post after 3 attempts: " ++ e2)%string /\
    a' = afterPostCalls 3 [retryDelay e1; retryDelay e0] a.
Proof.
  unfold createPost, MAX_RETRIES.
  set (rec := makePostRecord postText images).
  split.
  - intros H.
    destruct (postError api (postCalls a)) as [e0|] eqn:E0;
      [|rewrite (postLoop_success _ _ _ E0) in H; discriminate].
    rewrite (postLoop_retry_delay 2 rec a e0 E0 (or_intror eq_refl)) in H.
    set (a1 := afterPostCalls 1 [retryDelay e0] a) in H.
    destruct (postError api (1 + postCalls a)) as [e1|] eqn:E1;
      [|rewrite (postLoop_success 1 rec a1 E1) in H; discriminate].
    rewrite (postLoop_retry_delay 1 rec a1 e1 E1 (or_intror eq_refl)) in H.
    set (a2 := afterPostCalls 1 [retryDelay e1] a1) in H.
    destruct (postError api (2 + postCalls a)) as [e2|] eqn:E2;
      [|rewrite (postLoop_success 0 rec a2 E2) in H; discriminate].
    destruct (isRateLimit e2) eqn:R2.
    + rewrite (postLoop_retry_delay 0 rec a2 e2 E2 (or_introl R2)) in H.
      discriminate.
    + rewrite (postLoop_last_throw rec a2 e2 E2 R2) in H.
      inversion H. exists e0, e1, e2. repeat split; auto.
  - intros (e0 & e1 & e2 & E0 & E1 & E2 & R2 & -> & ->).
    rewrite (postLoop_retry_delay 2 rec a e0 E0 (or_intror eq_refl)).
    set (a1 := afterPostCalls 1 [retryDelay e0] a).
    rewrite (postLoop_retry_delay 1 rec a1 e1 E1 (or_intror eq_refl)).
    set (a2 := afterPostCalls 1 [retryDelay e1] a1).
    rewrite (postLoop_last_throw rec a2 e2 E2 R2). reflexivity.
Qed.

(** ** Logging in *)

(** X11. [login] succeeds exactly when one of its first three attempts
    does: it then stops at the first attempt that succeeds, with the
    session open and 5 s waited after each failed attempt.  When the
    three attempts fail it throws with the message of the third error,
    the session as it was, after three calls and two waits. *)
Theorem login_outcome (a a' : Agent) (r : result unit) :
  login api a = (r, a') ->
  let n := loginCalls a in
  match r with
  | Ok _ =>
      exists k,
        k < MAX_RETRIES /\
        (forall j, j < k -> loginError api (j + n) <> None) /\
        loginError api (k + n) = None /\
        a' = mkAgent true (S k + n) (uploadCalls a) (postCalls a)
                     (blobStore a) (feed a)
                     (repeat RETRY_DELAY_MS k ++ delays a)%list
  | Throw message =>
      exists e,
        (forall j, j < MAX_RETRIES -> loginError api (j + n) <> None) /\
        loginError api (2 + n) = Some e /\
        message = ("Failed to log into Bluesky after 3 attempts: " ++ e)%string /\
        a' = mkAgent (session a) (3 + n) (uploadCalls a) (postCalls a)
                     (blobStore a) (feed a)
                     (repeat RETRY_DELAY_MS 2 ++ delays a)%list
  end.
Proof.
  unfold login, MAX_RETRIES. cbn [loginLoop]. unfold_monad.
  unfold agentLogin, sleep. unfold_monad. agent_simpl.
  cbn [attemptsAfter MAX_RETRIES Nat.sub Nat.leb].
  destruct (loginError api (loginCalls a)) as [e0|] eqn:E0.
  2: { intros H. inversion H. subst. cbv zeta. exists 0.
       repeat split; [lia|intros j Hj; lia|exact E0]. }
  agent_simpl.
  destruct (loginError api (S (loginCalls a))) as [e1|] eqn:E1.
  2: { intros H. inversion H. subst. cbv zeta. exists 1.
       repeat split; [lia| |exact E1].
       intros j Hj. replace j with 0 by lia. cbn. congruence. }
  agent_simpl.
  destruct (loginError api (S (S (loginCalls a)))) as [e2|] eqn:E2.
  2: { intros H. inversion H. subst. cbv zeta. exists 2.
       repeat split; [lia| |exact E2].
       intros j Hj. destruct j as [|[|j]]; cbn; [congruence|congruence|lia]. }
  intros H. inversion H. subst. cbv zeta. exists e2.
  repeat split; [|exact E2].
  intros j Hj. destruct j as [|[|[|j]]]; cbn; [congruence..|lia].
Qed.
End Notifier.
End NotifierMore.

(* ================================================================== *)
(** * Further properties of the scraper *)
(* ================================================================== *)

Module ScraperMore.
Import JsString Regex Scraper StringFacts RegexFacts PatternFacts ScraperFacts.

(** ** What the directory patterns capture *)

(** Two ways of cutting a text with right parts of the same length are
    the same. *)
Lemma append_inj_right (a : string) :
  forall a' b b' : string,
    (a ++ b)%string = (a' ++ b')%string ->
    String.length b = String.length b' ->
    a = a' /\ b = b'.
Proof.
  induction a as [|x a IH]; intros [|y a'] b b' H Hlen; cbn in H.
  - auto.
  - subst b. cbn in Hlen. rewrite length_append in Hlen. lia.
  - subst b'. cbn in Hlen. rewrite length_append in Hlen. lia.
  - inversion H. subst y. destruct (IH a' b b') as [-> ->]; auto.
Qed.

(** Building the match of a sequence without alternatives. *)
Ltac build_match :=
  repeat first
    [ apply MEps
    | apply MEol
    | apply MBol
    | apply MLit; cbn [atomMatches]; first [assumption|reflexivity]
    | eapply MGroup
    | eapply MCat ].

(** A match somewhere gives the token, when every match of the pattern
    gives that token. *)
Lemma capture1_intro (p : RegExp) (u d pre suf : string) pos' s' cap :
  u = (pre ++ suf)%string ->
  Match (ignoreCaseFlag p) (source p) (String.length pre) suf None pos' s' cap ->
  (forall c, exec p u = Some c -> c = Some d) ->
  d <> EmptyString ->
  capture1 p u = Some d.
Proof.
  intros -> Hm Hall Hne.
  pose proof (execFrom_complete p pre 0 suf pos' s' cap Hm) as Hex.
  unfold capture1. unfold exec in *.
  destruct (execFrom p 0 (pre ++ suf)) as [c|]; [|now elim Hex].
  rewrite (Hall c eq_refl). unfold truthy.
  destruct (String.eqb_spec d ""); [now elim Hne|reflexivity].
Qed.

Lemma DAY_REGEX_exec (u : string) (cap : option string) :
  exec DAY_REGEX u = Some cap ->
  exists pre d, cap = Some d /\ u = (pre ++ "/" ++ d ++ "/")%string /\
                String.length d = 8 /\ forallChars isDigit d = true.
Proof.
  intros H. apply execFrom_sound in H.
  destruct H as (pre & suf & pos' & s' & -> & Hm).
  exists pre. cbn in Hm. unfold digit in Hm. inv_match. literal_chars.
  match goal with
  | |- context [slice0 ?k _] => replace k with 8 by lia
  end.
  cbn [slice0]. eexists. split; [reflexivity|].
  cbn [String.append String.length forallChars].
  repeat match goal with H : isDigit _ = true |- _ => rewrite H; clear H end.
  auto.
Qed.

Lemma YEAR_MONTH_REGEX_exec (u : string) (cap : option string) :
  exec YEAR_MONTH_REGEX u = Some cap ->
  exists d, cap = Some d /\ u = ("/" ++ d ++ "/")%string /\
            String.length d = 6 /\ forallChars isDigit d = true.
Proof.
  intros H. apply execFrom_sound in H.
  destruct H as (pre & suf & pos' & s' & -> & Hm).
  cbn in Hm. unfold digit in Hm. inv_match. literal_chars.
  destruct pre; [|discriminate].
  match goal with
  | |- context [slice0 ?k _] => replace k with 6 by lia
  end.
  cbn [slice0]. eexists. split; [reflexivity|].
  cbn [String.append String.length forallChars].
  repeat match goal with H : isDigit _ = true |- _ => rewrite H; clear H end.
  auto.
Qed.

Lemma RUN_REGEX_exec (u : string) (cap : option string) :
  exec RUN_REGEX u = Some cap ->
  exists pre d1 d2,
    cap = Some (String "t" (String d1 (String d2 "z"))) /\
    u = (pre ++ "/" ++ String "t" (String d1 (String d2 "z")) ++ "/")%string /\
    isDigit d1 = true /\ isDigit d2 = true.
Proof.
  intros H. apply execFrom_sound in H.
  destruct H as (pre & suf & pos' & s' & -> & Hm).
  exists pre. cbn in Hm. unfold digit in Hm. inv_match. literal_chars.
  match goal with
  | |- context [slice0 ?k _] => replace k with 4 by lia
  end.
  cbn [slice0]. eexists. eexists. repeat split; eauto.
Qed.

(** X12. The directory patterns capture as follows: [YEAR_MONTH_REGEX]
    the six digits of a text that is exactly a slash, six digits and a
    slash; [DAY_REGEX] the eight digits of a text that ends with a slash,
    eight digits and a slash; [RUN_REGEX] the token of a text that ends
    with a slash, [t], two digits, [z] and a slash.  Nothing else is
    captured. *)
Theorem directory_patterns_spec (u token : string) :
  (capture1 YEAR_MONTH_REGEX u = Some token <->
   u = ("/" ++ token ++ "/")%string /\
   String.length token = 6 /\ forallChars isDigit token = true) /\
  (capture1 DAY_REGEX u = Some token <->
   exists pre, u = (pre ++ "/" ++ token ++ "/")%string /\
               String.length token = 8 /\ forallChars isDigit token = true) /\
  (capture1 RUN_REGEX u = Some token <->
   exists pre d1 d2,
     u = (pre ++ "/" ++ token ++ "/")%string /\
     token = String "t" (String d1 (String d2 "z")) /\
     isDigit d1 = true /\ isDigit d2 = true).
Proof.
  split; [|split]; (split; [first [apply YEAR_MONTH_REGEX_capture
                                  |apply DAY_REGEX_capture
                                  |apply RUN_REGEX_capture]|]).
  - intros (-> & Hlen & Hd).
    destruct token as [|c1 [|c2 [|c3 [|c4 [|c5 [|c6 [|c7 rest]]]]]]];
      try discriminate.
    cbn [forallChars] in Hd.
    repeat (apply Bool.andb_true_iff in Hd;
            let H := fresh "Hdig" in destruct Hd as [H Hd]).
    eapply (capture1_intro YEAR_MONTH_REGEX _ _ EmptyString);
      [reflexivity| | |discriminate].
    + cbn. unfold digit. build_match.
    + intros c Hc. apply YEAR_MONTH_REGEX_exec in Hc.
      destruct Hc as (d & -> & Hu & Hlen' & _).
      cbn [String.append] in Hu. inversion Hu as [Hu'].
      apply (append_inj_right
               (String c1 (String c2 (String c3 (String c4 (String c5
                  (String c6 ""))))))
               d "/" "/") in Hu'; [|reflexivity].
      now destruct Hu' as [-> _].
  - intros (pre & -> & Hlen & Hd).
    destruct token
      as [|c1 [|c2 [|c3 [|c4 [|c5 [|c6 [|c7 [|c8 [|c9 rest]]]]]]]]];
      try discriminate.
    cbn [forallChars] in Hd.
    repeat (apply Bool.andb_true_iff in Hd;
            let H := fresh "Hdig" in destruct Hd as [H Hd]).
    eapply (capture1_intro DAY_REGEX _ _ pre); [reflexivity| | |discriminate].
    + cbn. unfold digit. build_match.
    + intros c Hc. apply DAY_REGEX_exec in Hc.
      destruct Hc as (pre' & d & -> & Hu & Hlen' & _).
      apply append_inj_right in Hu.
      * destruct Hu as [_ Hu]. cbn [String.append] in Hu.
        inversion Hu as [Hu'].
        apply (append_inj_right
                 (String c1 (String c2 (String c3 (String c4 (String c5
                    (String c6 (String c7 (String c8 ""))))))))
                 d "/" "/") in Hu'; [|reflexivity].
        now destruct Hu' as [-> _].
      * cbn [String.append String.length]. rewrite !length_append.
        cbn [String.length]. lia.
  - intros (pre & d1 & d2 & -> & -> & H1 & H2).
    eapply (capture1_intro RUN_REGEX _ _ pre); [reflexivity| | |discriminate].
    + cbn. unfold digit. build_match.
    + intros c Hc. apply RUN_REGEX_exec in Hc.
      destruct Hc as (pre' & e1 & e2 & -> & Hu & _).
      apply append_inj_right in Hu; [|reflexivity].
      destruct Hu as [_ Hu]. now inversion Hu.
Qed.

(** ** The Directory Walker without candidates *)

Lemma keepSome_In (A B : Type) (f : A -> option B) (l : list A) (y : B) :
  In y (ScraperFacts.keepSome f l) <-> exists x, In x l /\ f x = Some y.
Proof.
  induction l as [|x l IH]; cbn [ScraperFacts.keepSome].
  - split; [intros []|intros (x & [] & _)].
  - destruct (f x) as [z|] eqn:E.
    + split.
      * intros [<-|H]; [exists x; split; [now left|exact E]|].
        apply IH in H. destruct H as (x' & Hin & Hx'). exists x'.
        split; [now right|exact Hx'].
      * intros (x' & [<-|Hin] & Hx').
        -- left. congruence.
        -- right. apply IH. eauto.
    + rewrite IH. split.
      * intros (x' & Hin & Hx'). exists x'. split; [now right|exact Hx'].
      * intros (x' & [<-|Hin] & Hx'); [congruence|eauto].
Qed.

Section Web.
Variable resolveUrl : string -> string -> option string.
Variable pages : string -> option page.

(** A candidate is the token and the href of a link of class
    [directory] that the pattern captures. *)
Lemma candidates_In (patternRegex : RegExp) (html : page) (t h : string) :
  In (t, h) (candidates patternRegex html) <->
  exists element,
    In element html /\ isDirectoryLink element = true /\
    href element = Some h /\ h <> EmptyString /\
    capture1 patternRegex h = Some t.
Proof.
  unfold candidates. rewrite keepSome_In. split.
  - intros (element & Hin & Htok). apply List.filter_In in Hin.
    destruct Hin as [Hin Hdir]. exists element. unfold tokenOf in Htok.
    destruct (href element) as [h0|]; [|discriminate].
    destruct (truthy h0) eqn:Ht; [|discriminate].
    destruct (capture1 patternRegex h0) as [t0|] eqn:Hc; [|discriminate].
    inversion Htok. subst t0 h0. repeat split; auto.
    intros ->. discriminate.
  - intros (element & Hin & Hdir & Hh & Hne & Hc). exists element.
    split; [apply List.filter_In; auto|].
    unfold tokenOf, truthy. rewrite Hh, Hc.
    destruct (String.eqb_spec h ""); [now elim Hne|reflexivity].
Qed.

(** With candidates that resolve, the walk ends on the first greatest
    token. *)
Lemma walk_some (pageUrl : string) (patternRegex : RegExp) (html : page) :
  pages pageUrl = Some html ->
  candidates patternRegex html <> [] ->
  (forall c, In c (candidates patternRegex html) ->
             resolveUrl (snd c) pageUrl <> None) ->
  exists before t h after u,
    candidates patternRegex html = (before ++ (t, h) :: after)%list /\
    (forall c, In c before -> ltb (fst c) t = true) /\
    (forall c, In c after -> leb (fst c) t = true) /\
    resolveUrl h pageUrl = Some u /\
    findLatestDirectoryUrl resolveUrl pages pageUrl patternRegex = Ok (Some u).
Proof.
  intros Hpage Hne Hres.
  unfold findLatestDirectoryUrl, fetchHtml. rewrite Hpage.
  rewrite fold_directoryStep. fold (candidates patternRegex html).
  destruct (candidates patternRegex html) as [|[t0 h0] l]; [now elim Hne|].
  cbn [fold_left]. unfold candidateStep at 2. cbn [fst snd].
  destruct (resolveUrl h0 pageUrl) as [u0|] eqn:Hu0;
    [|now elim (Hres (t0, h0) (or_introl eq_refl))].
  destruct (fold_candidateStep resolveUrl pageUrl l [] [] t0 h0 u0)
    as (b' & t' & h' & a' & u' & Heq & Hb' & Ha' & Hu' & Hfold).
  - intros c [].
  - intros c [].
  - exact Hu0.
  - intros c Hc. apply Hres. now right.
  - exists b', t', h', a', u'. rewrite Hfold. cbn [snd].
    repeat split; auto.
Qed.

(** X13. On a listing whose matching hrefs resolve, the Directory
    Walker answers no URL exactly when no link of class [directory] has a
    non-empty href from which the pattern captures a token; a listing that
    cannot be fetched makes it throw. *)
Theorem findLatestDirectoryUrl_null_iff
        (pageUrl : string) (patternRegex : RegExp) :
  match pages pageUrl with
  | None =>
      exists message,
        findLatestDirectoryUrl resolveUrl pages pageUrl patternRegex
        = Throw message
  | Some html =>
      (forall element h t,
         In element html -> isDirectoryLink element = true ->
         href element = Some h -> capture1 patternRegex h = Some t ->
         resolveUrl h pageUrl <> None) ->
      (findLatestDirectoryUrl resolveUrl pages pageUrl patternRegex = Ok None
       <->
       forall element h,
         In element html -> isDirectoryLink element = true ->
         href element = Some h -> h <> EmptyString ->
         capture1 patternRegex h = None)
  end.
Proof.
  destruct (pages pageUrl) as [html|] eqn:Hpage.
  2:{ unfold findLatestDirectoryUrl, fetchHtml. rewrite Hpage. eauto. }
  intros Hres.
  assert (Hres' : forall c, In c (candidates patternRegex html) ->
                            resolveUrl (snd c) pageUrl <> None).
  { intros [t h] Hc. apply candidates_In in Hc.
    destruct Hc as (element & Hin & Hdir & Hh & _ & Hcap).
    cbn [snd]. eapply Hres; eassumption. }
  split.
  - intros Hnone element h Hin Hdir Hh Hne.
    destruct (capture1 patternRegex h) as [t|] eqn:Hcap; [|reflexivity].
    exfalso.
    assert (Hc : In (t, h) (candidates patternRegex html)).
    { apply candidates_In. exists element. auto. }
    destruct (walk_some pageUrl patternRegex html Hpage)
      as (b & t' & h' & a & u & _ & _ & _ & _ & Hsome); auto.
    + intros Hnil. rewrite Hnil in Hc. destruct Hc.
    + rewrite Hsome in Hnone. discriminate.
  - intros Hall.
    apply (findLatestDirectoryUrl_none resolveUrl pages pageUrl patternRegex html);
      [exact Hpage|].
    destruct (candidates patternRegex html) as [|[t h] l] eqn:Hc;
      [reflexivity|].
    assert (Hin : In (t, h) (candidates patternRegex html))
      by (rewrite Hc; now left).
    apply candidates_In in Hin.
    destruct Hin as (element & Hin & Hdir & Hh & Hne & Hcap).
    rewrite (Hall element h Hin Hdir Hh Hne) in Hcap. discriminate.
Qed.

End Web.

(** ** String order and numeric order *)

(** The number written by the decimal digits of a text, its other
    characters left aside: [20250408] for a date token, the hour for a
    run token such as [t12z]. *)
Definition digitOf (c : ascii) : N := N.of_nat (code c - 48).

Fixpoint numberFrom (acc : N) (s : string) : N :=
  match s with
  | EmptyString => acc
  | String c s' =>
      numberFrom (if isDigit c then 10 * acc + digitOf c else acc)%N s'
  end.

Definition tokenNumber (s : string) : N := numberFrom 0 s.

Fixpoint pow10 (n : nat) : N :=
  match n with
  | O => 1%N
  | S n' => (10 * pow10 n')%N
  end.

Lemma numberFrom_digits (s : string) :
  forallChars isDigit s = true ->
  forall acc,
    (numberFrom acc s = acc * pow10 (String.length s) + tokenNumber s /\
     tokenNumber s < pow10 (String.length s))%N.
Proof.
  unfold tokenNumber.
  induction s as [|c s IH]; intros Hd acc; cbn [numberFrom String.length].
  - cbn. lia.
  - cbn [forallChars] in Hd. apply Bool.andb_true_iff in Hd.
    destruct Hd as [Hc Hs]. rewrite Hc.
    destruct (IH Hs (10 * acc + digitOf c)%N) as [E1 _].
    destruct (IH Hs (10 * 0 + digitOf c)%N) as [E2 Hlt].
    rewrite E1, E2. cbn [pow10].
    assert (Hdig : (digitOf c <= 9)%N).
    { unfold digitOf, isDigit in *. apply Bool.andb_true_iff in Hc.
      destruct Hc as [H1 H2]. apply Nat.leb_le in H1, H2. lia. }
    set (P := (pow10 (String.length s))%N) in *.
    split; nia.
Qed.

Lemma digitOf_lt (x y : ascii) :
  isDigit x = true -> isDigit y = true ->
  (code x < code y <-> (digitOf x < digitOf y)%N) /\
  (digitOf x = digitOf y -> x = y).
Proof.
  unfold digitOf, isDigit. intros Hx Hy.
  apply Bool.andb_true_iff in Hx, Hy. destruct Hx as [Hx1 Hx2], Hy as [Hy1 Hy2].
  apply Nat.leb_le in Hx1, Hx2, Hy1, Hy2. split; [lia|].
  intros H. apply code_inj. lia.
Qed.

(** On digit strings of the same length the string order is the order
    of the numbers. *)
Lemma ltb_digits (s : string) :
  forall t,
    forallChars isDigit s = true -> forallChars isDigit t = true ->
    String.length s = String.length t ->
    (ltb s t = true <-> (tokenNumber s < tokenNumber t)%N).
Proof.
  induction s as [|x s IH]; intros [|y t] Hs Ht Hlen; try discriminate.
  - cbn. split; [discriminate|lia].
  - cbn [String.length] in Hlen. injection Hlen as Hlen.
    cbn [forallChars] in Hs, Ht. apply Bool.andb_true_iff in Hs, Ht.
    destruct Hs as [Hx Hs], Ht as [Hy Ht].
    rewrite ltb_cons. unfold tokenNumber. cbn [numberFrom]. rewrite Hx, Hy.
    destruct (numberFrom_digits s Hs (10 * 0 + digitOf x)%N) as [-> _].
    destruct (numberFrom_digits t Ht (10 * 0 + digitOf y)%N) as [-> _].
    destruct (numberFrom_digits s Hs 0%N) as [_ Hsl].
    destruct (numberFrom_digits t Ht 0%N) as [_ Htl].
    rewrite <- Hlen in *.
    specialize (IH t Hs Ht Hlen).
    destruct (digitOf_lt x y Hx Hy) as [Hlt Heq].
    set (P := (pow10 (String.length s))%N) in *.
    split.
    + intros [H|[-> H]]; [apply Hlt in H; nia|apply IH in H; nia].
    + intros H.
      destruct (N.lt_trichotomy (digitOf x) (digitOf y)) as [Hc|[Hc|Hc]].
      * left. now apply Hlt.
      * right. split; [now apply Heq|]. apply IH. nia.
      * nia.
Qed.

Lemma leb_digits (s t : string) :
  forallChars isDigit s = true -> forallChars isDigit t = true ->
  String.length s = String.length t ->
  (leb s t = true <-> (tokenNumber s <= tokenNumber t)%N).
Proof.
  intros Hs Ht Hlen. unfold leb.
  pose proof (ltb_digits t s Ht Hs (eq_sym Hlen)) as H.
  destruct (ltb t s); cbn [negb].
  - split; [discriminate|]. intros Hle.
    assert (tokenNumber t < tokenNumber s)%N by now apply H. lia.
  - split; [|reflexivity]. intros _.
    destruct (N.le_gt_cases (tokenNumber s) (tokenNumber t)) as [Hle|Hgt];
      [exact Hle|].
    apply H in Hgt. discriminate.
Qed.

(** The tokens of one directory pattern compare as their numbers do. *)
Lemma token_order (p : RegExp) (h1 h2 t1 t2 : string) :
  In p [YEAR_MONTH_REGEX; DAY_REGEX; RUN_REGEX] ->
  capture1 p h1 = Some t1 -> capture1 p h2 = Some t2 ->
  (leb t1 t2 = true <-> (tokenNumber t1 <= tokenNumber t2)%N).
Proof.
  intros [<-|[<-|[<-|[]]]] H1 H2.
  - apply YEAR_MONTH_REGEX_capture in H1, H2.
    destruct H1 as (_ & L1 & D1), H2 as (_ & L2 & D2).
    apply leb_digits; congruence.
  - apply DAY_REGEX_capture in H1, H2.
    destruct H1 as (_ & _ & L1 & D1), H2 as (_ & _ & L2 & D2).
    apply leb_digits; congruence.
  - apply RUN_REGEX_capture in H1, H2.
    destruct H1 as (_ & a1 & a2 & _ & -> & A1 & A2).
    destruct H2 as (_ & b1 & b2 & _ & -> & B1 & B2).
    assert (Hd : forall x y, isDigit x = true -> isDigit y = true ->
                   forallChars isDigit (String x (String y "")) = true).
    { intros x y Hx Hy. cbn. now rewrite Hx, Hy. }
    pose proof (leb_digits (String a1 (String a2 "")) (String b1 (String b2 ""))
                  (Hd _ _ A1 A2) (Hd _ _ B1 B2) eq_refl) as H.
    assert (Hn : forall x y, isDigit x = true -> isDigit y = true ->
                   tokenNumber (String "t" (String x (String y "z")))
                   = tokenNumber (String x (String y ""))).
    { intros x y Hx Hy. unfold tokenNumber. cbn [numberFrom].
      rewrite Hx, Hy. reflexivity. }
    rewrite (Hn _ _ A1 A2), (Hn _ _ B1 B2), <- H.
    unfold leb. cbn [ltb].
    assert (Ht : (code "t" <? code "t") = false) by reflexivity.
    assert (Ht' : (code "t" =? code "t") = true) by reflexivity.
    rewrite Ht, Ht'.
    destruct (code b1 <? code a1); [reflexivity|].
    destruct (code b1 =? code a1); [|reflexivity].
    destruct (code b2 <? code a2); [reflexivity|].
    destruct (code b2 =? code a2); reflexivity.
Qed.

Section Latest.
Variable resolveUrl : string -> string -> option string.
Variable pages : string -> option page.

(** X14. With the month, day and run patterns the Directory Walker
    returns the href, resolved, of a candidate whose token is numerically
    the greatest of the listing (the latest month, date or hour): on these
    tokens the string comparison of the code is the comparison of the
    numbers. *)
Theorem findLatestDirectoryUrl_numeric_maximum
        (pageUrl : string) (patternRegex : RegExp) (html : page) (u : string) :
  In patternRegex [YEAR_MONTH_REGEX; DAY_REGEX; RUN_REGEX] ->
  pages pageUrl = Some html ->
  (forall c, In c (candidates patternRegex html) ->
             resolveUrl (snd c) pageUrl <> None) ->
  findLatestDirectoryUrl resolveUrl pages pageUrl patternRegex = Ok (Some u) ->
  exists t h,
    In (t, h) (candidates patternRegex html) /\
    resolveUrl h pageUrl = Some u /\
    forall c, In c (candidates patternRegex html) ->
              (tokenNumber (fst c) <= tokenNumber t)%N.
Proof.
  intros Hp Hpage Hres Hfound.
  destruct (walk_some resolveUrl pages pageUrl patternRegex html Hpage)
    as (before & t & h & after & u' & Heq & Hb & Ha & Hu & Hsome); auto.
  { intros Hnil.
    rewrite (findLatestDirectoryUrl_none resolveUrl pages pageUrl patternRegex
               html Hpage Hnil) in Hfound. discriminate. }
  rewrite Hsome in Hfound. inversion Hfound. subst u'.
  assert (Hin : In (t, h) (candidates patternRegex html)).
  { rewrite Heq. apply List.in_or_app. right. now left. }
  exists t, h. split; [exact Hin|]. split; [exact Hu|].
  intros [t' h'] Hc. cbn [fst].
  pose proof Hc as Hc'. apply candidates_In in Hc'.
  destruct Hc' as (_ & _ & _ & _ & _ & Hcap').
  pose proof Hin as Hin'. apply candidates_In in Hin'.
  destruct Hin' as (_ & _ & _ & _ & _ & Hcap).
  apply (token_order patternRegex h' h t' t Hp Hcap' Hcap).
  rewrite Heq in Hc. apply List.in_app_or in Hc.
  destruct Hc as [Hc|[Hc|Hc]].
  - apply ltb_leb. apply (Hb _ Hc).
  - inversion Hc. apply leb_refl.
  - apply (Ha _ Hc).
Qed.

(** ** The Image Selector *)

(** X15. The Image Selector returns exactly the URLs of the links that
    pass its test and resolve: a URL is in the result if and only if some
    link of the listing has a non-empty href that matches the tornado
    image pattern, contains neither [abs_calib] nor [life_risk], and
    resolves to that URL.  A link whose href does not resolve is skipped
    without an error, and the result has at most one URL per link. *)
Theorem findTornadoImageUrls_membership (runDirUrl : string) (html : page) :
  pages runDirUrl = Some html ->
  exists urls,
    findTornadoImageUrls resolveUrl pages runDirUrl = Ok urls /\
    List.length urls <= List.length html /\
    forall u,
      In u urls <->
      exists element h,
        In element html /\ href element = Some h /\ h <> EmptyString /\
        test TORNADO_IMG_REGEX h = true /\
        includes "abs_calib" h = false /\
        includes "life_risk" h = false /\
        resolveUrl h runDirUrl = Some u.
Proof.
  intros Hpage. exists (flat_map (contribution resolveUrl runDirUrl) html).
  split; [now apply findTornadoImageUrls_flat_map|]. split.
  - clear Hpage. induction html as [|a l IH]; cbn [flat_map List.length];
      [lia|].
    rewrite List.length_app.
    assert (List.length (contribution resolveUrl runDirUrl a) <= 1); [|lia].
    unfold contribution. destruct (href a) as [h|]; [|cbn; lia].
    destruct (isRelevantHref h); [|cbn; lia].
    destruct (resolveUrl h runDirUrl); cbn; lia.
  - intros u. rewrite List.in_flat_map. split.
    + intros (element & Hin & Hu). unfold contribution in Hu.
      destruct (href element) as [h|] eqn:Hh; [|destruct Hu].
      destruct (isRelevantHref h) eqn:Hrel; [|destruct Hu].
      destruct (resolveUrl h runDirUrl) as [full|] eqn:Hres; [|destruct Hu].
      destruct Hu as [<-|[]].
      assert (Hne : h <> EmptyString).
      { intros ->. discriminate. }
      apply isRelevantHref_inv in Hrel. destruct Hrel as (Ht & Hc & Hl).
      exists element, h. auto 8.
    + intros (element & h & Hin & Hh & Hne & Ht & Hc & Hl & Hres).
      exists element. split; [exact Hin|].
      unfold contribution, isRelevantHref, truthy.
      rewrite Hh, Ht, Hc, Hl, Hres.
      destruct (String.eqb_spec h ""); [now elim Hne|]. now left.
Qed.
End Latest.
End ScraperMore.

(* ================================================================== *)
(** * Further properties of the Orchestrator *)
(* ================================================================== *)

Module IndexMore.
Import JsString Scraper StateManager BlueskyNotifier Index.
Import StringFacts StateManagerFacts NotifierFacts IndexFacts.
Import StoreMore NotifierMore.

(** ** The file name of an image *)

Lemma includes_slash_cons (c : ascii) (s : string) :
  includes "/" (String c s) = Ascii.eqb c "/" || includes "/" s.
Proof.
  cbn [includes startsWith]. rewrite Bool.andb_true_r.
  now rewrite Ascii.eqb_sym.
Qed.

Lemma filenameOf_cons (c : ascii) (s : string) :
  filenameOf (String c s)
  = if includes "/" s then filenameOf s
    else if Ascii.eqb c "/" then s else String c s.
Proof.
  unfold filenameOf. cbn [afterLastSlash].
  destruct (includes "/" s); [reflexivity|].
  destruct (Ascii.eqb c "/"); reflexivity.
Qed.

(** X16. The file name the Orchestrator derives from an image URL is
    what follows the last slash of the URL: it contains no slash, the URL
    is a prefix followed by it, and the prefix is empty (when the URL has
    no slash: the file name is then the whole URL) or ends with a
    slash. *)
Theorem filenameOf_after_last_slash (imageUrl : string) :
  includes "/" (filenameOf imageUrl) = false /\
  exists prefix,
    imageUrl = (prefix ++ filenameOf imageUrl)%string /\
    (if includes "/" imageUrl then endsWith "/" prefix = true
     else prefix = EmptyString).
Proof.
  induction imageUrl as [|c s IH].
  - split; [reflexivity|]. exists EmptyString. split; reflexivity.
  - destruct IH as (Hno & prefix & Hs & Hp).
    rewrite filenameOf_cons, includes_slash_cons.
    destruct (includes "/" s) eqn:Hin.
    + split; [exact Hno|]. exists (String c prefix).
      rewrite Bool.orb_true_r. split; [cbn; now rewrite <- Hs|].
      revert Hp. unfold endsWith. cbn [String.length].
      destruct prefix as [|p0 prefix]; [discriminate|].
      cbn [String.length Nat.leb Nat.sub substring].
      now rewrite !Nat.sub_0_r.
    + rewrite Bool.orb_false_r.
      destruct (Ascii.eqb_spec c "/") as [->|Hc].
      * split; [exact Hin|]. exists "/"%string. split; reflexivity.
      * split.
        -- rewrite includes_slash_cons, Hin, Bool.orb_false_r.
           now apply Ascii.eqb_neq.
        -- exists EmptyString. split; reflexivity.
Qed.

(** [l1] is [l2] with some elements left out, the order kept. *)
Inductive Subseq {A : Type} : list A -> list A -> Prop :=
| SubseqNil : Subseq [] []
| SubseqSkip x l1 l2 : Subseq l1 l2 -> Subseq l1 (x :: l2)
| SubseqKeep x l1 l2 : Subseq l1 l2 -> Subseq (x :: l1) (x :: l2).

(** ** One image, one publish *)

Lemma uploadLoop_throw_store (api : AgentApi) (left i : nat) (buf : Buffer)
      (alt : string) (ups : list UploadedImage) :
  forall (a a' : Agent) (e : string),
    uploadLoop api left i buf alt ups a = (Throw e, a') ->
    blobStore a' = blobStore a.
Proof.
  induction left as [|left IH]; intros a a' e.
  - cbn. discriminate.
  - cbn [uploadLoop]. unfold_monad. unfold agentUploadBlob, sleep.
    unfold_monad.
    destruct (uploadError api (uploadCalls a)) as [e0|]; [|discriminate].
    destruct (MAX_RETRIES <=? attemptsAfter (S left)).
    + intros H. inversion H. reflexivity.
    + intros H. apply IH in H. exact H.
Qed.

Lemma uploadImages_single (api : AgentApi) (buf : Buffer) (alt : string)
      (a a' : Agent) (r : result (list UploadedImage)) :
  uploadImages api [buf] [alt] a = (r, a') ->
  feed a' = feed a /\
  match r with
  | Throw _ => blobStore a' = blobStore a
  | Ok ups =>
      blobStore a' = (blobStore a ++ [buf])%list /\
      ups = [mkUploadedImage (List.length (blobStore a)) (altTextAt [alt] 0)]
  end.
Proof.
  unfold uploadImages.
  cbn [List.length Nat.eqb capImages MAX_IMAGES_PER_POST Nat.ltb Nat.leb
       padAltTexts].
  unfold Monad.bind at 1. unfold Monad.liftResult.
  cbn [uploadFrom]. unfold Monad.bind, Monad.ret.
  destruct (uploadLoop api MAX_RETRIES 0 buf (altTextAt [alt] 0) [] a)
    as [[ups|e] a1] eqn:Hloop; intros H; inversion H; subst.
  - pose proof (uploadLoop_frame _ _ _ _ _ _ _ _ _ Hloop) as (Hf & _).
    apply uploadLoop_ok_inv in Hloop; [|unfold MAX_RETRIES; lia].
    destruct Hloop as (-> & Hb & _). auto.
  - pose proof (uploadLoop_frame _ _ _ _ _ _ _ _ _ Hloop) as (Hf & _).
    apply uploadLoop_throw_store in Hloop. auto.
Qed.

(** Called with one image and its alt text, [notifyBluesky] either
    creates no post, or stores the image and creates the post that embeds
    it. *)
Lemma notifyBluesky_single (api : AgentApi) (postText : string) (buf : Buffer)
      (alt : string) (a a' : Agent) (r : result unit) :
  truthy alt = true ->
  BlueskyNotifier.notifyBluesky api postText [buf] [alt] a = (r, a') ->
  (feed a' = feed a /\
   (blobStore a' = blobStore a \/ blobStore a' = (blobStore a ++ [buf])%list))
  \/
  (r = Ok tt /\
   feed a'
   = mkPostRecord (truncatePostText postText)
                  (Some [(List.length (blobStore a), alt)]) :: feed a /\
   blobStore a' = (blobStore a ++ [buf])%list).
Proof.
  intros Halt H. apply notifyBluesky_steps in H.
  destruct H as [(e & Hl & _)|(a0 & Hl & H)].
  { apply ensureSession_frame in Hl. destruct Hl as (Hf & Hb & _). auto. }
  apply ensureSession_frame in Hl. destruct Hl as (Hf0 & Hb0 & _).
  destruct H as [(e & Hup & _)|(ups & a1 & Hup & Hpost)].
  { apply uploadImages_single in Hup. destruct Hup as (Hf & Hb).
    left. split; [congruence|]. left. congruence. }
  apply uploadImages_single in Hup. destruct Hup as (Hf1 & Hb1 & ->).
  unfold createPost in Hpost. apply postLoop_feed in Hpost.
  destruct Hpost as [Hb2 [Hp|[Hr Hp]]].
  - left. split; [congruence|]. right. congruence.
  - right. split; [exact Hr|]. split; [|congruence].
    rewrite Hp, Hf1, Hf0. unfold makePostRecord. cbn [List.length Nat.ltb
      Nat.leb map image altText]. unfold altTextAt. cbn [nth_error].
    rewrite Halt. now rewrite Hb0.
Qed.

Section Monitor.
Variable env : Env.

Local Abbreviation read :=
  (StateManager.readLastProcessedRunId
     (faults env) (stateFilePath (config env)) (stateDir env)).
Local Abbreviation write :=
  (StateManager.writeLastProcessedRunId
     (faults env) (stateFilePath (config env)) (stateDir env)).

(** The post the Orchestrator asks for, for the image at [imageUrl] of
    a run, the image being stored as [blob]. *)
Definition postFor (run : RunInfo) (imageUrl : string) (blob : Blob)
  : PostRecord :=
  mkPostRecord
    (truncatePostText (postTextFor env (runId run) (filenameOf imageUrl)))
    (Some [(blob, altTextFor (runId run) (filenameOf imageUrl))]).

(** Handling one image: nothing is posted, or the image downloaded from
    the URL is stored and posted. *)
Lemma processImage_outcome (run : RunInfo) (imageUrl : string)
      (w w' : World) (r : result unit) :
  processImage env run imageUrl w = (r, w') ->
  (feed (agent w') = feed (agent w) /\
   exists extra,
     blobStore (agent w') = (blobStore (agent w) ++ extra)%list)
  \/
  (exists buf,
     images env imageUrl = Some buf /\
     feed (agent w')
     = postFor run imageUrl (List.length (blobStore (agent w)))
       :: feed (agent w) /\
     blobStore (agent w') = (blobStore (agent w) ++ [buf])%list).
Proof.
  unfold processImage, log, Index.notifyBluesky, onAgent, Index.fetchImages.
  cbn [ImageFetcher.fetchImages]. unfold ImageFetcher.fetchImage.
  unfold_monad. world_simpl.
  destruct (images env imageUrl) as [buf|] eqn:Himg.
  2:{ intros H. inversion H. subst. world_simpl. left.
      split; [reflexivity|]. exists []. now rewrite List.app_nil_r. }
  world_simpl.
  destruct (BlueskyNotifier.notifyBluesky _ _ _ _ _) as [r0 a'] eqn:Hn.
  apply notifyBluesky_single in Hn; [|reflexivity].
  intros H.
  assert (Hagent : agent w' = a').
  { destruct r0 as [[]|e]; inversion H; subst; reflexivity. }
  rewrite Hagent.
  destruct Hn as [(Hf & Hb)|(_ & Hf & Hb)].
  - left. split; [exact Hf|].
    destruct Hb as [Hb|Hb]; rewrite Hb;
      [exists []; now rewrite List.app_nil_r|eauto].
  - right. exists buf. auto.
Qed.

(** What was posted of a listing: the URLs posted with the handles of
    their images, in the order of posting. *)
Definition postsOf (run : RunInfo) (done : list (string * Blob))
  : list PostRecord :=
  rev (map (fun d => postFor run (fst d) (snd d)) done).

(** Each handle refers to the bytes downloaded from its URL. *)
Definition refersTo (store : list Buffer) (d : string * Blob) : Prop :=
  exists buf, images env (fst d) = Some buf /\ nth_error store (snd d) = Some buf.

Lemma forEach_processImage_outcome (run : RunInfo) (imageUrls : list string) :
  forall (w w' : World) (r : result unit),
    Monad.forEach imageUrls (processImage env run) w = (r, w') ->
    exists done,
      Subseq (map fst done) imageUrls /\
      feed (agent w') = (postsOf run done ++ feed (agent w))%list /\
      (exists extra,
         blobStore (agent w') = (blobStore (agent w) ++ extra)%list) /\
      Forall (refersTo (blobStore (agent w'))) done.
Proof.
  induction imageUrls as [|imageUrl rest IH]; intros w w' r.
  - cbn. intros H. inversion H. subst. exists []. repeat split.
    + constructor.
    + exists []. now rewrite List.app_nil_r.
    + constructor.
  - cbn [Monad.forEach]. unfold Monad.bind.
    destruct (processImage_frame env run imageUrl w) as (w1 & H1 & _).
    rewrite H1. intros H.
    destruct (IH _ _ _ H) as (done & Hsub & Hfeed & (extra & Hstore) & Hall).
    apply processImage_outcome in H1.
    destruct H1 as [(Hf & extra1 & Hb)|(buf & Himg & Hf & Hb)].
    + exists done. repeat split.
      * now constructor.
      * now rewrite Hfeed, Hf.
      * exists (extra1 ++ extra)%list.
        now rewrite Hstore, Hb, List.app_assoc.
      * exact Hall.
    + exists ((imageUrl, List.length (blobStore (agent w))) :: done).
      repeat split.
      * cbn [map fst]. now constructor.
      * rewrite Hfeed, Hf. unfold postsOf. cbn [map rev fst snd].
        now rewrite <- List.app_assoc.
      * exists ([buf] ++ extra)%list.
        now rewrite Hstore, Hb, List.app_assoc.
      * constructor; [|exact Hall].
        exists buf. cbn [fst snd]. split; [exact Himg|].
        rewrite Hstore, Hb, <- List.app_assoc.
        rewrite List.nth_error_app2 by lia. now rewrite Nat.sub_diag.
Qed.

(** ** The course of a cycle *)

(** A cycle that is not skipped, step by step: it never throws and
    releases the lock; the disk is touched by the read and, when a new
    run's listing was obtained, by the write that follows the loop over
    the images; the agent is touched by that loop only. *)
Lemma cycle_cases (w w' : World) (r : result unit) :
  checkNadocast env w = (r, w') ->
  isProcessing w = false ->
  r = Ok tt /\ isProcessing w' = false /\
  hd_error (logged w') = Some CheckFinished /\
  match findLatestRunInfo env with
  | None => fs w' = fs w /\ agent w' = agent w
  | Some run =>
      match read (fs w) with
      | (Throw e, f1) =>
          fs w' = f1 /\ agent w' = agent w /\
          nth_error (logged w') 1 = Some (CheckError e)
      | (Ok stored, f1) =>
          if sameRun (runId run) stored
          then fs w' = f1 /\ agent w' = agent w
          else
            match findTornadoImageUrls env (runUrl run) with
            | Throw e =>
                fs w' = f1 /\ agent w' = agent w /\
                nth_error (logged w') 1 = Some (CheckError e)
            | Ok imageUrls =>
                exists w0 w1,
                  agent w0 = agent w /\
                  Monad.forEach imageUrls (processImage env run) w0
                  = (Ok tt, w1) /\
                  agent w' = agent w1 /\
                  fs w' = snd (write (runId run) f1) /\
                  match fst (write (runId run) f1) with
                  | Ok _ => True
                  | Throw e => nth_error (logged w') 1 = Some (CheckError e)
                  end
            end
      end
  end.
Proof.
  unfold checkNadocast. unfold Monad.bind at 1. unfold Monad.get.
  intros H Hlock. rewrite Hlock in H. revert H.
  unfold checkBody.
  destruct (findLatestRunInfo env) as [run|].
  2:{ unfold log, release. unfold_monad. intros H. inversion H. subst.
      world_simpl. auto. }
  unfold readLastProcessedRunId, writeLastProcessedRunId, onFs, log, release.
  unfold_monad. world_simpl.
  destruct (read (fs w)) as [[stored|e] f1].
  2:{ intros H. inversion H. subst. world_simpl. auto 6. }
  world_simpl. destruct (sameRun (runId run) stored).
  { intros H. inversion H. subst. world_simpl. auto. }
  destruct (findTornadoImageUrls env (runUrl run)) as [imageUrls|e].
  2:{ intros H. inversion H. subst. world_simpl. auto 6. }
  destruct (List.length imageUrls =? 0) eqn:Hlen.
  { destruct imageUrls; [|discriminate]. world_simpl.
    destruct (write (runId run) f1) as [[[]|e] f2];
      intros H; inversion H; subst; world_simpl;
      (repeat split; try reflexivity);
      eexists; eexists; (repeat split; try reflexivity). }
  world_simpl.
  match goal with
  | |- context [Monad.forEach imageUrls ?body ?w0] =>
      destruct (forEach_processImage_frame env run imageUrls w0)
        as (w1 & Hloop & Hfs & _);
      set (w00 := w0) in *
  end.
  unfold Monad.bind in Hloop. rewrite Hloop. world_simpl.
  rewrite Hfs. subst w00. world_simpl.
  destruct (write (runId run) f1) as [[[]|e] f2];
    intros H; inversion H; subst; world_simpl;
    (repeat split; try reflexivity);
    eexists; exists w1; (split; [|split; [exact Hloop|]]);
    world_simpl; repeat split; reflexivity.
Qed.
End Monitor.
Section Cycle.
Variable env : Env.

Local Abbreviation read :=
  (StateManager.readLastProcessedRunId
     (faults env) (stateFilePath (config env)) (stateDir env)).
Local Abbreviation write :=
  (StateManager.writeLastProcessedRunId
     (faults env) (stateFilePath (config env)) (stateDir env)).



(** X17. A polling cycle never throws.  Entered while another one is
    running, it only logs that it is skipped and leaves the lock, the disk
    and the agent as they are; otherwise it ends with the lock released
    and its last log entry is the one of the [finally] block. *)
Theorem checkNadocast_never_throws (w : World) :
  exists w',
    checkNadocast env w = (Ok tt, w') /\
    if isProcessing w
    then w' = addLog CheckInProgress w
    else isProcessing w' = false /\
         hd_error (logged w') = Some CheckFinished.
Proof.
  destruct (checkNadocast env w) as [r w'] eqn:H. exists w'.
  destruct (isProcessing w) eqn:Hlock.
  - unfold checkNadocast in H. unfold Monad.bind at 1 in H.
    unfold Monad.get in H. rewrite Hlock in H. unfold log in H.
    unfold_monad. inversion H. auto.
  - apply cycle_cases in H; [|exact Hlock].
    destruct H as (-> & Hrel & Hlog & _). auto.
Qed.



(** X20. The posts a cycle creates are posts of images of the latest
    run's listing: taken in the order of their creation they are, for
    some of the listed URLs in the order of the listing and at most once
    each, the post whose text is the text for the run and the file name,
    cut to the limit, and which embeds one image, the bytes downloaded
    from that URL, with the alt text for the run and the file name.  No
    text is longer than the limit. *)
Theorem checkNadocast_posts (w w' : World) (r : result unit) :
  checkNadocast env w = (r, w') ->
  exists done,
    feed (agent w')
    = (match findLatestRunInfo env with
       | Some run => postsOf env run done
       | None => []
       end ++ feed (agent w))%list /\
    Subseq (map fst done)
           (match findLatestRunInfo env with
            | Some run =>
                match findTornadoImageUrls env (runUrl run) with
                | Ok imageUrls => imageUrls
                | Throw _ => []
                end
            | None => []
            end) /\
    Forall (refersTo env (blobStore (agent w'))) done /\
    forall run, findLatestRunInfo env = Some run ->
      Forall (fun p => String.length (text p) <= MAX_POST_LENGTH)
             (postsOf env run done).
Proof.
  intros H.
  assert (Hlimit : forall run done,
             Forall (fun p => String.length (text p) <= MAX_POST_LENGTH)
                    (postsOf env run done)).
  { intros run done. unfold postsOf. apply List.Forall_rev, List.Forall_map.
    apply List.Forall_forall. intros d _. cbn [postFor text].
    set (t := postTextFor env (runId run) (filenameOf (fst d))).
    destruct (Nat.le_gt_cases (String.length t) MAX_POST_LENGTH) as [Hs|Hl].
    - now rewrite truncatePostText_short.
    - destruct (truncatePostText_long t Hl) as (_ & -> & _). lia. }
  assert (Hnone : forall l : list string,
             feed (agent w') = feed (agent w) ->
             exists done : list (string * Blob),
               feed (agent w')
               = (match findLatestRunInfo env with
                  | Some run => postsOf env run done
                  | None => []
                  end ++ feed (agent w))%list /\
               Subseq (map fst done) l /\
               Forall (refersTo env (blobStore (agent w'))) done /\
               forall run, findLatestRunInfo env = Some run ->
                 Forall (fun p => String.length (text p) <= MAX_POST_LENGTH)
                        (postsOf env run done)).
  { intros l Hf. exists []. repeat split.
    - rewrite Hf. now destruct (findLatestRunInfo env).
    - induction l; now constructor.
    - constructor.
    - intros run _. constructor. }
  destruct (isProcessing w) eqn:Hlock.
  { apply Hnone. unfold checkNadocast in H. unfold Monad.bind at 1 in H.
    unfold Monad.get in H. rewrite Hlock in H. unfold log in H.
    unfold_monad. inversion H. reflexivity. }
  apply cycle_cases in H; [|exact Hlock].
  destruct H as (_ & _ & _ & H).
  destruct (findLatestRunInfo env) as [run|] eqn:Hrun.
  2:{ destruct H as [_ Hag]. exists []. rewrite Hag. repeat split.
      - constructor.
      - constructor.
      - intros run Hr. discriminate. }
  assert (Hsame : agent w' = agent w ->
            exists done : list (string * Blob),
              feed (agent w') = (postsOf env run done ++ feed (agent w))%list /\
              Subseq (map fst done)
                     match findTornadoImageUrls env (runUrl run) with
                     | Ok imageUrls => imageUrls
                     | Throw _ => []
                     end /\
              Forall (refersTo env (blobStore (agent w'))) done /\
              forall run0, Some run = Some run0 ->
                Forall (fun p => String.length (text p) <= MAX_POST_LENGTH)
                       (postsOf env run0 done)).
  { intros Hag. exists []. rewrite Hag. repeat split.
    - generalize (match findTornadoImageUrls env (runUrl run) with
                  | Ok imageUrls => imageUrls
                  | Throw _ => []
                  end).
      intros l. induction l; now constructor.
    - constructor.
    - intros run0 _. constructor. }
  destruct (read (fs w)) as [[stored|e] f1].
  2:{ apply Hsame. tauto. }
  destruct (sameRun (runId run) stored).
  { apply Hsame. tauto. }
  destruct (findTornadoImageUrls env (runUrl run)) as [imageUrls|e].
  2:{ apply Hsame. tauto. }
  destruct H as (w0 & w1 & Hag0 & Hloop & Hag1 & _).
  apply forEach_processImage_outcome in Hloop.
  destruct Hloop as (done & Hsub & Hfeed & _ & Hall).
  exists done. rewrite Hag1, <- Hag0. repeat split; auto.
Qed.
End Cycle.

(** ** Cycle after cycle *)






(** ** A state file that cannot be written *)




End IndexMore.

(* ================================================================== *)
(** * The Image Fetcher *)
(* ================================================================== *)

Module FetcherFacts.
Import ImageFetcher.

Definition downloaded (o : option Buffer) : bool :=
  match o with Some _ => true | None => false end.

(** X22. [fetchImages] returns the images of the URLs whose download
    succeeds, in the order of the URLs, and drops the others without an
    error: the result is as long as the list of URLs exactly when every
    download succeeds, and for one URL it is empty exactly when the
    download fails. *)
Theorem fetchImages_keeps_successes
        (images : string -> option Buffer) (imageUrls : list string) :
  map Some (fetchImages images imageUrls)
  = filter downloaded (map images imageUrls) /\
  List.length (fetchImages images imageUrls) <= List.length imageUrls /\
  (List.length (fetchImages images imageUrls) = List.length imageUrls <->
   forall u, In u imageUrls -> images u <> None) /\
  (forall u, fetchImages images [u] = [] <-> images u = None).
Proof.
  assert (Hstep : forall u rest,
            fetchImages images (u :: rest)
            = match images u with
              | Some data => data :: fetchImages images rest
              | None => fetchImages images rest
              end).
  { intros u rest. cbn [fetchImages]. unfold fetchImage.
    destruct (images u); reflexivity. }
  assert (Hle : forall l, List.length (fetchImages images l) <= List.length l).
  { induction l as [|u rest IH]; [cbn; lia|]. rewrite Hstep.
    destruct (images u); cbn [List.length]; lia. }
  split; [|split; [apply Hle|split]].
  - induction imageUrls as [|u rest IH]; [reflexivity|].
    rewrite Hstep. cbn [map filter].
    destruct (images u) as [data|]; cbn [downloaded map]; now rewrite IH.
  - induction imageUrls as [|u rest IH].
    + split; [intros _ u []|reflexivity].
    + rewrite Hstep. destruct (images u) as [data|] eqn:E; cbn [List.length].
      * split.
        -- intros H. injection H as H. intros v [<-|Hv]; [congruence|].
           now apply IH.
        -- intros H. f_equal. apply IH. intros v Hv. apply H. now right.
      * split.
        -- intros H. pose proof (Hle rest). lia.
        -- intros H. now elim (H u (or_introl eq_refl)).
  - intros u. rewrite Hstep. cbn [fetchImages].
    destruct (images u); split; congruence.
Qed.
End FetcherFacts.

(* ================================================================== *)
(** * Loading the configuration *)
(* ================================================================== *)

Module ConfigFacts.
Import JsString Regex Config StringFacts PatternFacts.

(** A text that starts, after white space and at most one sign, with a
    decimal digit. *)
Definition startsWithInteger (v : string) : Prop :=
  exists ws sign d rest,
    v = (ws ++ sign ++ String d rest)%string /\
    forallChars isWhiteSpace ws = true /\
    (sign = EmptyString \/ sign = "+"%string \/ sign = "-"%string) /\
    isDigit d = true.

Lemma trimStart_split (s : string) :
  exists ws, s = (ws ++ trimStart s)%string /\
             forallChars isWhiteSpace ws = true.
Proof.
  induction s as [|c s (ws & Hs & Hws)].
  - exists EmptyString. auto.
  - cbn [trimStart]. destruct (isWhiteSpace c) eqn:E.
    + exists (String c ws). cbn [String.append forallChars].
      rewrite E, Hws, <- Hs. auto.
    + exists EmptyString. auto.
Qed.

Lemma trimStart_skips (ws s : string) :
  forallChars isWhiteSpace ws = true ->
  trimStart (ws ++ s) = trimStart s.
Proof.
  induction ws as [|c ws IH]; intros H; [reflexivity|].
  cbn [forallChars] in H. apply Bool.andb_true_iff in H. destruct H as [Hc H].
  cbn [String.append trimStart]. rewrite Hc. now apply IH.
Qed.

Lemma digitPrefix_nonempty (s : string) :
  digitPrefix s <> EmptyString <->
  exists d rest, s = String d rest /\ isDigit d = true.
Proof.
  destruct s as [|c s]; cbn [digitPrefix].
  - split; [intros H; now elim H|intros (d & rest & H & _); discriminate].
  - destruct (isDigit c) eqn:E.
    + split; [intros _; eauto|discriminate].
    + split; [intros H; now elim H|].
      intros (d & rest & H & Hd). inversion H. congruence.
Qed.

Lemma parseInt_NaN (v : string) :
  parseInt v = NaN <->
  digitPrefix (snd (readSign (trimStart v))) = EmptyString.
Proof.
  unfold parseInt. destruct (readSign (trimStart v)) as [sign u].
  cbn [snd]. destruct (digitPrefix u) as [|c p]; [tauto|].
  destruct (_ <? _)%Z; split; discriminate.
Qed.

(** [parseInt] gives a number exactly for the texts that start with an
    integer; what follows the digits is ignored. *)
Lemma parseInt_number_iff (v : string) :
  parseInt v <> NaN <-> startsWithInteger v.
Proof.
  rewrite parseInt_NaN. split.
  - intros H. destruct (trimStart_split v) as (ws & Hv & Hws).
    destruct (trimStart v) as [|c rest] eqn:Et; [now elim H|].
    cbn [readSign] in H.
    destruct (Ascii.eqb_spec c "-") as [->|Hm].
    { cbn [snd] in H. apply digitPrefix_nonempty in H.
      destruct H as (d & r & -> & Hd).
      exists ws, "-"%string, d, r. repeat split; auto. }
    destruct (Ascii.eqb_spec c "+") as [->|Hp].
    { cbn [snd] in H. apply digitPrefix_nonempty in H.
      destruct H as (d & r & -> & Hd).
      exists ws, "+"%string, d, r. repeat split; auto. }
    cbn [snd] in H. apply digitPrefix_nonempty in H.
    destruct H as (d & r & Heq & Hd). inversion Heq. subst.
    exists ws, EmptyString, d, r. repeat split; auto.
  - intros (ws & sign & d & rest & -> & Hws & Hsign & Hd).
    rewrite (trimStart_skips _ _ Hws).
    assert (Hdw : isWhiteSpace d = false)
      by now apply ScraperFacts.digit_not_space.
    assert (Hplus : isWhiteSpace "+" = false) by reflexivity.
    assert (Hminus : isWhiteSpace "-" = false) by reflexivity.
    destruct Hsign as [->|[->| ->]]; cbn [String.append trimStart].
    + rewrite Hdw. cbn [readSign].
      destruct (Ascii.eqb_spec d "-") as [->|_]; [discriminate|].
      destruct (Ascii.eqb_spec d "+") as [->|_]; [discriminate|].
      cbn [snd]. apply digitPrefix_nonempty. eauto.
    + rewrite Hplus. cbn [readSign].
      change (Ascii.eqb "+" "-") with false.
      change (Ascii.eqb "+" "+") with true.
      cbn [snd]. apply digitPrefix_nonempty. eauto.
    + rewrite Hminus. cbn [readSign].
      change (Ascii.eqb "-" "-") with true.
      cbn [snd]. apply digitPrefix_nonempty. eauto.
Qed.

Lemma digitPrefix_digits (digits rest : string) :
  forallChars isDigit digits = true ->
  (forall c r, rest = String c r -> isDigit c = false) ->
  digitPrefix (digits ++ rest) = digits.
Proof.
  intros Hd Hrest. induction digits as [|c digits IH].
  - cbn [String.append]. destruct rest as [|c r]; [reflexivity|].
    cbn [digitPrefix]. now rewrite (Hrest c r eq_refl).
  - cbn [forallChars] in Hd. apply Bool.andb_true_iff in Hd.
    destruct Hd as [Hc Hd]. cbn [String.append digitPrefix].
    now rewrite Hc, (IH Hd).
Qed.

(** The three signs [parseInt] reads. *)
Definition signValue (sign : string) : Z :=
  if String.eqb sign "-" then (-1)%Z else 1%Z.

(** What [parseInt] reads: the digits that follow the white space and
    the sign, up to the first character that is not a digit. *)
Lemma parseInt_value (ws sign digits rest : string) :
  forallChars isWhiteSpace ws = true ->
  sign = EmptyString \/ sign = "+"%string \/ sign = "-"%string ->
  digits <> EmptyString ->
  forallChars isDigit digits = true ->
  (forall c r, rest = String c r -> isDigit c = false) ->
  parseInt (ws ++ sign ++ digits ++ rest)
  = if (decimalValue 0 digits <? 2 ^ 53)%Z
    then SafeInt (signValue sign * decimalValue 0 digits)
    else Large.
Proof.
  intros Hws Hsign Hne Hd Hrest. unfold parseInt.
  rewrite (trimStart_skips _ _ Hws).
  destruct digits as [|d digits]; [now elim Hne|].
  pose proof Hd as Hd'. cbn [forallChars] in Hd'.
  apply Bool.andb_true_iff in Hd'. destruct Hd' as [Hd0 _].
  assert (Hdw : isWhiteSpace d = false)
    by now apply ScraperFacts.digit_not_space.
  assert (Hplus : isWhiteSpace "+" = false) by reflexivity.
  assert (Hminus : isWhiteSpace "-" = false) by reflexivity.
  assert (Hread : readSign (trimStart (sign ++ String d digits ++ rest))
                  = (signValue sign, (String d digits ++ rest)%string)).
  { destruct Hsign as [->|[->| ->]]; cbn [String.append trimStart].
    - rewrite Hdw. cbn [readSign].
      destruct (Ascii.eqb_spec d "-") as [->|_]; [discriminate|].
      destruct (Ascii.eqb_spec d "+") as [->|_]; [discriminate|].
      reflexivity.
    - rewrite Hplus. reflexivity.
    - rewrite Hminus. reflexivity. }
  rewrite Hread, (digitPrefix_digits _ _ Hd Hrest). reflexivity.
Qed.

(** ** Rendering a default and reading it back *)

Lemma decimalValue_of_uint (u : Decimal.uint) :
  forall acc : nat,
    decimalValue (Z.of_nat acc) (DecimalString.NilEmpty.string_of_uint u)
    = Z.of_nat (Nat.of_uint_acc u acc).
Proof.
  induction u as [|u IH|u IH|u IH|u IH|u IH|u IH|u IH|u IH|u IH|u IH];
    intros acc;
    cbn [DecimalString.NilEmpty.string_of_uint decimalValue Nat.of_uint_acc];
    [reflexivity|..];
    rewrite <- IH; f_equal; rewrite Nat.tail_mul_spec;
    match goal with
    | |- context [code ?c] =>
        let n := eval vm_compute in (code c) in change (code c) with n
    end;
    lia.
Qed.

Lemma string_of_uint_digits (u : Decimal.uint) :
  forallChars isDigit (DecimalString.NilEmpty.string_of_uint u) = true.
Proof.
  induction u; cbn [DecimalString.NilEmpty.string_of_uint forallChars];
    [reflexivity|..]; rewrite IHu; reflexivity.
Qed.

Lemma natToString_nonempty (n : nat) : natToString n <> EmptyString.
Proof.
  unfold natToString. intros H.
  pose proof (DecimalNat.Unsigned.of_to n) as Hn.
  destruct (Nat.to_uint n) eqn:E; try discriminate.
  cbn in Hn. subst n. discriminate.
Qed.

(** A natural number rendered in decimal is read back by [parseInt]. *)
Lemma parseInt_natToString (n : nat) :
  parseInt (natToString n)
  = if (Z.of_nat n <? 2 ^ 53)%Z then SafeInt (Z.of_nat n) else Large.
Proof.
  pose proof (parseInt_value EmptyString EmptyString (natToString n)
                EmptyString eq_refl (or_introl eq_refl)
                (natToString_nonempty n)) as H.
  cbn [String.append] in H. rewrite append_empty_r in H.
  rewrite H.
  - unfold natToString.
    pose proof (decimalValue_of_uint (Nat.to_uint n) 0) as Hv.
    change (Z.of_nat 0) with 0%Z in Hv. rewrite Hv.
    fold (Nat.of_uint (Nat.to_uint n)).
    rewrite DecimalNat.Unsigned.of_to. unfold signValue. cbn [String.eqb].
    destruct (Z.of_nat n <? 2 ^ 53)%Z; [|reflexivity]. f_equal. lia.
  - apply string_of_uint_digits.
  - intros c r Hr. discriminate.
Qed.

Section Load.
Variable processEnv : string -> option string.
Variable defaultStateFilePath : string.

(** The value of a variable, or the default when it is not set. *)
Definition orDefault (key defaultValue : string) : string :=
  match processEnv key with
  | Some value => value
  | None => defaultValue
  end.

Lemma getEnvVariable_default (key defaultValue : string) :
  getEnvVariable processEnv key (Some defaultValue)
  = Ok (orDefault key defaultValue).
Proof.
  unfold getEnvVariable, orDefault. destruct (processEnv key); reflexivity.
Qed.

(** X23. [getEnvVariableAsInt] reads the integer a value starts with:
    white space and one sign may come first, and whatever follows the
    digits is ignored, so that [15min] is read as [15]; a negative number
    or zero is accepted as it is.  The value is not looked at any
    further: a text without a leading integer is the only one
    rejected. *)
Theorem getEnvVariableAsInt_reads_leading_integer
        (key : string) (defaultValue : option nat)
        (ws sign digits rest : string) :
  processEnv key = Some (ws ++ sign ++ digits ++ rest)%string ->
  forallChars isWhiteSpace ws = true ->
  sign = EmptyString \/ sign = "+"%string \/ sign = "-"%string ->
  digits <> EmptyString ->
  forallChars isDigit digits = true ->
  (forall c r, rest = String c r -> isDigit c = false) ->
  getEnvVariableAsInt processEnv key defaultValue
  = Ok (if (decimalValue 0 digits <? 2 ^ 53)%Z
        then SafeInt (signValue sign * decimalValue 0 digits)
        else Large).
Proof.
  intros Hset Hws Hsign Hne Hd Hrest.
  unfold getEnvVariableAsInt, getEnvVariable, andThen. rewrite Hset.
  rewrite (parseInt_value ws sign digits rest Hws Hsign Hne Hd Hrest).
  destruct (_ <? _)%Z; reflexivity.
Qed.

(** X24. A variable that is not set is read as its default: the
    default is rendered in decimal and read back, and the two agree for
    every natural number below [2^53]. *)
Theorem getEnvVariableAsInt_default (key : string) (n : nat) :
  processEnv key = None ->
  (Z.of_nat n < 2 ^ 53)%Z ->
  getEnvVariableAsInt processEnv key (Some n) = Ok (SafeInt (Z.of_nat n)).
Proof.
  intros Hunset Hn.
  unfold getEnvVariableAsInt, getEnvVariable, andThen. rewrite Hunset.
  cbn [option_map]. rewrite parseInt_natToString.
  destruct (Z.ltb_spec (Z.of_nat n) (2 ^ 53)); [reflexivity|lia].
Qed.

(** X25. The configuration loads exactly when [BLUESKY_HANDLE] and
    [BLUESKY_APP_PASSWORD] are set (be it to the empty string),
    [CHECK_INTERVAL_MINUTES] is not set or starts with an integer, and
    the two URLs, set or by default, start with [http].  The settings
    are then the values set, and for the variables that are not set the
    defaults, the interval being [60]. *)
Theorem loadConfig_contract (c : Settings) :
  loadConfig processEnv defaultStateFilePath = Ok c <->
  exists handle password,
    processEnv "BLUESKY_HANDLE" = Some handle /\
    processEnv "BLUESKY_APP_PASSWORD" = Some password /\
    (forall v, processEnv "CHECK_INTERVAL_MINUTES" = Some v ->
               startsWithInteger v) /\
    startsWith "http" (orDefault "MONITOR_URL" "http://data.nadocast.com/")
    = true /\
    startsWith "http" (orDefault "PDS_URL" "https://bsky.social") = true /\
    c = mkSettings
          (orDefault "MONITOR_URL" "http://data.nadocast.com/")
          (orDefault "PDS_URL" "https://bsky.social")
          handle password
          match processEnv "CHECK_INTERVAL_MINUTES" with
          | Some v => parseInt v
          | None => SafeInt 60
          end
          (orDefault "STATE_FILE_PATH" defaultStateFilePath)
          (orDefault "LOG_LEVEL" "info").
Proof.
  unfold loadConfig. rewrite !getEnvVariable_default. cbn [andThen].
  set (m := orDefault "MONITOR_URL" "http://data.nadocast.com/").
  set (p := orDefault "PDS_URL" "https://bsky.social").
  unfold getEnvVariable at 1.
  destruct (processEnv "BLUESKY_HANDLE") as [handle|].
  2:{ cbn [andThen]. split; [discriminate|].
      intros (h & pw & H & _). discriminate. }
  cbn [andThen]. unfold getEnvVariable at 1.
  destruct (processEnv "BLUESKY_APP_PASSWORD") as [password|].
  2:{ cbn [andThen]. split; [discriminate|].
      intros (h & pw & _ & H & _). discriminate. }
  cbn [andThen].
  assert (Hint :
            getEnvVariableAsInt processEnv "CHECK_INTERVAL_MINUTES" (Some 60)
            = match processEnv "CHECK_INTERVAL_MINUTES" with
              | Some v =>
                  if isNaN (parseInt v)
                  then Throw ("Invalid integer value for environment variable "
                              ++ "CHECK_INTERVAL_MINUTES" ++ ": " ++ v)
                  else Ok (parseInt v)
              | None => Ok (SafeInt 60)
              end).
  { unfold getEnvVariableAsInt, getEnvVariable, andThen.
    destruct (processEnv "CHECK_INTERVAL_MINUTES"); reflexivity. }
  rewrite Hint. clear Hint.
  destruct (processEnv "CHECK_INTERVAL_MINUTES") as [v|].
  - destruct (parseInt v) eqn:Ev; cbn [isNaN andThen].
    + split; [discriminate|]. intros (h & pw & _ & _ & Hv & _).
      apply (proj2 (parseInt_number_iff v)) in Hv; [|reflexivity].
      now elim Hv.
    + assert (Hv : startsWithInteger v).
      { apply parseInt_number_iff. rewrite Ev. discriminate. }
      destruct (startsWith "http" m); cbn [negb];
        [|split; [discriminate|intros (h & pw & _ & _ & _ & H & _);
                                discriminate]].
      destruct (startsWith "http" p); cbn [negb];
        [|split; [discriminate|intros (h & pw & _ & _ & _ & _ & H & _);
                                discriminate]].
      split.
      * intros H. inversion H. exists handle, password.
        repeat split; auto. intros v' Hv'. inversion Hv'. now subst.
      * intros (h & pw & Hh & Hp & _ & _ & _ & ->).
        inversion Hh. inversion Hp. reflexivity.
    + assert (Hv : startsWithInteger v).
      { apply parseInt_number_iff. rewrite Ev. discriminate. }
      destruct (startsWith "http" m); cbn [negb];
        [|split; [discriminate|intros (h & pw & _ & _ & _ & H & _);
                                discriminate]].
      destruct (startsWith "http" p); cbn [negb];
        [|split; [discriminate|intros (h & pw & _ & _ & _ & _ & H & _);
                                discriminate]].
      split.
      * intros H. inversion H. exists handle, password.
        repeat split; auto. intros v' Hv'. inversion Hv'. now subst.
      * intros (h & pw & Hh & Hp & _ & _ & _ & ->).
        inversion Hh. inversion Hp. reflexivity.
  - cbn [andThen].
    destruct (startsWith "http" m); cbn [negb];
      [|split; [discriminate|intros (h & pw & _ & _ & _ & H & _);
                              discriminate]].
    destruct (startsWith "http" p); cbn [negb];
      [|split; [discriminate|intros (h & pw & _ & _ & _ & _ & H & _);
                              discriminate]].
    split.
    + intros H. inversion H. exists handle, password.
      repeat split; auto. intros v' Hv'. discriminate.
    + intros (h & pw & Hh & Hp & _ & _ & _ & ->).
      inversion Hh. inversion Hp. reflexivity.
Qed.
End Load.
End ConfigFacts.

(* ================================================================== *)
(** * The log level *)
(* ================================================================== *)

Module LoggingFacts.
Import JsString Index Logging StringFacts.

(** A character that [toUpperCase] maps to a character below [A] is
    that character. *)
Lemma upperAscii_low (c d : ascii) :
  upperAscii c = d -> code d < 65 -> c = d.
Proof.
  unfold upperAscii.
  destruct (Nat.leb_spec 97 (code c)) as [H1|H1]; cbn [andb]; [|auto].
  destruct (Nat.leb_spec (code c) 122) as [H2|H2]; [|auto].
  intros <- Hd. exfalso. unfold code in Hd at 1.
  rewrite nat_ascii_embedding in Hd by lia. lia.
Qed.

Lemma toUpperCase_digit (s : string) (d : ascii) :
  code d < 65 -> toUpperCase s = String d EmptyString ->
  s = String d EmptyString.
Proof.
  intros Hd. destruct s as [|c [|c' s]]; cbn [toUpperCase]; try discriminate.
  intros H. injection H as Hc. now rewrite (upperAscii_low c d Hc Hd).
Qed.

(** The level is a name of the enum exactly when [LOG_LEVEL] is one of
    the four numbers. *)
Lemma currentLogLevel_name (logLevel : string) :
  (exists level, currentLogLevel logLevel = NameOf level) <->
  In logLevel ["0"; "1"; "2"; "3"]%string.
Proof.
  unfold currentLogLevel, enumLookup. split.
  - destruct (String.eqb_spec (toUpperCase logLevel) "DEBUG");
      [intros (l & H); discriminate|].
    destruct (String.eqb_spec (toUpperCase logLevel) "INFO");
      [intros (l & H); discriminate|].
    destruct (String.eqb_spec (toUpperCase logLevel) "WARN");
      [intros (l & H); discriminate|].
    destruct (String.eqb_spec (toUpperCase logLevel) "ERROR");
      [intros (l & H); discriminate|].
    destruct (String.eqb_spec (toUpperCase logLevel) "0") as [E|_].
    { intros _. apply toUpperCase_digit in E; [|cbn; lia]. subst. cbn. auto. }
    destruct (String.eqb_spec (toUpperCase logLevel) "1") as [E|_].
    { intros _. apply toUpperCase_digit in E; [|cbn; lia]. subst. cbn. auto. }
    destruct (String.eqb_spec (toUpperCase logLevel) "2") as [E|_].
    { intros _. apply toUpperCase_digit in E; [|cbn; lia]. subst. cbn. auto. }
    destruct (String.eqb_spec (toUpperCase logLevel) "3") as [E|_].
    { intros _. apply toUpperCase_digit in E; [|cbn; lia]. subst. cbn.
      auto 6. }
    intros (l & H). discriminate.
  - intros [<-|[<-|[<-|[<-|[]]]]]; eexists; vm_compute; reflexivity.
Qed.

(** X26. With [LOG_LEVEL] set to one of the numbers [0] to [3] the
    monitor logs nothing at all, errors included: the enum object answers
    a number with the name of the level, and no level compares with a
    name.  With the name of a level, in whatever case, the calls at that
    level and above reach the console; any other setting counts as
    [INFO].  So every call made at the level [ERROR] reaches the console
    unless the setting is one of the four numbers. *)
Theorem numeric_log_level_silences
        (logLevel : string) (calls : list LogEntry) :
  (In logLevel ["0"; "1"; "2"; "3"]%string -> emitted logLevel calls = []) /\
  (forall level,
     toUpperCase logLevel = levelName level ->
     emitted logLevel calls
     = filter (fun e => levelNumber level <=? levelNumber (levelOf e)) calls) /\
  (enumLookup (toUpperCase logLevel) = None ->
   emitted logLevel calls
   = filter (fun e => levelNumber INFO <=? levelNumber (levelOf e)) calls) /\
  (~ In logLevel ["0"; "1"; "2"; "3"]%string ->
   forall e, In e calls -> levelOf e = ERROR -> In e (emitted logLevel calls)).
Proof.
  split; [|split; [|split]].
  - intros Hin. apply currentLogLevel_name in Hin. destruct Hin as (l & Hl).
    unfold emitted, passes. rewrite Hl.
    induction calls as [|e calls IH]; [reflexivity|exact IH].
  - intros level Hname. unfold emitted, passes, currentLogLevel.
    rewrite Hname. destruct level; reflexivity.
  - intros Hnone. unfold emitted, passes, currentLogLevel.
    now rewrite Hnone.
  - intros Hnot e Hin He. unfold emitted. apply List.filter_In.
    split; [exact Hin|]. unfold passes. rewrite He.
    destruct (currentLogLevel logLevel) as [current|l] eqn:Hc.
    + destruct current; reflexivity.
    + exfalso. apply Hnot. apply currentLogLevel_name. eauto.
Qed.
End LoggingFacts.

(* ================================================================== *)
(** * The further properties on concrete runs *)
(* ================================================================== *)

Module MoreRuns.
Import JsString Regex Scraper StateManager BlueskyNotifier Index.
Import NotifierExamples Site.
Import StoreMore NotifierMore ScraperMore IndexMore ConfigFacts.

(** A read where nothing is on disk yet. *)
Lemma read_without_fault_witness :
  let (r, s') :=
    StateManager.readLastProcessedRunId noFaults "/app/state/run.txt"
      "/app/state" (mkFs NoDir []) in
  (exists stored, r = Ok stored) /\
  (r = Ok None <->
   match fileContent (mkFs NoDir []) with
   | None => True
   | Some content => trim content = ""
   end) /\
  disk s' <> NoDir.
Proof.
  apply (read_without_fault noFaults "/app/state/run.txt" "/app/state"
           (mkFs NoDir [])).
  - reflexivity.
  - reflexivity.
  - intros _. reflexivity.
Defined.

(** One image published on a platform that accepts everything. *)
Lemma notifyBluesky_call_bounds_witness :
  let a' := snd (BlueskyNotifier.notifyBluesky allOk "text" [png Byte.x01]
                   ["alt"] idle) in
  loginCalls idle <= loginCalls a' <= loginCalls idle + MAX_RETRIES /\
  (session idle = true -> loginCalls a' = loginCalls idle) /\
  uploadCalls idle <= uploadCalls a'
  <= uploadCalls idle
     + MAX_RETRIES * Nat.min MAX_IMAGES_PER_POST (List.length [png Byte.x01]) /\
  postCalls idle <= postCalls a' <= postCalls idle + MAX_RETRIES.
Proof.
  apply (notifyBluesky_call_bounds allOk "text" [png Byte.x01] ["alt"] idle
           _ (Ok tt)).
  reflexivity.
Defined.

(** One image with two alt texts. *)
Lemma uploadImages_too_many_alt_texts_witness :
  uploadImages allOk [png Byte.x01] ["first"; "second"] idle
  = (Throw "Invalid array length", idle) /\
  (session idle = true ->
   BlueskyNotifier.notifyBluesky allOk "text" [png Byte.x01]
     ["first"; "second"] idle
   = (Throw "Invalid array length", idle)).
Proof.
  apply (uploadImages_too_many_alt_texts allOk "text" [png Byte.x01]
           ["first"; "second"] idle).
  - discriminate.
  - unfold MAX_IMAGES_PER_POST. cbn. lia.
  - cbn. lia.
Defined.

Lemma notifyBluesky_post_embeds_uploads_witness :
  let a' := snd (BlueskyNotifier.notifyBluesky allOk "text" [png Byte.x01]
                   ["alt"] idle) in
  let p := mkPostRecord "text" (Some [(0, "alt"%string)]) in
  let kept := firstn MAX_IMAGES_PER_POST [png Byte.x01] in
  Ok tt = Ok tt /\ session a' = true /\
  text p = truncatePostText "text" /\
  blobStore a' = (blobStore idle ++ kept)%list /\
  match embed p with
  | None => [png Byte.x01] = []
  | Some entries =>
      [png Byte.x01] <> [] /\
      map (fun entry => nth_error (blobStore a') (fst entry)) entries
      = map Some kept /\
      map snd entries
      = map (altTextAt (firstn MAX_IMAGES_PER_POST ["alt"%string]))
            (seq 0 (List.length kept))
  end.
Proof.
  apply (notifyBluesky_post_embeds_uploads allOk "text" [png Byte.x01]
           ["alt"] idle).
  - reflexivity.
  - reflexivity.
Defined.

(** A login that is refused three times. *)
Lemma login_outcome_witness :
  let a' := snd (login loginDenied idle) in
  let n := loginCalls idle in
  exists e,
    (forall j, j < MAX_RETRIES -> loginError loginDenied (j + n) <> None) /\
    loginError loginDenied (2 + n) = Some e /\
    "Failed to log into Bluesky after 3 attempts: denied"%string
    = ("Failed to log into Bluesky after 3 attempts: " ++ e)%string /\
    a' = mkAgent (session idle) (3 + n) (uploadCalls idle) (postCalls idle)
                 (blobStore idle) (feed idle)
                 (repeat RETRY_DELAY_MS 2 ++ delays idle)%list.
Proof.
  apply (login_outcome loginDenied idle _
           (Throw "Failed to log into Bluesky after 3 attempts: denied")).
  reflexivity.
Defined.

(** The root listing of the site. *)
Lemma findLatestDirectoryUrl_numeric_maximum_witness :
  exists t h,
    In (t, h)
       (ScraperFacts.candidates YEAR_MONTH_REGEX
          [dir "/202503/"; dir "/202504/"; dir "/202412/"; file "/999999/"]) /\
    resolveSimple h root = Some monthUrl /\
    forall c,
      In c (ScraperFacts.candidates YEAR_MONTH_REGEX
              [dir "/202503/"; dir "/202504/"; dir "/202412/";
               file "/999999/"]) ->
      (tokenNumber (fst c) <= tokenNumber t)%N.
Proof.
  apply (findLatestDirectoryUrl_numeric_maximum resolveSimple sitePages root
           YEAR_MONTH_REGEX).
  - left. reflexivity.
  - reflexivity.
  - intros c _. apply SiteRuns.resolveSimple_total.
  - reflexivity.
Defined.

Lemma findTornadoImageUrls_membership_witness :
  exists urls,
    Scraper.findTornadoImageUrls resolveSimple sitePages runUrl0 = Ok urls /\
    List.length urls <= List.length runListing /\
    forall u,
      In u urls <->
      exists element h,
        In element runListing /\ href element = Some h /\
        h <> EmptyString /\
        test TORNADO_IMG_REGEX h = true /\
        includes "abs_calib" h = false /\
        includes "life_risk" h = false /\
        resolveSimple h runUrl0 = Some u.
Proof.
  apply (findTornadoImageUrls_membership resolveSimple sitePages runUrl0
           runListing).
  reflexivity.
Defined.

(** The site with a run later than the recorded one, and a platform
    that accepts everything. *)
Definition newRunWorld : World := worldWith "20250407_t12z".





Lemma checkNadocast_posts_witness :
  let w' := snd (checkNadocast (siteEnv allOk) newRunWorld) in
  exists done,
    feed (agent w')
    = (match findLatestRunInfo (siteEnv allOk) with
       | Some run => postsOf (siteEnv allOk) run done
       | None => []
       end ++ feed (agent newRunWorld))%list /\
    Subseq (map fst done)
           (match findLatestRunInfo (siteEnv allOk) with
            | Some run =>
                match findTornadoImageUrls (siteEnv allOk) (runUrl run) with
                | Ok imageUrls => imageUrls
                | Throw _ => []
                end
            | None => []
            end) /\
    Forall (refersTo (siteEnv allOk) (blobStore (agent w'))) done /\
    forall run, findLatestRunInfo (siteEnv allOk) = Some run ->
      Forall (fun p => String.length (text p) <= MAX_POST_LENGTH)
             (postsOf (siteEnv allOk) run done).
Proof.
  apply (checkNadocast_posts (siteEnv allOk) newRunWorld _ (Ok tt)).
  vm_compute. reflexivity.
Defined.




(** An interval given as [ -15min]. *)
Definition intervalEnv (key : string) : option string :=
  if String.eqb key "CHECK_INTERVAL_MINUTES" then Some " -15min"%string
  else None.

Lemma getEnvVariableAsInt_reads_leading_integer_witness :
  Config.getEnvVariableAsInt intervalEnv "CHECK_INTERVAL_MINUTES" (Some 60)
  = Ok (if (Config.decimalValue 0 "15" <? 2 ^ 53)%Z
        then Config.SafeInt (signValue "-" * Config.decimalValue 0 "15")
        else Config.Large).
Proof.
  apply (getEnvVariableAsInt_reads_leading_integer intervalEnv
           "CHECK_INTERVAL_MINUTES" (Some 60) " " "-" "15" "min").
  - reflexivity.
  - reflexivity.
  - right. right. reflexivity.
  - discriminate.
  - reflexivity.
  - intros c r H. inversion H. reflexivity.
Defined.

Lemma getEnvVariableAsInt_default_witness :
  Config.getEnvVariableAsInt (fun _ => None) "CHECK_INTERVAL_MINUTES" (Some 60)
  = Ok (Config.SafeInt (Z.of_nat 60)).
Proof.
  apply (getEnvVariableAsInt_default (fun _ => None)
           "CHECK_INTERVAL_MINUTES" 60).
  - reflexivity.
  - reflexivity.
Defined.
End MoreRuns.
